(** * pi-parallel-agents: executor, concurrency primitives and agent resolver

    A shallow embedding of [src/executor.ts], [src/parallel.ts] and
    [src/agents.ts].  JavaScript strings are sequences of UTF-16 code units,
    asynchronous code is a state machine driven by the events the runtime
    delivers (promise settlements, abort signals, timers, child-process
    events), and mutable objects are records threaded through the steps. *)

From Stdlib Require Import ZArith QArith Qround Qpower Lia.
From stdpp Require Import gmap strings list pretty.

Local Open Scope Z_scope.
Local Close Scope Q_scope.

(** ** JavaScript strings *)

Module JsString.

(** A string is its list of UTF-16 code units. *)
Definition jsstring : Type := list N.

(** Literal strings of the source, written in ASCII. *)
Definition js (s : string) : jsstring :=
  map Ascii.N_of_ascii (String.list_ascii_of_string s).

(** [s.startsWith(p)] *)
Fixpoint startsWith (s p : jsstring) {struct p} : bool :=
  match p, s with
  | [], _ => true
  | _ :: _, [] => false
  | x :: p', y :: s' => (x =? y)%N && startsWith s' p'
  end.

(** [s.includes(p)]: [p] occurs at some position of [s]. *)
Fixpoint includes (s p : jsstring) : bool :=
  startsWith s p ||
  match s with
  | [] => false
  | _ :: s' => includes s' p
  end.

(** ASCII instance of [String.prototype.toLowerCase]: code units of the
    capital letters A-Z move to a-z, every other unit is kept. *)
Definition asciiLowerUnit (c : N) : N :=
  if ((65 <=? c) && (c <=? 90))%N then (c + 32)%N else c.

Definition asciiLower (s : jsstring) : jsstring := map asciiLowerUnit s.

(** [s.split("\n")]: never empty, one more piece than there are line feeds. *)
Fixpoint splitLines (s : jsstring) : list jsstring :=
  match s with
  | [] => [[]]
  | c :: s' =>
    if (c =? 10)%N then [] :: splitLines s'
    else match splitLines s' with
         | [] => [[c]]
         | l :: ls => (c :: l) :: ls
         end
  end.

(** [lines.join("\n")] *)
Fixpoint joinLines (ls : list jsstring) : jsstring :=
  match ls with
  | [] => []
  | [l] => l
  | l :: ls' => l ++ 10%N :: joinLines ls'
  end.

Definition isHighSurrogate (c : N) : bool := ((55296 <=? c) && (c <=? 56319))%N.
Definition isLowSurrogate (c : N) : bool := ((56320 <=? c) && (c <=? 57343))%N.

(** [Buffer.byteLength(s, "utf-8")]: one byte below U+0080, two below
    U+0800, four for a surrogate pair, three otherwise (a lone surrogate is
    encoded as U+FFFD). *)
Fixpoint byteLength (s : jsstring) : Z :=
  match s with
  | [] => 0
  | c :: s' =>
    if (c <? 128)%N then 1 + byteLength s'
    else if (c <? 2048)%N then 2 + byteLength s'
    else if isHighSurrogate c then
      match s' with
      | d :: s'' => if isLowSurrogate d then 4 + byteLength s''
                    else 3 + byteLength s'
      | [] => 3
      end
    else 3 + byteLength s'
  end.

(** White space removed by [String.prototype.trim]. *)
Definition isWhiteSpace (c : N) : bool :=
  ((9 <=? c) && (c <=? 13) || (c =? 32) || (c =? 160) || (c =? 5760)
   || (8192 <=? c) && (c <=? 8202) || (c =? 8232) || (c =? 8233)
   || (c =? 8239) || (c =? 8287) || (c =? 12288) || (c =? 65279))%N.

(** Truthiness of [s.trim()]: some code unit is not white space. *)
Definition trimNonEmpty (s : jsstring) : bool :=
  existsb (fun c => negb (isWhiteSpace c)) s.

(** Truthiness of a string value: it is not empty. *)
Definition truthy (s : jsstring) : bool :=
  match s with [] => false | _ => true end.

End JsString.

Import JsString.

(** ** Retry policy ([executor.ts], "Retry Functions") *)

Module Retry.

(** Modelled from the spec: the [RetryConfig] interface of [types.ts]
    (not among the sources): [maxAttempts], [backoffMs], optional
    [retryOn] and [skipOn] pattern lists. *)
Record RetryConfig : Type := {
  maxAttempts : Z;
  backoffMs : Z;
  retryOn : option (list jsstring);
  skipOn : option (list jsstring)
}.

Section WithLowerCase.

(** [String.prototype.toLowerCase] *)
Variable toLowerCase : jsstring -> jsstring.

(** The two [for (const pattern of ...)] loops:
    [error.toLowerCase().includes(pattern.toLowerCase())] for some
    pattern of the list. *)
Definition matchesAny (error : jsstring) (patterns : list jsstring) : bool :=
  existsb (fun pattern => includes (toLowerCase error) (toLowerCase pattern))
          patterns.

Definition shouldRetry (error : jsstring) (retry : option RetryConfig) : bool :=
  match retry with
  | None => false
  | Some r =>
    let skipped :=
      match skipOn r with
      | Some ((_ :: _) as pats) => matchesAny error pats
      | _ => false
      end in
    if skipped then false
    else match retryOn r with
         | None | Some [] => true
         | Some pats => matchesAny error pats
         end
  end.

(** Specification side: [pattern] occurs in [error] as a substring,
    letter case ignored. *)
Definition occursIgnoringCase (pattern error : jsstring) : Prop :=
  exists pre post, toLowerCase error = pre ++ toLowerCase pattern ++ post.

End WithLowerCase.

End Retry.

(** ** Resource guards ([executor.ts], "Resource Limits Enforcement") *)

Module Limits.

(** The [Error] an [AbortController] is aborted with. *)
Inductive AbortReason : Type :=
| CallerAbort
| DurationLimitExceeded (maxDurationMs : Z)
| ConcurrentToolCallLimitExceeded (maxConcurrentToolCalls : Z)
| MemoryLimitExceeded (usedMB maxMemoryMB : Q).

(** An [AbortSignal]: [None] while not aborted, [Some reason] afterwards. *)
Definition AbortSignal : Type := option AbortReason.

Definition aborted (s : AbortSignal) : bool :=
  match s with Some _ => true | None => false end.

(** [controller.abort(reason)]: a signal aborts once and keeps its reason. *)
Definition abort (reason : AbortReason) (s : AbortSignal) : AbortSignal :=
  match s with Some _ => s | None => Some reason end.

(** [AbortSignal.any(signals).aborted] *)
Definition anyAborted (signals : list AbortSignal) : bool :=
  existsb aborted signals.

(** *** [createDurationAbortSignal] *)

Record DurationGuard : Type := {
  dg_maxDurationMs : Z;
  dg_timer : bool;                     (* the [setTimeout] is pending *)
  dg_controller : AbortSignal;         (* [controller.signal] *)
  dg_parent : option AbortSignal       (* [parentSignal] *)
}.

Definition createDurationAbortSignal
    (maxDurationMs : Z) (parentSignal : option AbortSignal) : DurationGuard :=
  {| dg_maxDurationMs := maxDurationMs; dg_timer := true;
     dg_controller := None; dg_parent := parentSignal |}.

(** The signal the function returns: [combined] with a parent, else
    [controller.signal]. *)
Definition dg_signalAborted (g : DurationGuard) : bool :=
  match dg_parent g with
  | Some p => anyAborted [dg_controller g; p]
  | None => aborted (dg_controller g)
  end.

(** The [setTimeout] callback; the "abort" listener clears the timer. *)
Definition dg_timeout (g : DurationGuard) : DurationGuard :=
  if dg_timer g then
    if dg_signalAborted g then
      {| dg_maxDurationMs := dg_maxDurationMs g; dg_timer := false;
         dg_controller := dg_controller g; dg_parent := dg_parent g |}
    else
      {| dg_maxDurationMs := dg_maxDurationMs g; dg_timer := false;
         dg_controller :=
           abort (DurationLimitExceeded (dg_maxDurationMs g)) (dg_controller g);
         dg_parent := dg_parent g |}
  else g.

(** *** [class ToolCallTracker] *)

Record ToolCallTracker : Type := {
  currentCalls : Z;
  tct_maxConcurrentToolCalls : Z;
  tct_controller : AbortSignal
}.

Definition newToolCallTracker (maxConcurrentToolCalls : Z) : ToolCallTracker :=
  {| currentCalls := 0; tct_maxConcurrentToolCalls := maxConcurrentToolCalls;
     tct_controller := None |}.

Definition startTool (t : ToolCallTracker) : ToolCallTracker * bool :=
  let calls := currentCalls t + 1 in
  let m := tct_maxConcurrentToolCalls t in
  if (0 <? m) && (m <? calls) then
    ({| currentCalls := calls; tct_maxConcurrentToolCalls := m;
        tct_controller :=
          abort (ConcurrentToolCallLimitExceeded m) (tct_controller t) |},
     false)
  else
    ({| currentCalls := calls; tct_maxConcurrentToolCalls := m;
        tct_controller := tct_controller t |}, true).

Definition endTool (t : ToolCallTracker) : ToolCallTracker :=
  {| currentCalls := Z.max 0 (currentCalls t - 1);
     tct_maxConcurrentToolCalls := tct_maxConcurrentToolCalls t;
     tct_controller := tct_controller t |}.

(** *** [class MemoryMonitor] *)

Record MemoryMonitor : Type := {
  mm_maxMemoryMB : Q;
  intervalId : bool;                   (* a [setInterval] is installed *)
  mm_controller : AbortSignal
}.

Definition newMemoryMonitor (maxMemoryMB : Q) : MemoryMonitor :=
  {| mm_maxMemoryMB := maxMemoryMB; intervalId := false;
     mm_controller := None |}.

Definition mm_start (m : MemoryMonitor) : MemoryMonitor :=
  if Qle_bool (mm_maxMemoryMB m) 0 then m
  else {| mm_maxMemoryMB := mm_maxMemoryMB m; intervalId := true;
          mm_controller := mm_controller m |}.

Definition mm_stop (m : MemoryMonitor) : MemoryMonitor :=
  {| mm_maxMemoryMB := mm_maxMemoryMB m; intervalId := false;
     mm_controller := mm_controller m |}.

(** The [setInterval] callback, run every 5000 ms while the interval is
    installed; [heapUsed] is [process.memoryUsage().heapUsed] in bytes. *)
Definition mm_check (heapUsed : Z) (m : MemoryMonitor) : MemoryMonitor :=
  if intervalId m then
    let usedMB := Qmake heapUsed (1024 * 1024) in
    if negb (Qle_bool usedMB (mm_maxMemoryMB m)) then
      mm_stop {| mm_maxMemoryMB := mm_maxMemoryMB m; intervalId := intervalId m;
                 mm_controller :=
                   abort (MemoryLimitExceeded usedMB (mm_maxMemoryMB m))
                         (mm_controller m) |}
    else m
  else m.


(** *** Specification side: a tracker in use *)

(** A call of a method of a [ToolCallTracker]. *)
Inductive TrackerCall : Type :=
| CallStartTool
| CallEndTool.

Definition trackerCall (t : ToolCallTracker) (c : TrackerCall)
    : ToolCallTracker :=
  match c with
  | CallStartTool => fst (startTool t)
  | CallEndTool => endTool t
  end.

(** [usedMB > this.maxMemoryMB] for a heap of [heapUsed] bytes. *)
Definition exceedsMemory (maxMemoryMB : Q) (heapUsed : Z) : bool :=
  negb (Qle_bool (Qmake heapUsed (1024 * 1024)) maxMemoryMB).

End Limits.

(** ** Subprocess executor ([executor.ts], "Executor Implementation") *)

Module Executor.

Import Limits.

(** Modelled from the spec: the constants [MAX_OUTPUT_BYTES] and
    [MAX_OUTPUT_LINES] of [types.ts] (not among the sources): 50 KiB and
    2000 lines. *)
Definition MAX_OUTPUT_BYTES : Z := 50 * 1024.
Definition MAX_OUTPUT_LINES : Z := 2000.

(** *** [truncateOutput] *)

(** [lines.splice(0, lines.length - maxLines)] when there are more than
    [maxLines] lines. *)
Definition truncateLines (maxLines : Z) (lines : list jsstring)
    : list jsstring * bool :=
  if maxLines <? Z.of_nat (length lines)
  then (drop (Z.to_nat (Z.of_nat (length lines) - maxLines)) lines, true)
  else (lines, false).

(** [result.slice(Math.floor(result.length / 2))] *)
Definition secondHalf (result : jsstring) : jsstring :=
  drop (length result / 2)%nat result.

(** The [while] loop.  One unit of fuel is spent per iteration; [None]
    when the fuel does not reach the end of the loop. *)
Fixpoint halveLoop (fuel : nat) (maxBytes : Z) (result : jsstring)
    : option jsstring :=
  if (maxBytes <? byteLength result) && (0 <? length result)%nat then
    match fuel with
    | O => None
    | S fuel' => halveLoop fuel' maxBytes (secondHalf result)
    end
  else Some result.

Definition truncateBytes (maxBytes : Z) (result : jsstring) (truncated : bool)
    : option (jsstring * bool) :=
  if maxBytes <? byteLength result then
    match halveLoop (length result) maxBytes result with
    | Some r => Some (r, true)
    | None => None
    end
  else Some (result, truncated).

Definition truncateOutputWith (output : jsstring) (maxBytes maxLines : Z)
    : option (jsstring * bool) :=
  let '(lines, truncated) := truncateLines maxLines (splitLines output) in
  truncateBytes maxBytes (joinLines lines) truncated.

(** The call with the default arguments, as [runAgentOnce] makes it. *)
Definition truncateOutput (output : jsstring) : option (jsstring * bool) :=
  truncateOutputWith output MAX_OUTPUT_BYTES MAX_OUTPUT_LINES.

(** *** Messages and events of the child's JSON stream *)

Inductive Role : Type := RoleUser | RoleAssistant | RoleToolResult.

Inductive Part : Type :=
| TextPart (text : jsstring)
| OtherPart.

Record Message : Type := {
  role : Role;
  content : list Part;
  stopReasonIsError : bool;            (* [stopReason === "error"] *)
  errorMessage : option jsstring
}.

(** A parsed line, at the types the code reads it at: the JSON value is
    an object and [event.message], when there is one, is a [Message]
    ([event.message as Message]).  [argsPreview] stands for the value of
    [extractToolArgsPreview(event.toolName || "", event.args || {})].
    A line on which [processLine] throws (the JSON value [null], whose
    [type] cannot be read, or an assistant message whose [content] is
    not an array) is none of these events: a run that receives one is
    not among the runs described here. *)
Inductive PiEvent : Type :=
| MessageEnd (message : option Message)
| ToolExecutionStart (toolName : option jsstring) (argsPreview : jsstring)
| ToolExecutionEnd
| ToolResultEnd (message : option Message)
| OtherEvent.

(** *** [getFinalOutput] *)

Fixpoint firstText (parts : list Part) : option jsstring :=
  match parts with
  | [] => None
  | TextPart t :: _ => Some t
  | OtherPart :: rest => firstText rest
  end.

(** The loop runs from the last message to the first: [rev_messages] is
    the list of messages, newest first. *)
Fixpoint getFinalOutputRev (rev_messages : list Message) : jsstring :=
  match rev_messages with
  | [] => []
  | msg :: older =>
    match role msg with
    | RoleAssistant =>
      match firstText (content msg) with
      | Some t => t
      | None => getFinalOutputRev older
      end
    | _ => getFinalOutputRev older
    end
  end.

Definition getFinalOutput (messages : list Message) : jsstring :=
  getFinalOutputRev (rev messages).

(** *** Progress and result records *)

Inductive Status : Type :=
| StatusPending | StatusRunning | StatusCompleted | StatusFailed | StatusAborted.

Definition isAbortedStatus (s : Status) : bool :=
  match s with StatusAborted => true | _ => false end.

Record ToolEntry : Type := { tool : jsstring; args : jsstring }.

(** Modelled from the spec: the [TaskProgress] interface of [types.ts]
    (not among the sources), with the fields [runAgentOnce] initialises;
    [durationMs], a clock reading, is left out. *)
Record TaskProgress : Type := {
  p_id : jsstring;
  p_name : option jsstring;
  status : Status;
  p_task : jsstring;
  p_model : option jsstring;
  recentTools : list ToolEntry;
  recentOutput : list jsstring;
  toolCount : Z;
  tokens : Z;
  currentTool : option jsstring;
  currentToolArgs : option jsstring
}.

(** Modelled from the spec: the [TaskResult] interface of [types.ts]
    (not among the sources); [usage], [durationMs] and [fullOutputPath]
    are left out. *)
Record TaskResult : Type := {
  r_id : jsstring;
  r_name : option jsstring;
  r_task : jsstring;
  r_model : option jsstring;
  exitCode : Z;
  output : jsstring;
  r_stderr : jsstring;
  truncated : bool;
  r_step : option Z;
  r_aborted : bool;
  toolUsage : gmap jsstring Z;
  error : option jsstring
}.

(** Modelled from the spec: the [ResourceLimits] interface of [types.ts]
    (not among the sources). *)
Record ResourceLimits : Type := {
  maxMemoryMB : option Q;
  maxDurationMs : option Z;
  maxConcurrentToolCalls : option Z;
  enforceLimits : option bool
}.

(** The fields of [ExecutorOptions] that reach the code below; [cwd],
    [provider], [tools], [systemPrompt], [context] and [thinking] only
    build the command line of the child. *)
Record ExecutorOptions : Type := {
  o_task : jsstring;
  o_id : jsstring;
  o_name : option jsstring;
  o_model : option jsstring;
  o_step : option Z;
  signal : option AbortSignal;         (* the caller's signal at call time *)
  onProgress : bool;                   (* a callback was given *)
  retry : option Retry.RetryConfig;
  resourceLimits : option ResourceLimits
}.

(** *** State of one [runAgentOnce] call *)

(** What the runtime delivers to the callbacks [runAgentOnce] installs. *)
Inductive EnvEvent : Type :=
| Stdout (line : option PiEvent)
    (* a complete stdout line; [None] when blank or not JSON *)
| Stderr (data : jsstring)
| SignalAbort
    (* the caller's signal fires its "abort" event *)
| DurationTimer
    (* [maxDurationMs] elapsed: the timer of [createDurationAbortSignal] *)
| FiveSeconds (heapUsed : Z)
    (* 5000 ms elapsed: callbacks of installed [setInterval]s run *)
| ProcError
    (* the "error" event of the child *)
| ProcClose (code : option Z) (rest : option PiEvent).
    (* the "close" event; [rest] is the unterminated last line *)

Record RunState : Type := {
  progress : TaskProgress;
  messages : list Message;
  stderr : jsstring;
  apiError : jsstring;
  st_toolUsage : gmap jsstring Z;
  wasAborted : bool;
  sigterm : bool;                       (* [proc.kill("SIGTERM")] was called *)
  callerSignal : option AbortSignal;
  durationGuard : option DurationGuard;
  memoryMonitor : option MemoryMonitor;
  toolCallTracker : option ToolCallTracker;
  exit : option Z;                      (* argument of the first [resolve] *)
  result : option TaskResult;           (* value [runAgentOnce] returned *)
  emitted : list TaskProgress           (* arguments of [onProgress], in order *)
}.

Definition setProgress (p : TaskProgress) (st : RunState) : RunState :=
  {| progress := p; messages := messages st; stderr := stderr st;
     apiError := apiError st; st_toolUsage := st_toolUsage st;
     wasAborted := wasAborted st; sigterm := sigterm st;
     callerSignal := callerSignal st; durationGuard := durationGuard st;
     memoryMonitor := memoryMonitor st; toolCallTracker := toolCallTracker st;
     exit := exit st; result := result st; emitted := emitted st |}.

Definition setLocals (msgs : list Message) (err api : jsstring)
    (usage : gmap jsstring Z) (st : RunState) : RunState :=
  {| progress := progress st; messages := msgs; stderr := err;
     apiError := api; st_toolUsage := usage;
     wasAborted := wasAborted st; sigterm := sigterm st;
     callerSignal := callerSignal st; durationGuard := durationGuard st;
     memoryMonitor := memoryMonitor st; toolCallTracker := toolCallTracker st;
     exit := exit st; result := result st; emitted := emitted st |}.

Definition setKilled (sig : option AbortSignal) (st : RunState) : RunState :=
  {| progress := progress st; messages := messages st; stderr := stderr st;
     apiError := apiError st; st_toolUsage := st_toolUsage st;
     wasAborted := true; sigterm := true;
     callerSignal := sig; durationGuard := durationGuard st;
     memoryMonitor := memoryMonitor st; toolCallTracker := toolCallTracker st;
     exit := exit st; result := result st; emitted := emitted st |}.

Definition setGuards (d : option DurationGuard) (m : option MemoryMonitor)
    (st : RunState) : RunState :=
  {| progress := progress st; messages := messages st; stderr := stderr st;
     apiError := apiError st; st_toolUsage := st_toolUsage st;
     wasAborted := wasAborted st; sigterm := sigterm st;
     callerSignal := callerSignal st; durationGuard := d;
     memoryMonitor := m; toolCallTracker := toolCallTracker st;
     exit := exit st; result := result st; emitted := emitted st |}.

Definition setExit (code : Z) (res : option TaskResult) (st : RunState)
    : RunState :=
  {| progress := progress st; messages := messages st; stderr := stderr st;
     apiError := apiError st; st_toolUsage := st_toolUsage st;
     wasAborted := wasAborted st; sigterm := sigterm st;
     callerSignal := callerSignal st; durationGuard := durationGuard st;
     memoryMonitor := memoryMonitor st; toolCallTracker := toolCallTracker st;
     exit := Some code; result := res; emitted := emitted st |}.

Definition deliver (p : TaskProgress) (st : RunState) : RunState :=
  {| progress := progress st; messages := messages st; stderr := stderr st;
     apiError := apiError st; st_toolUsage := st_toolUsage st;
     wasAborted := wasAborted st; sigterm := sigterm st;
     callerSignal := callerSignal st; durationGuard := durationGuard st;
     memoryMonitor := memoryMonitor st; toolCallTracker := toolCallTracker st;
     exit := exit st; result := result st; emitted := emitted st ++ [p] |}.

Definition setStatus (s : Status) (p : TaskProgress) : TaskProgress :=
  {| p_id := p_id p; p_name := p_name p; status := s; p_task := p_task p;
     p_model := p_model p; recentTools := recentTools p;
     recentOutput := recentOutput p; toolCount := toolCount p;
     tokens := tokens p; currentTool := currentTool p;
     currentToolArgs := currentToolArgs p |}.

Definition setRecentOutput (out : list jsstring) (p : TaskProgress)
    : TaskProgress :=
  {| p_id := p_id p; p_name := p_name p; status := status p;
     p_task := p_task p; p_model := p_model p; recentTools := recentTools p;
     recentOutput := out; toolCount := toolCount p;
     tokens := tokens p; currentTool := currentTool p;
     currentToolArgs := currentToolArgs p |}.

Definition setTools (recent : list ToolEntry) (count : Z)
    (cur curArgs : option jsstring) (p : TaskProgress) : TaskProgress :=
  {| p_id := p_id p; p_name := p_name p; status := status p;
     p_task := p_task p; p_model := p_model p; recentTools := recent;
     recentOutput := recentOutput p; toolCount := count;
     tokens := tokens p; currentTool := cur; currentToolArgs := curArgs |}.

Section Run.

Variable options : ExecutorOptions.

(** [emitProgress]: [onProgress?.({ ...progress })]. *)
Definition emitProgress (st : RunState) : RunState :=
  if onProgress options then deliver (progress st) st else st.

(** [array.push(x); if (array.length > cap) array.shift()] *)
Definition pushShift {A : Type} (cap : nat) (x : A) (array : list A)
    : list A :=
  let pushed := array ++ [x] in
  if (cap <? length pushed)%nat then drop 1 pushed else pushed.

(** The preview pushed on [recentOutput]. *)
Definition preview (text : jsstring) : jsstring :=
  if (100 <? length text)%nat then take 100 text ++ js "..." else text.

(** [for (const part of msg.content)]: text parts that are not blank
    are pushed on [recentOutput]. *)
Fixpoint pushParts (parts : list Part) (out : list jsstring) : list jsstring :=
  match parts with
  | [] => out
  | TextPart text :: rest =>
    if trimNonEmpty text
    then pushParts rest (pushShift 5 (preview text) out)
    else pushParts rest out
  | OtherPart :: rest => pushParts rest out
  end.

Definition processLine (line : option PiEvent) (st : RunState) : RunState :=
  match line with
  | None => st
  | Some (MessageEnd (Some msg)) =>
    let st1 := setLocals (messages st ++ [msg]) (stderr st) (apiError st)
                         (st_toolUsage st) st in
    match role msg with
    | RoleAssistant =>
      let api :=
        match errorMessage msg with
        | Some e => if stopReasonIsError msg && truthy e then e
                    else apiError st1
        | None => apiError st1
        end in
      let st2 := setLocals (messages st1) (stderr st1) api
                           (st_toolUsage st1) st1 in
      emitProgress
        (setProgress
           (setRecentOutput
              (pushParts (content msg) (recentOutput (progress st2)))
              (progress st2)) st2)
    | _ => st1
    end
  | Some (MessageEnd None) => st
  | Some (ToolExecutionStart toolName argsPreview) =>
    let p := progress st in
    emitProgress
      (setProgress
         (setTools (recentTools p) (toolCount p) toolName (Some argsPreview) p)
         st)
  | Some ToolExecutionEnd =>
    let p := progress st in
    let st1 :=
      match currentTool p with
      | Some t =>
        if truthy t then
          let entry :=
            {| tool := t;
               args := match currentToolArgs p with
                       | Some a => a
                       | None => []
                       end |} in
          setLocals (messages st) (stderr st) (apiError st)
            (<[t := default 0 (st_toolUsage st !! t) + 1]> (st_toolUsage st))
            (setProgress
               (setTools (pushShift 10 entry (recentTools p))
                         (toolCount p + 1) (currentTool p)
                         (currentToolArgs p) p) st)
        else st
      | None => st
      end in
    let p1 := progress st1 in
    emitProgress
      (setProgress (setTools (recentTools p1) (toolCount p1) None None p1) st1)
  | Some (ToolResultEnd (Some msg)) =>
    emitProgress
      (setLocals (messages st ++ [msg]) (stderr st) (apiError st)
                 (st_toolUsage st) st)
  | Some (ToolResultEnd None) => st
  | Some OtherEvent => st
  end.

(** [killProc], the listener of the caller's signal; the [SIGKILL] that
    follows after five seconds when the child is still alive is left out. *)
Definition killProc (sig : option AbortSignal) (st : RunState) : RunState :=
  setKilled sig
    (emitProgress (setProgress (setStatus StatusAborted (progress st)) st)).

(** The code after [await new Promise(...)], run when the promise is
    resolved with [code]; nothing is returned when the truncation loop
    does not end. *)
Definition finish (code : Z) (st : RunState) : RunState :=
  match truncateOutput (getFinalOutput (messages st)) with
  | None => setExit code None st
  | Some (truncatedOutput, wasTruncated) =>
    let isAborted := isAbortedStatus (status (progress st)) in
    let error1 :=
      if negb (code =? 0) && negb isAborted then
        Some (if truthy (stderr st) then stderr st
              else js "Exit code: " ++ js (pretty code))
      else None in
    let '(error2, code2) :=
      match error1 with
      | None => if truthy (apiError st) then (Some (apiError st), 1)
                else (None, code)
      | Some _ => (error1, code)
      end in
    let res :=
      {| r_id := o_id options; r_name := o_name options;
         r_task := o_task options; r_model := o_model options;
         exitCode := code2; output := truncatedOutput;
         r_stderr := stderr st; truncated := wasTruncated;
         r_step := o_step options; r_aborted := isAborted;
         toolUsage := st_toolUsage st; error := error2 |} in
    let final :=
      setStatus (if isAborted then StatusAborted
                 else if code2 =? 0 then StatusCompleted else StatusFailed)
                (progress st) in
    let st1 := setExit code (Some res) (setProgress final st) in
    if onProgress options then deliver final st1 else st1
  end.

(** [resolve(code)]: only the first call settles the promise. *)
Definition resolve (code : Z) (st : RunState) : RunState :=
  match exit st with
  | Some _ => st
  | None => finish code st
  end.

Definition step (ev : EnvEvent) (st : RunState) : RunState :=
  match ev with
  | Stdout line => processLine line st
  | Stderr data =>
    setLocals (messages st) (stderr st ++ data) (apiError st)
              (st_toolUsage st) st
  | SignalAbort =>
    match callerSignal st with
    | Some None => killProc (Some (Some CallerAbort)) st
    | _ => st
    end
  | DurationTimer =>
    setGuards (dg_timeout <$> durationGuard st) (memoryMonitor st) st
  | FiveSeconds heapUsed =>
    setGuards (durationGuard st) (mm_check heapUsed <$> memoryMonitor st) st
  | ProcError => resolve 1 st
  | ProcClose code rest => resolve (default 0 code) (processLine rest st)
  end.

(** Truthiness of a numeric option: present, and not zero. *)
Definition truthyZ (x : option Z) : option Z :=
  match x with
  | Some z => if z =? 0 then None else Some z
  | None => None
  end.

Definition truthyQ (x : option Q) : option Q :=
  match x with
  | Some q => if Qeq_bool q 0 then None else Some q
  | None => None
  end.

Definition enforced (limits : ResourceLimits) : bool :=
  default false (enforceLimits limits).

(** The state when the executor of the promise has run: locals and
    guards are set up, the child is spawned, and the caller's signal is
    either listened to or, when already aborted, answered by [killProc]. *)
Definition start : RunState :=
  let limits := resourceLimits options in
  let st :=
    {| progress :=
         {| p_id := o_id options; p_name := o_name options;
            status := StatusRunning; p_task := o_task options;
            p_model := o_model options; recentTools := [];
            recentOutput := []; toolCount := 0; tokens := 0;
            currentTool := None; currentToolArgs := None |};
       messages := []; stderr := []; apiError := []; st_toolUsage := ∅;
       wasAborted := false; sigterm := false;
       callerSignal := signal options;
       durationGuard :=
         ms ← truthyZ (limits ≫= maxDurationMs);
         Some (createDurationAbortSignal ms None);
       memoryMonitor :=
         l ← limits; mb ← truthyQ (maxMemoryMB l);
         if enforced l then Some (newMemoryMonitor mb) else None;
       toolCallTracker :=
         l ← limits; n ← truthyZ (maxConcurrentToolCalls l);
         if enforced l then Some (newToolCallTracker n) else None;
       exit := None; result := None; emitted := [] |} in
  match signal options with
  | Some (Some _) => killProc (signal options) st
  | _ => st
  end.

(** [signals], the sources of [combinedSignal], the signal given to
    [spawn]: the caller's, the duration guard's and the memory
    monitor's. *)
Definition signals (st : RunState) : list AbortSignal :=
  match callerSignal st with Some s => [s] | None => [] end
  ++ match durationGuard st with
     | Some g => [dg_controller g]
     | None => []
     end
  ++ match memoryMonitor st with
     | Some m => [mm_controller m]
     | None => []
     end.

Definition combinedSignalAborted (st : RunState) : bool :=
  anyAborted (signals st).

Definition runAgentOnce (trace : list EnvEvent) : RunState :=
  foldl (fun st ev => step ev st) start trace.

End Run.

(** *** [runAgentWithRetry] and [runAgent] *)

(** What a call has done so far: [returned] is [None] while it has not
    returned, [Some None] when it returned [null], [Some (Some r)] when it
    returned [r]; [delivered] lists the arguments of [onProgress]. *)
Record AgentRun : Type := {
  returned : option (option TaskResult);
  delivered : list TaskProgress
}.

Definition withSignal (sig : option AbortSignal) (o : ExecutorOptions)
    : ExecutorOptions :=
  {| o_task := o_task o; o_id := o_id o; o_name := o_name o;
     o_model := o_model o; o_step := o_step o; signal := sig;
     onProgress := onProgress o; retry := retry o;
     resourceLimits := resourceLimits o |}.

Definition truthyError (e : option jsstring) : bool :=
  match e with Some s => truthy s | None => false end.

Section WithLowerCase.

Variable toLowerCase : jsstring -> jsstring.

(** The [while (attempt <= retry.maxAttempts)] loop.  Every call of
    [runAgentFn] consumes the next trace of [attempts]; the caller's
    signal is one object for all attempts, so its state carries over.
    The wait between attempts changes nothing below and is left out. *)
Fixpoint retryLoop
    (runAgentFn : ExecutorOptions -> list EnvEvent -> RunState)
    (cfg : Retry.RetryConfig) (options : ExecutorOptions)
    (attempt : Z) (lastResult : option TaskResult)
    (seen : list TaskProgress) (attempts : list (list EnvEvent))
    : AgentRun :=
  if attempt <=? Retry.maxAttempts cfg then
    match attempts with
    | [] => {| returned := None; delivered := seen |}
    | trace :: later =>
      let st := runAgentFn options trace in
      let seen' := seen ++ emitted st in
      match result st with
      | None => {| returned := None; delivered := seen' |}
      | Some res =>
        if (exitCode res =? 0) || negb (truthyError (error res)) then
          {| returned := Some (Some res); delivered := seen' |}
        else if negb (Retry.shouldRetry toLowerCase
                        (default [] (error res)) (Some cfg)) then
          {| returned := Some (Some res); delivered := seen' |}
        else if Retry.maxAttempts cfg <=? attempt then
          {| returned := Some (Some res); delivered := seen' |}
        else
          retryLoop runAgentFn cfg (withSignal (callerSignal st) options)
                    (attempt + 1) (Some res) seen' later
      end
    end
  else {| returned := Some lastResult; delivered := seen |}.

Definition runOnceOutcome
    (runAgentFn : ExecutorOptions -> list EnvEvent -> RunState)
    (options : ExecutorOptions) (attempts : list (list EnvEvent))
    : AgentRun :=
  match attempts with
  | [] => {| returned := None; delivered := [] |}
  | trace :: _ =>
    let st := runAgentFn options trace in
    {| returned := Some <$> result st; delivered := emitted st |}
  end.

Definition runAgentWithRetry (options : ExecutorOptions)
    (runAgentFn : ExecutorOptions -> list EnvEvent -> RunState)
    (attempts : list (list EnvEvent)) : AgentRun :=
  match retry options with
  | None => runOnceOutcome runAgentFn options attempts
  | Some cfg => retryLoop runAgentFn cfg options 1 None [] attempts
  end.

Definition runAgent (options : ExecutorOptions)
    (attempts : list (list EnvEvent)) : AgentRun :=
  match retry options with
  | Some _ => runAgentWithRetry options runAgentOnce attempts
  | None => runOnceOutcome runAgentOnce options attempts
  end.

End WithLowerCase.

(** *** Specification side: the caps of the progress FIFOs *)

(** A preview is a text of at most 100 code units, or the first 100 code
    units of a longer text followed by an ellipsis. *)
Definition isPreview (s : jsstring) : Prop :=
  (length s <= 100)%nat \/
  exists t, length t = 100%nat /\ s = t ++ js "...".

Definition withinCaps (p : TaskProgress) : Prop :=
  (length (recentTools p) <= 10)%nat /\
  (length (recentOutput p) <= 5)%nat /\
  Forall isPreview (recentOutput p).

(** The invariant of a run: the live progress record and every snapshot
    delivered so far are within the caps. *)
Definition capsInv (st : RunState) : Prop :=
  withinCaps (progress st) /\ Forall withinCaps (emitted st).

(** The only writer of the status ["aborted"] is [killProc], the listener
    of the caller's signal: a result is marked aborted only if that
    signal has fired. *)
Definition abortedByCaller (st : RunState) : Prop :=
  (status (progress st) = StatusAborted ->
   exists reason, callerSignal st = Some (Some reason)) /\
  (forall r, result st = Some r -> r_aborted r = true ->
     exists reason, callerSignal st = Some (Some reason)) /\
  (exit st = None -> result st = None).

(** The memory monitor and the tool-call tracker of a run are idle: no
    interval is installed, no tool call is counted, neither has aborted. *)
Definition guardsIdle (st : RunState) : Prop :=
  (forall m, memoryMonitor st = Some m ->
     intervalId m = false /\ mm_controller m = None) /\
  (forall t, toolCallTracker st = Some t ->
     currentCalls t = 0 /\ tct_controller t = None).


(** *** Specification side: what a trace carries *)

(** The events that settle the promise of the exit code. *)
Definition isClose (ev : EnvEvent) : bool :=
  match ev with
  | ProcError | ProcClose _ _ => true
  | _ => false
  end.

(** The message a line makes [processLine] push on [messages]. *)
Definition lineMessages (line : option PiEvent) : list Message :=
  match line with
  | Some (MessageEnd (Some msg)) => [msg]
  | Some (ToolResultEnd (Some msg)) => [msg]
  | _ => []
  end.

Definition eventMessages (ev : EnvEvent) : list Message :=
  match ev with
  | Stdout line => lineMessages line
  | ProcClose _ rest => lineMessages rest
  | _ => []
  end.

Definition eventStderr (ev : EnvEvent) : jsstring :=
  match ev with
  | Stderr data => data
  | _ => []
  end.

(** An assistant message that reports an API error. *)
Definition isApiError (msg : Message) : bool :=
  match role msg, errorMessage msg with
  | RoleAssistant, Some e => stopReasonIsError msg && truthy e
  | _, _ => false
  end.

(** The sum of the counts of a tool usage summary. *)
Definition usageTotal (usage : gmap jsstring Z) : Z :=
  map_fold (fun _ count total => count + total) 0 usage.


(** The property names an object literal inherits from
    [Object.prototype]: for these [toolUsage[toolName] || 0] is not a
    count, and the map below does not describe [toolUsage]. *)
Definition inheritedKeys : list jsstring :=
  [js "constructor"; js "__proto__"; js "hasOwnProperty";
   js "isPrototypeOf"; js "propertyIsEnumerable"; js "toLocaleString";
   js "toString"; js "valueOf"; js "__defineGetter__";
   js "__defineSetter__"; js "__lookupGetter__"; js "__lookupSetter__"].

(** The tool a line announces. *)
Definition startedTool (ev : EnvEvent) : option jsstring :=
  match ev with
  | Stdout (Some (ToolExecutionStart toolName _)) => toolName
  | ProcClose _ (Some (ToolExecutionStart toolName _)) => toolName
  | _ => None
  end.

(** The event announces no tool named like an inherited property. *)
Definition plainToolName (ev : EnvEvent) : bool :=
  match startedTool ev with
  | Some t => bool_decide (t ∉ inheritedKeys)
  | None => true
  end.

End Executor.

(** ** Concurrency primitives ([parallel.ts]) *)

Module Parallel.

(** A JavaScript number: the finite doubles are rationals. *)
Inductive JsNumber : Type :=
| NaN
| PosInfinity
| NegInfinity
| Finite (q : Q).

(** How a promise settles. *)
Inductive Settled (R E : Type) : Type :=
| Fulfilled (value : R)
| Rejected (reason : E).
Arguments Fulfilled {R E} value.
Arguments Rejected {R E} reason.

(** *** [mapWithConcurrencyLimit] *)

Definition normalizedConcurrency (len : nat) (concurrency : JsNumber) : Z :=
  match concurrency with
  | Finite q => Qfloor q
  | _ => Z.of_nat len
  end.

Definition effectiveConcurrency (len : nat) (concurrency : JsNumber) : Z :=
  if 0 <? normalizedConcurrency len concurrency
  then normalizedConcurrency len concurrency
  else Z.of_nat len.

Definition limit (len : nat) (concurrency : JsNumber) : Z :=
  Z.max 1 (Z.min (effectiveConcurrency len concurrency) (Z.of_nat len)).

(** A [worker()] call: suspended at [await fn(items[index], index)], or
    its promise is fulfilled ([return]) or rejected ([throw error]). *)
Inductive Worker : Type :=
| Awaiting (index : nat)
| Finished
| Threw.

Definition isFinished (w : Worker) : bool :=
  match w with Finished => true | _ => false end.

Record Pool (R E : Type) : Type := {
  results : list (option R);           (* [None] is an empty slot *)
  nextIndex : nat;
  workers : list Worker;
  external : option bool;              (* [signal?.aborted] *)
  internal : bool;                     (* [abortController.signal.aborted] *)
  firstError : option E;               (* rejection of [firstErrorPromise] *)
  calls : list nat                     (* indices [fn] was called with *)
}.
Arguments results {R E} _.
Arguments nextIndex {R E} _.
Arguments workers {R E} _.
Arguments external {R E} _.
Arguments internal {R E} _.
Arguments firstError {R E} _.
Arguments calls {R E} _.

(** What the scheduler of the runtime does next. *)
Inductive PoolEvent : Type :=
| Settle (worker : nat)     (* the promise worker [worker] awaits settles *)
| ExternalAbort.            (* the caller's signal aborts *)

Inductive MapOutcome (R E : Type) : Type :=
| MapPending
| MapReturned (results : list (option R)) (aborted : bool)
| MapThrown (error : E).
Arguments MapPending {R E}.
Arguments MapReturned {R E} results aborted.
Arguments MapThrown {R E} error.

Section MapWithConcurrencyLimit.

Context {T R E : Type}.
Variable items : list T.
(** How the promise of [fn(item, index)] settles. *)
Variable fn : T -> nat -> Settled R E.

(** [workerSignal.aborted] *)
Definition workerSignalAborted (st : Pool R E) : bool :=
  default false (external st) || internal st.

(** The head of the [while (true)] loop, up to the next [await]. *)
Definition claim (st : Pool R E) : Worker * Pool R E :=
  if workerSignalAborted st then (Finished, st)
  else
    let index := nextIndex st in
    if (length items <=? index)%nat then
      (Finished,
       {| results := results st; nextIndex := S index;
          workers := workers st; external := external st;
          internal := internal st; firstError := firstError st;
          calls := calls st |})
    else
      (Awaiting index,
       {| results := results st; nextIndex := S index;
          workers := workers st; external := external st;
          internal := internal st; firstError := firstError st;
          calls := calls st ++ [index] |}).

(** [Array(limit).fill(null).map(() => worker())]: each worker runs
    up to its first [await] before the next one is created. *)
Fixpoint spawnWorkers (n : nat) (st : Pool R E) : Pool R E :=
  match n with
  | O => st
  | S n' =>
    let '(w, st1) := claim st in
    spawnWorkers n'
      {| results := results st1; nextIndex := nextIndex st1;
         workers := workers st1 ++ [w]; external := external st1;
         internal := internal st1; firstError := firstError st1;
         calls := calls st1 |}
  end.

Definition setWorker (w : nat) (state : Worker) (st : Pool R E) : Pool R E :=
  {| results := results st; nextIndex := nextIndex st;
     workers := <[w := state]> (workers st); external := external st;
     internal := internal st; firstError := firstError st;
     calls := calls st |}.

(** The continuation of worker [w] after its [await]. *)
Definition settle (w : nat) (st : Pool R E) : Pool R E :=
  match workers st !! w with
  | Some (Awaiting index) =>
    match items !! index with
    | None => st
    | Some item =>
      match fn item index with
      | Fulfilled value =>
        let st1 :=
          {| results := <[index := Some value]> (results st);
             nextIndex := nextIndex st; workers := workers st;
             external := external st; internal := internal st;
             firstError := firstError st; calls := calls st |} in
        let '(state, st2) := claim st1 in
        setWorker w state st2
      | Rejected error =>
        if workerSignalAborted st then
          let '(state, st2) := claim st in
          setWorker w state st2
        else
          setWorker w Threw
            {| results := results st; nextIndex := nextIndex st;
               workers := workers st; external := external st;
               internal := true;
               firstError := match firstError st with
                             | Some e => Some e
                             | None => Some error
                             end;
               calls := calls st |}
      end
    end
  | _ => st
  end.

Definition poolStep (st : Pool R E) (ev : PoolEvent) : Pool R E :=
  match ev with
  | Settle w => settle w st
  | ExternalAbort =>
    match external st with
    | Some _ =>
      {| results := results st; nextIndex := nextIndex st;
         workers := workers st; external := Some true;
         internal := internal st; firstError := firstError st;
         calls := calls st |}
    | None => st
    end
  end.

(** The pool when the worker promises have been created; [signal] is
    [signal?.aborted] at call time. *)
Definition poolStart (concurrency : JsNumber) (signal : option bool)
    : Pool R E :=
  spawnWorkers (Z.to_nat (limit (length items) concurrency))
    {| results := replicate (length items) None; nextIndex := 0;
       workers := []; external := signal; internal := false;
       firstError := None; calls := [] |}.

Definition poolRun (concurrency : JsNumber) (signal : option bool)
    (schedule : list PoolEvent) : Pool R E :=
  foldl poolStep (poolStart concurrency signal) schedule.

(** [await Promise.race([Promise.all(workers), firstErrorPromise])] and
    what follows it. *)
Definition poolOutcome (st : Pool R E) : MapOutcome R E :=
  match firstError st with
  | Some error =>
    if default false (external st) then MapReturned (results st) true
    else MapThrown error
  | None =>
    if forallb isFinished (workers st)
    then MapReturned (results st) (default false (external st))
    else MapPending
  end.

(** The call, observed when the runtime has played [schedule]. *)
Definition mapWithConcurrencyLimit (concurrency : JsNumber)
    (signal : option bool) (schedule : list PoolEvent) : MapOutcome R E :=
  match items with
  | [] => MapReturned [] false
  | _ => poolOutcome (poolRun concurrency signal schedule)
  end.

(** *** Specification side *)

(** The slot of a call that has settled. *)
Definition settledSlot (s : Settled R E) : option R :=
  match s with
  | Fulfilled value => Some value
  | Rejected _ => None
  end.

(** The invariant of the pool, on the array, the counter, the call log
    and the workers: the array keeps its size; the calls made are those
    of the indices below the counter; a slot not yet claimed is empty;
    an index being awaited is claimed, is awaited by one worker only,
    and its slot is empty; the slot of a claimed index that is no
    longer awaited is the one its call settled to. *)
Definition poolInvOn (res : list (option R)) (next : nat)
    (log : list nat) (ws : list Worker) : Prop :=
  length res = length items /\
  log = seq 0 (Nat.min next (length items)) /\
  (forall i, (next <= i)%nat -> (i < length items)%nat ->
     res !! i = Some None) /\
  (forall w i, ws !! w = Some (Awaiting i) ->
     (i < next)%nat /\ (i < length items)%nat /\ res !! i = Some None) /\
  (forall w1 w2 i, ws !! w1 = Some (Awaiting i) ->
     ws !! w2 = Some (Awaiting i) -> w1 = w2) /\
  (forall i item, items !! i = Some item -> (i < next)%nat ->
     (exists w, ws !! w = Some (Awaiting i)) \/
     res !! i = Some (settledSlot (fn item i))).

Definition poolInv (st : Pool R E) : Prop :=
  poolInvOn (results st) (nextIndex st) (calls st) (workers st).

(** Work left in the pool: the calls in flight and the items not yet
    claimed.  Every settlement of a call makes it smaller. *)
Definition isAwaiting (w : Worker) : bool :=
  match w with Awaiting _ => true | _ => false end.

Definition awaitingCount (ws : list Worker) : nat :=
  length (filter (fun w => isAwaiting w = true) ws).

Definition workLeft (st : Pool R E) : nat :=
  (awaitingCount (workers st) + (length items - nextIndex st))%nat.

(** A worker promise is rejected only after [rejectFirst] was called. *)
Definition threwInv (st : Pool R E) : Prop :=
  Threw ∈ workers st -> firstError st <> None.


(** While neither signal has aborted, no call has been rejected: the
    internal signal is aborted exactly when an error is kept for the
    caller, and as long as the worker signal is not aborted no worker
    has thrown, a worker has returned only when the items were used up,
    and every claimed call is in flight or fulfilled. *)
Definition quietInv (st : Pool R E) : Prop :=
  (internal st = true <-> firstError st <> None) /\
  (workerSignalAborted st = false ->
   (forall w, workers st !! w <> Some Threw) /\
   (forall w, workers st !! w = Some Finished ->
      (length items <= nextIndex st)%nat) /\
   (forall i item, items !! i = Some item -> (i < nextIndex st)%nat ->
      (exists w, workers st !! w = Some (Awaiting i)) \/
      exists value, fn item i = Fulfilled value)).

(** The error kept for the caller is the rejection of a call made. *)
Definition errorInv (st : Pool R E) : Prop :=
  forall error, firstError st = Some error ->
    exists i item,
      items !! i = Some item /\ i ∈ calls st /\ fn item i = Rejected error.

End MapWithConcurrencyLimit.

(** The normalisation as the specification words it: the number of items
    for a concurrency that is not finite or not positive, its floor
    otherwise. *)
Definition claimedNormalized (len : nat) (concurrency : JsNumber) : Z :=
  match concurrency with
  | Finite q => if Qle_bool q 0 then Z.of_nat len else Qfloor q
  | _ => Z.of_nat len
  end.

(** The normalisation as the code has it: the number of items for a
    concurrency that is not finite or below one, its floor otherwise. *)
Definition amendedNormalized (len : nat) (concurrency : JsNumber) : Z :=
  match concurrency with
  | Finite q => if Qle_bool 1 q then Qfloor q else Z.of_nat len
  | _ => Z.of_nat len
  end.

(** *** [raceWithAbort] *)

(** A task: its [id], and how the promise of [run(combinedSignal)]
    settles, given whether the signal is aborted by then. *)
Record RaceTask (T E : Type) : Type := {
  id : jsstring;
  run : bool -> Settled T E
}.
Arguments id {T E} _.
Arguments run {T E} _.

Record Race (T : Type) : Type := {
  settled : list bool;                 (* per task: its promise is settled *)
  winnerFound : bool;
  winnerResult : option (jsstring * T);
  raceInternal : bool;                 (* [abortController.signal.aborted] *)
  parent : option bool                 (* [parentSignal?.aborted] *)
}.
Arguments settled {T} _.
Arguments winnerFound {T} _.
Arguments winnerResult {T} _.
Arguments raceInternal {T} _.
Arguments parent {T} _.

Inductive RaceEvent : Type :=
| TaskSettles (task : nat)
| ParentAbort.

Inductive RaceOutcome (T : Type) : Type :=
| RacePending
| RaceWinner (winner : jsstring) (result : T)
| RaceAborted
| RaceThrown (message : jsstring).
Arguments RacePending {T}.
Arguments RaceWinner {T} winner result.
Arguments RaceAborted {T}.
Arguments RaceThrown {T} message.

Section RaceWithAbort.

Context {T E : Type}.
Variable tasks : list (RaceTask T E).

(** [combinedSignal.aborted] *)
Definition combinedAborted (st : Race T) : bool :=
  default false (parent st) || raceInternal st.

(** The body of the [async (task) => ...] callback after its [await]. *)
Definition taskSettles (i : nat) (st : Race T) : Race T :=
  match settled st !! i, tasks !! i with
  | Some false, Some task =>
    match run task (combinedAborted st) with
    | Fulfilled result =>
      if winnerFound st then
        {| settled := <[i := true]> (settled st);
           winnerFound := winnerFound st; winnerResult := winnerResult st;
           raceInternal := raceInternal st; parent := parent st |}
      else
        {| settled := <[i := true]> (settled st);
           winnerFound := true; winnerResult := Some (id task, result);
           raceInternal := true; parent := parent st |}
    | Rejected _ =>
      {| settled := <[i := true]> (settled st);
         winnerFound := winnerFound st; winnerResult := winnerResult st;
         raceInternal := raceInternal st; parent := parent st |}
    end
  | _, _ => st
  end.

Definition raceStep (st : Race T) (ev : RaceEvent) : Race T :=
  match ev with
  | TaskSettles i => taskSettles i st
  | ParentAbort =>
    match parent st with
    | Some _ =>
      {| settled := settled st; winnerFound := winnerFound st;
         winnerResult := winnerResult st;
         raceInternal := raceInternal st; parent := Some true |}
    | None => st
    end
  end.

Definition raceStart (parentSignal : option bool) : Race T :=
  {| settled := replicate (length tasks) false; winnerFound := false;
     winnerResult := None; raceInternal := false; parent := parentSignal |}.

(** [await Promise.all(promises)] and what follows it. *)
Definition raceOutcome (st : Race T) : RaceOutcome T :=
  if forallb (fun done => done) (settled st) then
    match winnerResult st with
    | Some (winner, result) => RaceWinner winner result
    | None => RaceThrown (js "All race tasks failed")
    end
  else RacePending.

(** The call, observed when the runtime has played [schedule];
    [parentSignal] is [parentSignal?.aborted] at call time. *)
Definition raceWithAbort (parentSignal : option bool)
    (schedule : list RaceEvent) : RaceOutcome T :=
  match tasks with
  | [] => RaceThrown (js "No tasks to race")
  | _ =>
    if default false parentSignal then RaceAborted
    else raceOutcome (foldl raceStep (raceStart parentSignal) schedule)
  end.

(** Specification side: every task rejects, whether or not the signal
    is aborted. *)
Definition allReject : Prop :=
  forall task, task ∈ tasks -> forall signalAborted,
    exists reason, run task signalAborted = Rejected reason.

End RaceWithAbort.


#[global] Instance RaceEvent_eq_dec : EqDecision RaceEvent.
Proof. solve_decision. Defined.

End Parallel.

(** ** Backoff delay ([executor.ts], [calculateBackoff])

    The numbers of the source are doubles.  A finite double is the
    rational it stands for ([isDouble] below says which rationals are
    doubles), and an operation returns the double nearest to its exact
    result, [Infinity] when that is out of range, and [NaN] for
    [0 * Infinity].  The sign of a zero is not kept. *)

Module Backoff.

Import Parallel.

(** The exponent of a positive rational: the [e] with
    [2^e <= q < 2^(e+1)]. *)
Definition floorLog2 (q : Q) : Z :=
  let e := Z.log2 (Qnum q) - Z.log2 (Zpos (Qden q)) in
  if Qle_bool (Qpower (inject_Z 2) e) q then e else e - 1.

(** The integer nearest to [x], the even one of the two when [x] is
    half way between them. *)
Definition roundHalfEven (x : Q) : Z :=
  let below := Qfloor x in
  match Qcompare (Qminus x (inject_Z below)) (Qmake 1 2) with
  | Lt => below
  | Gt => below + 1
  | Eq => if Z.even below then below else below + 1
  end.

(** The double nearest to a positive rational [q]: [q] is rounded to a
    multiple of the unit in the last place of its binade, which is
    [2^(e-52)] for a normal number and [2^(-1074)] below [2^(-1022)];
    from [2^1024] on the result is [Infinity]. *)
Definition roundPositive (q : Q) : JsNumber :=
  let ulp := Qpower (inject_Z 2) (Z.max (floorLog2 q - 52) (-1074)) in
  let nearest := Qmult (inject_Z (roundHalfEven (Qdiv q ulp))) ulp in
  if Qle_bool (Qpower (inject_Z 2) 1024) nearest then PosInfinity
  else Finite nearest.

Definition negate (x : JsNumber) : JsNumber :=
  match x with
  | NaN => NaN
  | PosInfinity => NegInfinity
  | NegInfinity => PosInfinity
  | Finite q => Finite (Qopp q)
  end.

(** The double an exact result is rounded to: round to nearest, ties to
    even. *)
Definition roundDouble (q : Q) : JsNumber :=
  match Qcompare q (inject_Z 0) with
  | Eq => Finite (inject_Z 0)
  | Gt => roundPositive q
  | Lt => negate (roundPositive (Qopp q))
  end.

(** [x * y] on numbers. *)
Definition multiply (x y : JsNumber) : JsNumber :=
  match x, y with
  | NaN, _ | _, NaN => NaN
  | Finite a, Finite b => roundDouble (Qmult a b)
  | Finite a, PosInfinity | PosInfinity, Finite a =>
    match Qcompare a (inject_Z 0) with
    | Eq => NaN
    | Gt => PosInfinity
    | Lt => NegInfinity
    end
  | Finite a, NegInfinity | NegInfinity, Finite a =>
    match Qcompare a (inject_Z 0) with
    | Eq => NaN
    | Gt => NegInfinity
    | Lt => PosInfinity
    end
  | PosInfinity, PosInfinity | NegInfinity, NegInfinity => PosInfinity
  | PosInfinity, NegInfinity | NegInfinity, PosInfinity => NegInfinity
  end.

(** [Math.pow(2, n)] for an integer [n], the double nearest to [2^n]:
    [2^n] itself from [2^(-1074)] to [2^1023], [Infinity] above, and 0
    below. *)
Definition mathPow2 (n : Z) : JsNumber :=
  if 1024 <=? n then PosInfinity
  else if n <=? -1075 then Finite (inject_Z 0)
  else Finite (Qpower (inject_Z 2) n).

(** [Math.min(x, y)] *)
Definition mathMin (x y : JsNumber) : JsNumber :=
  match x, y with
  | NaN, _ | _, NaN => NaN
  | NegInfinity, _ | _, NegInfinity => NegInfinity
  | PosInfinity, z | z, PosInfinity => z
  | Finite a, Finite b => if Qle_bool a b then Finite a else Finite b
  end.

(** [calculateBackoff]:
    [Math.min(baseMs * Math.pow(2, attempt - 1), 60000)].  [attempt] is
    an integer, as the counter of [runAgentWithRetry] is; where
    [attempt - 1] is not exact in doubles, beyond [2^53], the power is
    [Infinity] or 0 for the rounded exponent as for the exact one. *)
Definition calculateBackoff (baseMs : JsNumber) (attempt : Z) : JsNumber :=
  let delay := multiply baseMs (mathPow2 (attempt - 1)) in
  mathMin delay (Finite (inject_Z 60000)).

(** *** Specification side *)

(** The finite doubles among the rationals: [m * 2^k] with a
    significand of at most 53 bits, no exponent below that of the
    subnormal numbers, and below [2^1024]. *)
Definition isDouble (q : Q) : Prop :=
  exists m k : Z,
    Qeq q (Qmult (inject_Z m) (Qpower (inject_Z 2) k)) /\
    Z.abs m < 2 ^ 53 /\ -1074 <= k /\
    Qlt (Qopp (Qpower (inject_Z 2) 1024)) q /\
    Qlt q (Qpower (inject_Z 2) 1024).

Definition isZero (x : JsNumber) : bool :=
  match x with
  | Finite q => Qeq_bool q (inject_Z 0)
  | _ => false
  end.

Definition isInfinite (x : JsNumber) : bool :=
  match x with
  | PosInfinity | NegInfinity => true
  | _ => false
  end.

(** The delay in exact arithmetic: [baseMs * 2^(attempt-1)], and 60000
    when that is more. *)
Definition cappedDoubling (baseMs : Q) (attempt : Z) : Q :=
  let delay := Qmult baseMs (Qpower (inject_Z 2) (attempt - 1)) in
  if Qle_bool delay (inject_Z 60000) then delay else inject_Z 60000.

End Backoff.

(** ** Agent resolver ([agents.ts]) *)

Module Agents.

(** [thinking?: number | string] *)
Inductive Thinking : Type :=
| ThinkingBudget (tokens : Z)
| ThinkingLevel (label : string).

Inductive Source : Type := User | Project.

Record AgentConfig : Type := {
  name : string;
  description : string;
  tools : option (list string);
  model : option string;
  systemPrompt : string;
  thinking : option Thinking;
  source : Source;
  filePath : string;
  extends : option string;
  resolvedTools : option (list string);
  resolvedModel : option string;
  resolvedThinking : option Thinking
}.

(** Truthiness of an optional string: present and not empty. *)
Definition truthyString (s : option string) : bool :=
  match s with
  | Some s' => negb (String.eqb s' "")
  | None => false
  end.

(** Truthiness of an optional [number | string]. *)
Definition truthyThinking (t : option Thinking) : bool :=
  match t with
  | Some (ThinkingBudget n) => negb (n =? 0)
  | Some (ThinkingLevel l) => negb (String.eqb l "")
  | None => false
  end.

(** [a || b] on optional strings. *)
Definition orString (a b : option string) : option string :=
  if truthyString a then a else b.

(** [[...new Set(list)]]: a [Set] keeps the first occurrence of a value,
    in insertion order. *)
Definition setAdd (seen : list string) (x : string) : list string :=
  if decide (x ∈ seen) then seen else seen ++ [x].

Definition newSet (l : list string) : list string := foldl setAdd [] l.

Definition setResolved (rt : option (list string)) (rm : option string)
    (rth : option Thinking) (a : AgentConfig) : AgentConfig :=
  {| name := name a; description := description a; tools := tools a;
     model := model a; systemPrompt := systemPrompt a;
     thinking := thinking a; source := source a; filePath := filePath a;
     extends := extends a; resolvedTools := rt; resolvedModel := rm;
     resolvedThinking := rth |}.

(** The assignments of the [if (baseAgent)] block. *)
Definition inherit (baseAgent agent : AgentConfig) : AgentConfig :=
  let baseTools :=
    match resolvedTools baseAgent with
    | Some ts => ts
    | None => default [] (tools baseAgent)
    end in
  let childTools := default [] (tools agent) in
  let combinedTools := newSet (baseTools ++ childTools) in
  setResolved
    (match combinedTools with
     | [] => resolvedTools agent
     | _ => Some combinedTools
     end)
    (orString (model agent)
              (orString (resolvedModel baseAgent) (model baseAgent)))
    (if truthyThinking (thinking agent) then resolvedThinking agent
     else match resolvedThinking baseAgent with
          | Some t => Some t
          | None => thinking baseAgent
          end)
    agent.

(** The assignments of the [else] block, for an agent without base. *)
Definition copyOwn (agent : AgentConfig) : AgentConfig :=
  setResolved
    (match tools agent with
     | Some ((_ :: _) as ts) => Some ts
     | _ => resolvedTools agent
     end)
    (if truthyString (model agent) then model agent else resolvedModel agent)
    (if truthyThinking (thinking agent) then thinking agent
     else resolvedThinking agent)
    agent.

Inductive ResolveError : Type :=
| CircularInheritance (path : list string) (agentName : string)
| BaseAgentNotFound (agentName : string)
| CircularInvolving (agentName : string).

Inductive Res (A : Type) : Type :=
| Ok (a : A)
| Throw (e : ResolveError)
| OutOfFuel.
Arguments Ok {A} a.
Arguments Throw {A} e.
Arguments OutOfFuel {A}.

(** The agent objects live in the array [agents]; [agentMap] refers to
    them by position, so that an update through the map is seen in the
    array that is returned. *)
Record Resolver : Type := {
  agents : list AgentConfig;
  agentMap : gmap string nat;
  visited : gset string;
  resolved : gset string
}.

Definition agentMapGet (agentName : string) (st : Resolver)
    : option (nat * AgentConfig) :=
  i ← agentMap st !! agentName;
  a ← agents st !! i;
  Some (i, a).

(** [resolve(agentName, path)]; one unit of fuel per nested call. *)
Fixpoint resolve (fuel : nat) (agentName : string) (path : list string)
    (st : Resolver) : Res Resolver :=
  match fuel with
  | O => OutOfFuel
  | S fuel' =>
    if decide (agentName ∈ path) then Throw (CircularInheritance path agentName)
    else
      match agentMapGet agentName st with
      | None => Throw (BaseAgentNotFound agentName)
      | Some (i, agent) =>
        if decide (agentName ∈ resolved st) then Ok st
        else if decide (agentName ∈ visited st)
        then Throw (CircularInvolving agentName)
        else
          let st1 :=
            {| agents := agents st; agentMap := agentMap st;
               visited := {[agentName]} ∪ visited st;
               resolved := resolved st |} in
          let finish (st2 : Resolver) (agent' : AgentConfig) : Resolver :=
            {| agents := <[i := agent']> (agents st2);
               agentMap := agentMap st2;
               visited := visited st2 ∖ {[agentName]};
               resolved := {[agentName]} ∪ resolved st2 |} in
          if truthyString (extends agent) then
            let base := default "" (extends agent) in
            match resolve fuel' base (path ++ [agentName]) st1 with
            | Ok st2 =>
              match agentMapGet base st2, agents st2 !! i with
              | Some (_, baseAgent), Some agentNow =>
                Ok (finish st2 (inherit baseAgent agentNow))
              | _, Some agentNow => Ok (finish st2 agentNow)
              | _, None => Ok st2
              end
            | other => other
            end
          else Ok (finish st1 (copyOwn agent))
      end
  end.

(** [for (const agent of agents) agentMap.set(agent.name, agent)] *)
Definition buildAgentMap (l : list AgentConfig) : gmap string nat :=
  foldl (fun m '(i, a) => <[name a := i]> m) ∅ (imap (fun i a => (i, a)) l).

(** [for (const agent of agents) if (!resolved.has(agent.name)) resolve(agent.name)] *)
Fixpoint resolveAll (fuel : nat) (names : list string) (st : Resolver)
    : Res Resolver :=
  match names with
  | [] => Ok st
  | n :: rest =>
    if decide (n ∈ resolved st) then resolveAll fuel rest st
    else match resolve fuel n [] st with
         | Ok st' => resolveAll fuel rest st'
         | other => other
         end
  end.

Definition resolveAgentInheritanceFuel (fuel : nat) (l : list AgentConfig)
    : Res (list AgentConfig) :=
  match resolveAll fuel (name <$> l)
          {| agents := l; agentMap := buildAgentMap l;
             visited := ∅; resolved := ∅ |} with
  | Ok st => Ok (agents st)
  | Throw e => Throw e
  | OutOfFuel => OutOfFuel
  end.

(** A chain of nested calls names distinct agents of the list, so its
    depth is at most the length of the list. *)
Definition resolveAgentInheritance (l : list AgentConfig)
    : Res (list AgentConfig) :=
  resolveAgentInheritanceFuel (S (length l)) l.

(** [findAgent] *)
Definition findAgent (l : list AgentConfig) (n : string)
    : option AgentConfig :=
  list_find (fun a => name a = n) l ≫= fun '(_, a) => Some a.

(** *** Specification side *)

(** What resolution makes of the agent [a] of the list, in the state [st]:
    an agent that extends a base inherits from the base as it stands in
    [st], resolved; any other agent copies its own fields. *)
Definition finalOf (st : Resolver) (a a' : AgentConfig) : Prop :=
  if truthyString (extends a) then
    exists j baseAgent,
      agentMap st !! default "" (extends a) = Some j /\
      agents st !! j = Some baseAgent /\
      default "" (extends a) ∈ resolved st /\
      a' = inherit baseAgent a
  else a' = copyOwn a.

(** The invariant of [resolveAgentInheritance] on the list [l]: the map
    is the one built from [l]; the array keeps its size; every resolved name
    is the name of an agent; an agent that is not resolved is as in [l], and
    a resolved one is what [finalOf] says. *)
Definition resolverInv (l : list AgentConfig) (st : Resolver) : Prop :=
  agentMap st = buildAgentMap l /\
  length (agents st) = length l /\
  (forall n, n ∈ resolved st -> exists i a, l !! i = Some a /\ name a = n) /\
  (forall i a, l !! i = Some a ->
     exists a', agents st !! i = Some a' /\
       (name a ∉ resolved st -> a' = a) /\
       (name a ∈ resolved st -> finalOf st a a')).


(** [baseAgent.resolvedTools || baseAgent.tools || []]: an array is
    truthy also when it is empty. *)
Definition effectiveTools (a : AgentConfig) : list string :=
  match resolvedTools a with
  | Some ts => ts
  | None => default [] (tools a)
  end.

(** [b] is the agent of [l] that [a] extends. *)
Definition extendsIn (l : list AgentConfig) (a b : AgentConfig) : Prop :=
  a ∈ l /\ b ∈ l /\ truthyString (extends a) = true /\
  default "" (extends a) = name b.

(** The resolved agents are ranked: a resolved agent that extends a base
    has a resolved base, of lower rank. *)
Definition rankedInv (l : list AgentConfig) (st : Resolver) : Prop :=
  exists rank : string -> nat,
    forall a, a ∈ l -> name a ∈ resolved st ->
      truthyString (extends a) = true ->
      default "" (extends a) ∈ resolved st /\
      (rank (default "" (extends a)) < rank (name a))%nat.

(** *** [formatAgentList] *)

Definition sourceName (s : Source) : string :=
  match s with
  | User => "user"
  | Project => "project"
  end.

(** [array.slice(0, end)] for an integer [end]: a negative [end] counts
    from the end of the array. *)
Definition sliceFromStart {A : Type} (array : list A) (finish : Z) : list A :=
  if finish <? 0
  then take (Z.to_nat (Z.max (Z.of_nat (length array) + finish) 0)) array
  else take (Z.to_nat finish) array.

(** [parts.join(separator)] *)
Fixpoint join (separator : string) (parts : list string) : string :=
  match parts with
  | [] => ""
  | [part] => part
  | part :: rest => part +:+ separator +:+ join separator rest
  end.

(** The template [`${a.name} (${a.source}): ${a.description}`]. *)
Definition formatAgent (a : AgentConfig) : string :=
  name a +:+ " (" +:+ sourceName (source a) +:+ "): " +:+ description a.

(** [formatAgentList], for an integer [maxItems]: the text and the
    number of agents left out. *)
Definition formatAgentList (agents : list AgentConfig) (maxItems : Z)
    : string * Z :=
  match agents with
  | [] => ("none", 0)
  | _ =>
    let listed := sliceFromStart agents maxItems in
    (join "; " (formatAgent <$> listed),
     Z.of_nat (length agents) - Z.of_nat (length listed))
  end.


(** *** [discoverAgents] *)

Inductive AgentScope : Type :=
| ScopeUser
| ScopeProject
| ScopeBoth.

(** [agentMap.set(key, value)]: a [Map] keeps a key where it was first
    inserted, and a later [set] replaces the value in place. *)
Fixpoint mapSet (m : list (string * AgentConfig)) (key : string)
    (value : AgentConfig) : list (string * AgentConfig) :=
  match m with
  | [] => [(key, value)]
  | (k, v) :: rest =>
    if decide (k = key) then (key, value) :: rest
    else (k, v) :: mapSet rest key value
  end.

(** [for (const agent of agents) agentMap.set(agent.name, agent)] *)
Definition setAll (m : list (string * AgentConfig))
    (l : list AgentConfig) : list (string * AgentConfig) :=
  foldl (fun m agent => mapSet m (name agent) agent) m l.

(** The lists [userAgents] and [projectAgents]: [userLoaded] is what
    [loadAgentsFromDir(userDir, "user")] returns, [projectAgentsDir] what
    [findNearestProjectAgentsDir(cwd)] returns and [projectLoaded] what
    [loadAgentsFromDir(projectAgentsDir, "project")] returns. *)
Definition userAgents (userLoaded : list AgentConfig) (scope : AgentScope)
    : list AgentConfig :=
  match scope with
  | ScopeProject => []
  | _ => userLoaded
  end.

Definition projectAgents (projectLoaded : list AgentConfig)
    (projectAgentsDir : option string) (scope : AgentScope)
    : list AgentConfig :=
  match scope with
  | ScopeUser => []
  | _ => if truthyString projectAgentsDir then projectLoaded else []
  end.

(** [Array.from(agentMap.values())] *)
Definition allAgents (userLoaded projectLoaded : list AgentConfig)
    (projectAgentsDir : option string) (scope : AgentScope)
    : list AgentConfig :=
  let agentMap :=
    match scope with
    | ScopeBoth =>
      setAll (setAll [] (userAgents userLoaded scope))
             (projectAgents projectLoaded projectAgentsDir scope)
    | ScopeUser => setAll [] (userAgents userLoaded scope)
    | ScopeProject =>
      setAll [] (projectAgents projectLoaded projectAgentsDir scope)
    end in
  agentMap.*2.

Definition discoverAgents (userLoaded projectLoaded : list AgentConfig)
    (projectAgentsDir : option string) (scope : AgentScope)
    : Res (list AgentConfig * option string) :=
  match resolveAgentInheritance
          (allAgents userLoaded projectLoaded projectAgentsDir scope) with
  | Ok resolvedAgents => Ok (resolvedAgents, projectAgentsDir)
  | Throw e => Throw e
  | OutOfFuel => OutOfFuel
  end.

End Agents.

(* ===================================================================== *)
(** * Properties *)
(* ===================================================================== *)

Section JsStringFacts.

Lemma startsWith_spec (s p : jsstring) :
  startsWith s p = true <-> exists post, s = p ++ post.
Proof.
  revert s. induction p as [|x p IH]; intros s; simpl.
  - split; [intros _; exists s; reflexivity | reflexivity].
  - destruct s as [|y s].
    + split; [discriminate | intros [post H]; discriminate].
    + rewrite andb_true_iff, N.eqb_eq, IH. split.
      * intros [-> [post ->]]. exists post. reflexivity.
      * intros [post H]. injection H as -> ->. eauto.
Qed.

Lemma includes_spec (s p : jsstring) :
  includes s p = true <-> exists pre post, s = pre ++ p ++ post.
Proof.
  induction s as [|c s IH]; simpl.
  - rewrite orb_false_r, startsWith_spec. split.
    + intros [post H]. exists [], post. exact H.
    + intros [pre [post H]]. destruct pre; [eauto | discriminate].
  - rewrite orb_true_iff, startsWith_spec, IH. split.
    + intros [[post H] | [pre [post H]]].
      * exists [], post. exact H.
      * exists (c :: pre), post. simpl. congruence.
    + intros [pre [post H]]. destruct pre as [|d pre].
      * left. eauto.
      * right. injection H as _ H. eauto.
Qed.

End JsStringFacts.

(** ** Retry policy *)

Section RetryFacts.

Import Retry.

Variable toLowerCase : jsstring -> jsstring.

Lemma matchesAny_spec (error : jsstring) (patterns : list jsstring) :
  matchesAny toLowerCase error patterns = true <->
  exists p, p ∈ patterns /\ occursIgnoringCase toLowerCase p error.
Proof.
  unfold matchesAny, occursIgnoringCase. rewrite existsb_exists. split.
  - intros (p & Hin & Hp). exists p. split.
    + apply list_elem_of_In, Hin.
    + apply includes_spec, Hp.
  - intros (p & Hin & Hp). exists p. split.
    + apply list_elem_of_In, Hin.
    + apply includes_spec, Hp.
Qed.

Lemma matchesAny_false (error : jsstring) (patterns : list jsstring) :
  (forall p, p ∈ patterns -> ~ occursIgnoringCase toLowerCase p error) ->
  matchesAny toLowerCase error patterns = false.
Proof.
  intros H. destruct (matchesAny toLowerCase error patterns) eqn:Hm; [|done].
  apply matchesAny_spec in Hm as (p & Hin & Hp). destruct (H p Hin Hp).
Qed.

(** C6.  [shouldRetry(e, cfg)] is false without a configuration; false as
    soon as one [skipOn] pattern occurs in [e] (letter case ignored),
    whatever [retryOn] holds; true when no [skipOn] pattern occurs and
    [retryOn] is absent or empty; and otherwise true exactly when one
    [retryOn] pattern occurs in [e]. *)
Theorem shouldRetry_spec (e : jsstring) (cfg : option RetryConfig) :
  (cfg = None -> shouldRetry toLowerCase e cfg = false) /\
  (forall r p, cfg = Some r -> p ∈ default [] (skipOn r) ->
     occursIgnoringCase toLowerCase p e ->
     shouldRetry toLowerCase e cfg = false) /\
  (forall r, cfg = Some r ->
     (forall p, p ∈ default [] (skipOn r) ->
        ~ occursIgnoringCase toLowerCase p e) ->
     retryOn r = None \/ retryOn r = Some [] ->
     shouldRetry toLowerCase e cfg = true) /\
  (forall r pats, cfg = Some r ->
     (forall p, p ∈ default [] (skipOn r) ->
        ~ occursIgnoringCase toLowerCase p e) ->
     retryOn r = Some pats -> pats <> [] ->
     (shouldRetry toLowerCase e cfg = true <->
      exists p, p ∈ pats /\ occursIgnoringCase toLowerCase p e)).
Proof.
  split; [intros ->; reflexivity|].
  split; [|split].
  - intros r p -> Hin Hocc. unfold shouldRetry.
    destruct (skipOn r) as [[|q qs]|]; simpl in Hin;
      try (apply elem_of_nil in Hin; destruct Hin).
    assert (Hm : matchesAny toLowerCase e (q :: qs) = true)
      by (apply matchesAny_spec; eauto).
    rewrite Hm. reflexivity.
  - intros r -> Hskip Hretry. unfold shouldRetry.
    assert (Hs : match skipOn r with
                 | Some ((_ :: _) as pats) => matchesAny toLowerCase e pats
                 | _ => false
                 end = false).
    { destruct (skipOn r) as [[|q qs]|]; try reflexivity.
      apply matchesAny_false. exact Hskip. }
    rewrite Hs. destruct Hretry as [-> | ->]; reflexivity.
  - intros r pats -> Hskip Hretry Hne. unfold shouldRetry.
    assert (Hs : match skipOn r with
                 | Some ((_ :: _) as pats) => matchesAny toLowerCase e pats
                 | _ => false
                 end = false).
    { destruct (skipOn r) as [[|q qs]|]; try reflexivity.
      apply matchesAny_false. exact Hskip. }
    rewrite Hs, Hretry. destruct pats as [|q qs]; [done|].
    apply matchesAny_spec.
Qed.

End RetryFacts.

(** Scenario S2 of the specification: ["fatal error"] is skipped although
    ["error"] is a retry pattern. *)
Lemma shouldRetry_spec_witness :
  Retry.shouldRetry asciiLower (js "Fatal error: cannot recover")
    (Some {| Retry.maxAttempts := 3; Retry.backoffMs := 10;
             Retry.retryOn := Some [js "error"];
             Retry.skipOn := Some [js "fatal error"] |}) = false.
Proof.
  refine (proj1 (proj2 (shouldRetry_spec asciiLower _ _)) _ (js "fatal error")
            eq_refl _ _).
  - simpl. apply list_elem_of_In. left. reflexivity.
  - exists [], (js ": cannot recover"). vm_compute. reflexivity.
Defined.
(** ** Output truncation *)

Section TruncationFacts.

Import Executor.

Lemma byteLength_bound_aux (n : nat) (s : jsstring) :
  (length s <= n)%nat -> 0 <= byteLength s <= 3 * Z.of_nat (length s).
Proof.
  revert s. induction n as [|n IH]; intros s Hn.
  - destruct s; simpl in *; lia.
  - destruct s as [|c s]; [simpl; lia|].
    assert (Hs : 0 <= byteLength s <= 3 * Z.of_nat (length s))
      by (apply IH; simpl in Hn; lia).
    cbn [byteLength length].
    destruct (c <? 128)%N; [lia|].
    destruct (c <? 2048)%N; [lia|].
    destruct (isHighSurrogate c); [|lia].
    destruct s as [|d s]; [simpl; lia|].
    destruct (isLowSurrogate d); [|lia].
    assert (0 <= byteLength s <= 3 * Z.of_nat (length s))
      by (apply IH; simpl in Hn; lia).
    cbn [length]. lia.
Qed.

Lemma byteLength_bound (s : jsstring) :
  0 <= byteLength s <= 3 * Z.of_nat (length s).
Proof. apply (byteLength_bound_aux (length s)). lia. Qed.

Lemma secondHalf_length (s : jsstring) :
  length (secondHalf s) = (length s - length s / 2)%nat.
Proof. unfold secondHalf. apply length_drop. Qed.

Lemma secondHalf_shorter (s : jsstring) :
  (2 <= length s)%nat -> (length (secondHalf s) < length s)%nat.
Proof.
  intros H. rewrite secondHalf_length.
  assert (0 < length s / 2)%nat by (apply Nat.div_str_pos; lia).
  lia.
Qed.

(** With a byte budget of at least three, the loop ends within [length s]
    iterations: a string of one code unit has at most three bytes. *)
Lemma halveLoop_total (fuel : nat) (maxBytes : Z) (s : jsstring) :
  3 <= maxBytes -> (length s <= fuel)%nat ->
  exists r, halveLoop fuel maxBytes s = Some r.
Proof.
  intros Hmax. revert s. induction fuel as [|fuel IH]; intros s Hlen.
  - destruct s; [|simpl in Hlen; lia]. simpl.
    replace (maxBytes <? 0) with false by lia. eauto.
  - cbn [halveLoop].
    destruct ((maxBytes <? byteLength s) && (0 <? length s)%nat) eqn:Hc;
      [|eauto].
    apply andb_true_iff in Hc as [Hb _]. apply Z.ltb_lt in Hb.
    pose proof (byteLength_bound s).
    apply IH. pose proof (secondHalf_shorter s). lia.
Qed.

Lemma halveLoop_result (fuel : nat) (maxBytes : Z) (s r : jsstring) :
  halveLoop fuel maxBytes s = Some r ->
  (exists k, r = drop k s) /\ (maxBytes < byteLength r -> r = []).
Proof.
  revert s. induction fuel as [|fuel IH]; intros s; cbn [halveLoop];
    destruct ((maxBytes <? byteLength s) && (0 <? length s)%nat) eqn:Hc;
    try discriminate.
  - intros [= <-]. split; [exists 0%nat; reflexivity|].
    intros Hb. apply andb_false_iff in Hc as [Hc|Hc].
    + apply Z.ltb_ge in Hc. lia.
    + apply Nat.ltb_ge in Hc. destruct s; [done|simpl in Hc; lia].
  - intros H. apply IH in H as [[k ->] Hr]. split; [|exact Hr].
    unfold secondHalf. rewrite drop_drop. eauto.
  - intros [= <-]. split; [exists 0%nat; reflexivity|].
    intros Hb. apply andb_false_iff in Hc as [Hc|Hc].
    + apply Z.ltb_ge in Hc. lia.
    + apply Nat.ltb_ge in Hc. destruct s; [done|simpl in Hc; lia].
Qed.

Lemma splitLines_nonempty (s : jsstring) : splitLines s <> [].
Proof.
  destruct s as [|c s]; simpl; [done|].
  destruct (c =? 10)%N; [done|]. destruct (splitLines s); done.
Qed.

Lemma joinLines_cons (l : jsstring) (ls : list jsstring) :
  ls <> [] -> joinLines (l :: ls) = l ++ 10%N :: joinLines ls.
Proof. destruct ls; [done|reflexivity]. Qed.

Lemma joinLines_splitLines (s : jsstring) : joinLines (splitLines s) = s.
Proof.
  induction s as [|c s IH]; [reflexivity|]. cbn [splitLines].
  destruct (c =? 10)%N eqn:Hc.
  - apply N.eqb_eq in Hc as ->.
    rewrite joinLines_cons by apply splitLines_nonempty.
    simpl. by rewrite IH.
  - pose proof (splitLines_nonempty s) as Hne.
    destruct (splitLines s) as [|l ls]; [done|].
    destruct ls as [|l2 ls].
    + simpl in *. by rewrite IH.
    + rewrite joinLines_cons by done. rewrite joinLines_cons in IH by done.
      rewrite <- IH. reflexivity.
Qed.

Lemma splitLines_length_cons (c : N) (s : jsstring) :
  (length (splitLines s) <= length (splitLines (c :: s)))%nat.
Proof.
  cbn [splitLines]. destruct (c =? 10)%N; [simpl; lia|].
  destruct (splitLines s); simpl; lia.
Qed.

Lemma splitLines_length_drop (k : nat) (s : jsstring) :
  (length (splitLines (drop k s)) <= length (splitLines s))%nat.
Proof.
  revert s. induction k as [|k IH]; intros s; [by rewrite drop_0|].
  destruct s as [|c s]; [done|]. cbn [drop].
  pose proof (IH s). pose proof (splitLines_length_cons c s). lia.
Qed.

Lemma splitLines_noLF (s : jsstring) :
  Forall (fun l => 10%N ∉ l) (splitLines s).
Proof.
  induction s as [|c s IH]; cbn [splitLines].
  - constructor; [apply not_elem_of_nil|constructor].
  - destruct (c =? 10)%N eqn:Hc.
    + constructor; [apply not_elem_of_nil|exact IH].
    + apply N.eqb_neq in Hc.
      destruct (splitLines s) as [|l ls]; constructor.
      * intros [E|H]%elem_of_cons; [congruence|]. by apply elem_of_nil in H.
      * constructor.
      * inversion IH; subst. intros [E|H]%elem_of_cons; [congruence|done].
      * by inversion IH.
Qed.

Lemma splitLines_app_LF (l t : jsstring) :
  10%N ∉ l -> splitLines (l ++ 10%N :: t) = l :: splitLines t.
Proof.
  induction l as [|c l IH]; intros Hl; [reflexivity|].
  cbn [app splitLines].
  destruct (c =? 10)%N eqn:Hc.
  - apply N.eqb_eq in Hc as ->. destruct Hl. left.
  - rewrite IH; [reflexivity|]. intros H. apply Hl. by right.
Qed.

Lemma splitLines_single (l : jsstring) : 10%N ∉ l -> splitLines l = [l].
Proof.
  induction l as [|c l IH]; intros Hl; [reflexivity|].
  cbn [splitLines].
  destruct (c =? 10)%N eqn:Hc.
  - apply N.eqb_eq in Hc as ->. destruct Hl. left.
  - rewrite IH; [reflexivity|]. intros H. apply Hl. by right.
Qed.

Lemma splitLines_joinLines (ls : list jsstring) :
  ls <> [] -> Forall (fun l => 10%N ∉ l) ls ->
  splitLines (joinLines ls) = ls.
Proof.
  induction ls as [|l ls IH]; [done|]. intros _ Hall.
  inversion Hall as [|? ? Hl Hls]; subst.
  destruct ls as [|l2 ls].
  - simpl. by apply splitLines_single.
  - rewrite joinLines_cons by done. rewrite splitLines_app_LF by done.
    by rewrite IH.
Qed.

(** A string that already fits both limits is returned as it is. *)
Lemma truncateOutputWith_fits (out : jsstring) (maxBytes maxLines : Z) :
  Z.of_nat (length (splitLines out)) <= maxLines ->
  (maxBytes < byteLength out -> out = []) ->
  exists flag, truncateOutputWith out maxBytes maxLines = Some (out, flag) /\
               (0 <= maxBytes -> flag = false).
Proof.
  intros Hlines Hbytes. unfold truncateOutputWith, truncateLines.
  replace (maxLines <? Z.of_nat (length (splitLines out))) with false by lia.
  rewrite joinLines_splitLines. unfold truncateBytes.
  destruct (maxBytes <? byteLength out) eqn:Hb.
  - apply Z.ltb_lt in Hb. assert (out = []) as -> by auto. simpl.
    rewrite andb_false_r. eexists. split; [reflexivity|].
    simpl in Hb. intros. lia.
  - eauto.
Qed.

Lemma truncateBytes_result (maxBytes : Z) (s out : jsstring) (t flag : bool) :
  truncateBytes maxBytes s t = Some (out, flag) ->
  (exists k, out = drop k s) /\ (maxBytes < byteLength out -> out = []) /\
  (t = true -> flag = true).
Proof.
  unfold truncateBytes. destruct (maxBytes <? byteLength s) eqn:Hb.
  - destruct (halveLoop (length s) maxBytes s) as [r|] eqn:Hl; [|done].
    intros [= <- <-]. apply halveLoop_result in Hl as [Hk Hr]. done.
  - intros [= <- <-]. apply Z.ltb_ge in Hb.
    split; [exists 0%nat; reflexivity|]. split; [lia|done].
Qed.

(** Truncating a truncated output changes nothing, for any limits. *)
Lemma truncateOutputWith_idempotent
    (s out : jsstring) (flag : bool) (maxBytes maxLines : Z) :
  truncateOutputWith s maxBytes maxLines = Some (out, flag) ->
  exists flag', truncateOutputWith out maxBytes maxLines = Some (out, flag') /\
                (0 <= maxBytes -> 1 <= maxLines -> flag' = false).
Proof.
  unfold truncateOutputWith at 1.
  destruct (truncateLines maxLines (splitLines s)) as [lines t] eqn:Hl.
  intros Hb. apply truncateBytes_result in Hb as ([k ->] & Hfit & _).
  destruct (Z.le_gt_cases maxLines 0) as [Hle|Hgt].
  - (* every line is dropped *)
    pose proof (splitLines_nonempty s) as Hne.
    unfold truncateLines in Hl.
    assert (Hn : (0 < length (splitLines s))%nat)
      by (destruct (splitLines s); [done|simpl; lia]).
    replace (maxLines <? Z.of_nat (length (splitLines s))) with true in Hl
      by lia.
    injection Hl as <- <-.
    rewrite (drop_ge (splitLines s)) by lia. cbn [joinLines].
    rewrite drop_nil. unfold truncateOutputWith, truncateLines.
    cbn [splitLines length].
    assert (Hc : (maxLines <? Z.of_nat 1) = true) by (apply Z.ltb_lt; lia).
    rewrite Hc.
    rewrite drop_ge by (simpl; lia). unfold truncateBytes. cbn.
    destruct (maxBytes <? 0); cbn; eexists;
      (split; [reflexivity|intros; lia]).
  - assert (Hlines : Z.of_nat (length (splitLines (joinLines lines)))
                     <= maxLines).
    { unfold truncateLines in Hl.
      destruct (maxLines <? Z.of_nat (length (splitLines s))) eqn:Hc;
        injection Hl as <- <-.
      - apply Z.ltb_lt in Hc.
        rewrite splitLines_joinLines.
        + rewrite length_drop. lia.
        + intros Hd. apply (f_equal length) in Hd.
          rewrite length_drop in Hd. simpl in Hd. lia.
        + apply Forall_drop, splitLines_noLF.
      - apply Z.ltb_ge in Hc. by rewrite joinLines_splitLines. }
    destruct (truncateOutputWith_fits (drop k (joinLines lines))
                maxBytes maxLines) as (flag' & Heq & Hflag).
    + pose proof (splitLines_length_drop k (joinLines lines)). lia.
    + exact Hfit.
    + exists flag'. split; [exact Heq|]. intros; by apply Hflag.
Qed.

(** With the default limits the loop always ends. *)
Lemma truncateOutput_total (s : jsstring) :
  exists out flag, truncateOutput s = Some (out, flag).
Proof.
  unfold truncateOutput, truncateOutputWith.
  destruct (truncateLines MAX_OUTPUT_LINES (splitLines s)) as [lines t].
  unfold truncateBytes.
  destruct (MAX_OUTPUT_BYTES <? byteLength (joinLines lines)); [|eauto].
  destruct (halveLoop_total (length (joinLines lines)) MAX_OUTPUT_BYTES
              (joinLines lines)) as [r Hr]; [done|lia|].
  rewrite Hr. eauto.
Qed.

(** C8.  Output truncation is idempotent: [truncateOutput] returns for
    every input, and applied to its own output it returns that output
    again, reporting no further truncation.  The flag is monotone: once
    the line stage has set it, the byte stage leaves it set. *)
Theorem truncateOutput_idempotent (s : jsstring) :
  exists out flag,
    truncateOutput s = Some (out, flag) /\
    truncateOutput out = Some (out, false) /\
    (snd (truncateLines MAX_OUTPUT_LINES (splitLines s)) = true ->
     flag = true).
Proof.
  destruct (truncateOutput_total s) as (out & flag & Hs).
  exists out, flag. split; [exact Hs|]. split.
  - destruct (truncateOutputWith_idempotent _ _ _ _ _ Hs)
      as (flag' & Heq & Hflag).
    rewrite (Hflag ltac:(done) ltac:(done)) in Heq. exact Heq.
  - unfold truncateOutput, truncateOutputWith in Hs.
    destruct (truncateLines MAX_OUTPUT_LINES (splitLines s)) as [lines t].
    apply truncateBytes_result in Hs as (_ & _ & Ht). exact Ht.
Qed.

End TruncationFacts.
(** ** Progress snapshots *)

Section ProgressFacts.

Import Executor.

Lemma pushShift_length {A : Type} (cap : nat) (x : A) (l : list A) :
  (length l <= cap)%nat -> (length (pushShift cap x l) <= cap)%nat.
Proof.
  intros H. unfold pushShift.
  destruct (cap <? length (l ++ [x]))%nat eqn:Hc.
  - rewrite length_drop, length_app. simpl. lia.
  - apply Nat.ltb_ge in Hc. exact Hc.
Qed.

Lemma pushShift_Forall {A : Type} (P : A -> Prop) (cap : nat) (x : A)
    (l : list A) :
  Forall P l -> P x -> Forall P (pushShift cap x l).
Proof.
  intros Hl Hx. unfold pushShift.
  assert (Forall P (l ++ [x])) by (apply Forall_app; auto).
  destruct (cap <? length (l ++ [x]))%nat; [by apply Forall_drop|done].
Qed.

(** On overflow the oldest entry leaves: a full FIFO loses its head, any
    other one only grows. *)
Lemma pushShift_fifo {A : Type} (cap : nat) (x : A) (l : list A) :
  (0 < cap)%nat ->
  ((length l < cap)%nat -> pushShift cap x l = l ++ [x]) /\
  (length l = cap -> pushShift cap x l = drop 1 l ++ [x]).
Proof.
  intros Hcap. unfold pushShift. rewrite length_app. simpl. split; intros H.
  - replace (cap <? length l + 1)%nat with false; [done|].
    symmetry. apply Nat.ltb_ge. lia.
  - replace (cap <? length l + 1)%nat with true
      by (symmetry; apply Nat.ltb_lt; lia).
    destruct l; [simpl in H; lia|reflexivity].
Qed.

Lemma preview_isPreview (text : jsstring) : isPreview (preview text).
Proof.
  unfold preview, isPreview.
  destruct (100 <? length text)%nat eqn:Hc.
  - right. exists (take 100 text). split; [|done].
    apply Nat.ltb_lt in Hc. rewrite length_take. lia.
  - left. by apply Nat.ltb_ge in Hc.
Qed.

Lemma isPreview_length (s : jsstring) : isPreview s -> (length s <= 103)%nat.
Proof.
  intros [H|(t & Ht & ->)]; [lia|]. rewrite length_app, Ht. simpl. lia.
Qed.

Lemma pushParts_caps (parts : list Part) (out : list jsstring) :
  (length out <= 5)%nat -> Forall isPreview out ->
  (length (pushParts parts out) <= 5)%nat /\
  Forall isPreview (pushParts parts out).
Proof.
  revert out. induction parts as [|[text|] parts IH]; intros out Hl Hp;
    cbn [pushParts]; [done| |by apply IH].
  destruct (trimNonEmpty text); [|by apply IH].
  apply IH.
  - by apply pushShift_length.
  - apply pushShift_Forall; [done|apply preview_isPreview].
Qed.

Lemma capsInv_emitProgress (o : ExecutorOptions) (st : RunState) :
  capsInv st -> capsInv (emitProgress o st).
Proof.
  intros [Hp He]. unfold emitProgress.
  destruct (onProgress o); [|done]. split; [exact Hp|].
  simpl. apply Forall_app. split; [exact He|]. by constructor.
Qed.

Lemma capsInv_processLine (o : ExecutorOptions) (line : option PiEvent)
    (st : RunState) :
  capsInv st -> capsInv (processLine o line st).
Proof.
  intros Hinv. pose proof Hinv as [(Ht & Ho & Hf) He].
  destruct line as [[[msg|]|toolName argsPreview| |[msg|]|]|];
    cbn [processLine]; try exact Hinv.
  - destruct (role msg); try (split; [split|]; done).
    apply capsInv_emitProgress. split; [|exact He].
    destruct (pushParts_caps (content msg) (recentOutput (progress st)))
      as [H1 H2]; [done|done|].
    split; [exact Ht|]. split; [exact H1|exact H2].
  - apply capsInv_emitProgress. split; [|exact He]. split; [exact Ht|done].
  - apply capsInv_emitProgress. split.
    + destruct (currentTool (progress st)) as [t|]; [|split; done].
      destruct (truthy t); [|split; done].
      split; [|done]. simpl. by apply pushShift_length.
    + destruct (currentTool (progress st)) as [t|]; [|done].
      destruct (truthy t); done.
  - apply capsInv_emitProgress. split; [split|]; done.
Qed.

Lemma capsInv_finish (o : ExecutorOptions) (code : Z) (st : RunState) :
  capsInv st -> capsInv (finish o code st).
Proof.
  intros [(Ht & Ho & Hf) He]. unfold finish.
  destruct (truncateOutput (getFinalOutput (messages st))) as [[out t]|];
    [|split; [split|]; done].
  destruct (if negb (code =? 0) && negb (isAbortedStatus (status (progress st)))
            then _ else _) as [e|];
    [|destruct (truthy (apiError st))];
    (destruct (onProgress o); split; [split; done| |split; done|done];
     simpl; apply Forall_app; split; [done|]; constructor; [|done];
     split; done).
Qed.

Lemma capsInv_killProc (o : ExecutorOptions) (sig : option Limits.AbortSignal)
    (st : RunState) :
  capsInv st -> capsInv (killProc o sig st).
Proof.
  intros [(Ht & Ho & Hf) He]. unfold killProc.
  destruct (capsInv_emitProgress o
              (setProgress (setStatus StatusAborted (progress st)) st))
    as [H1 H2]; [split; [split|]; done|].
  split; done.
Qed.

Lemma capsInv_step (o : ExecutorOptions) (ev : EnvEvent) (st : RunState) :
  capsInv st -> capsInv (step o ev st).
Proof.
  intros Hinv. pose proof Hinv as [(Ht & Ho & Hf) He].
  destruct ev as [line|data| | |heap| |code rest]; cbn [step].
  - by apply capsInv_processLine.
  - split; [split|]; done.
  - destruct (callerSignal st) as [[r|]|]; try exact Hinv.
    by apply capsInv_killProc.
  - split; [split|]; done.
  - split; [split|]; done.
  - unfold resolve. destruct (exit st); [done|]. by apply capsInv_finish.
  - unfold resolve.
    pose proof (capsInv_processLine o rest st Hinv) as Hinv'.
    destruct (exit (processLine o rest st)); [done|].
    by apply capsInv_finish.
Qed.

Lemma capsInv_start (o : ExecutorOptions) : capsInv (start o).
Proof.
  unfold start.
  destruct (signal o) as [[r|]|]; [apply capsInv_killProc|..];
    (split; [split; [simpl; lia|split; [simpl; lia|constructor]]
            |constructor]).
Qed.

Lemma capsInv_run (o : ExecutorOptions) (trace : list EnvEvent)
    (st : RunState) :
  capsInv st -> capsInv (foldl (fun st ev => step o ev st) st trace).
Proof.
  revert st. induction trace as [|ev trace IH]; intros st H; [done|].
  simpl. apply IH. by apply capsInv_step.
Qed.

Lemma capsInv_runAgentOnce (o : ExecutorOptions) (trace : list EnvEvent) :
  capsInv (runAgentOnce o trace).
Proof. apply capsInv_run, capsInv_start. Qed.

Variable toLowerCase : jsstring -> jsstring.

Lemma retryLoop_caps (cfg : Retry.RetryConfig)
    (attempts : list (list EnvEvent)) (o : ExecutorOptions) (attempt : Z)
    (lastResult : option TaskResult) (seen : list TaskProgress) :
  Forall withinCaps seen ->
  Forall withinCaps
    (delivered (retryLoop toLowerCase runAgentOnce cfg o attempt lastResult
                          seen attempts)).
Proof.
  revert o attempt lastResult seen.
  induction attempts as [|trace later IH]; intros o attempt lastResult seen Hs;
    cbn [retryLoop]; destruct (attempt <=? Retry.maxAttempts cfg);
    try exact Hs.
  assert (Hs' : Forall withinCaps (seen ++ emitted (runAgentOnce o trace))).
  { apply Forall_app. split; [exact Hs|]. apply capsInv_runAgentOnce. }
  destruct (result (runAgentOnce o trace)) as [res|]; [|exact Hs'].
  destruct ((exitCode res =? 0) || negb (truthyError (error res)));
    [exact Hs'|].
  destruct (negb (Retry.shouldRetry toLowerCase (default [] (error res))
                    (Some cfg))); [exact Hs'|].
  destruct (Retry.maxAttempts cfg <=? attempt); [exact Hs'|].
  by apply IH.
Qed.

Lemma runOnceOutcome_caps (o : ExecutorOptions)
    (attempts : list (list EnvEvent)) :
  Forall withinCaps (delivered (runOnceOutcome runAgentOnce o attempts)).
Proof.
  destruct attempts as [|trace later]; [constructor|].
  apply capsInv_runAgentOnce.
Qed.

(** C9.  Every [TaskProgress] snapshot that a [runAgent] execution hands
    to [onProgress], in any attempt and at any point of it, holds at most
    10 recent tools and at most 5 recent outputs, each output a text of
    at most 100 code units or 100 code units followed by ["..."]; a full
    FIFO drops its oldest entry for the new one. *)
Theorem progress_fifo_caps (options : ExecutorOptions)
    (attempts : list (list EnvEvent)) :
  Forall (fun snapshot =>
            (length (recentTools snapshot) <= 10)%nat /\
            (length (recentOutput snapshot) <= 5)%nat /\
            Forall (fun text =>
                      isPreview text /\ (length text <= 100 + 3)%nat)
                   (recentOutput snapshot))
         (delivered (runAgent toLowerCase options attempts)) /\
  (forall (entry : ToolEntry) (fifo : list ToolEntry),
     length fifo = 10%nat ->
     pushShift 10 entry fifo = drop 1 fifo ++ [entry]) /\
  (forall (text : jsstring) (fifo : list jsstring),
     length fifo = 5%nat ->
     pushShift 5 text fifo = drop 1 fifo ++ [text]).
Proof.
  split; [|split].
  - assert (H : Forall withinCaps
                  (delivered (runAgent toLowerCase options attempts))).
    { unfold runAgent, runAgentWithRetry.
      destruct (retry options) as [cfg|].
      - apply retryLoop_caps. constructor.
      - apply runOnceOutcome_caps. }
    eapply Forall_impl; [exact H|].
    intros p (Ht & Ho & Hf). split; [exact Ht|]. split; [exact Ho|].
    eapply Forall_impl; [exact Hf|].
    intros text Hp. split; [exact Hp|]. by apply isPreview_length.
  - intros entry fifo H. by apply pushShift_fifo; [lia|].
  - intros text fifo H. by apply pushShift_fifo; [lia|].
Qed.

End ProgressFacts.
(** ** Cancellation and resource limits in [runAgentOnce] *)

Section CancellationFacts.

Import Executor Limits.

Lemma processLine_status (o : ExecutorOptions) (line : option PiEvent)
    (st : RunState) :
  status (progress (processLine o line st)) = status (progress st) /\
  callerSignal (processLine o line st) = callerSignal st /\
  result (processLine o line st) = result st /\
  exit (processLine o line st) = exit st /\
  memoryMonitor (processLine o line st) = memoryMonitor st /\
  toolCallTracker (processLine o line st) = toolCallTracker st /\
  durationGuard (processLine o line st) = durationGuard st.
Proof.
  unfold processLine, emitProgress.
  destruct line as [[[msg|]|toolName argsPreview| |[msg|]|]|];
    try destruct (role msg);
    try destruct (currentTool (progress st)) as [t|];
    try destruct (truthy t);
    destruct (onProgress o); done.
Qed.

Lemma finish_facts (o : ExecutorOptions) (code : Z) (st : RunState) :
  callerSignal (finish o code st) = callerSignal st /\
  exit (finish o code st) = Some code /\
  memoryMonitor (finish o code st) = memoryMonitor st /\
  toolCallTracker (finish o code st) = toolCallTracker st /\
  durationGuard (finish o code st) = durationGuard st /\
  (status (progress (finish o code st)) = StatusAborted ->
   status (progress st) = StatusAborted) /\
  (forall r, result (finish o code st) = Some r ->
     r_aborted r = isAbortedStatus (status (progress st))).
Proof.
  unfold finish.
  destruct (truncateOutput (getFinalOutput (messages st))) as [[out t]|];
    [|by repeat split].
  destruct (isAbortedStatus (status (progress st))) eqn:Ha.
  - assert (Hst : status (progress st) = StatusAborted)
      by (destruct (status (progress st)); done).
    rewrite andb_false_r.
    destruct (truthy (apiError st)); destruct (onProgress o);
      repeat split; try done; by intros r [= <-].
  - destruct (negb (code =? 0) && negb false);
      [|destruct (truthy (apiError st))];
      destruct (onProgress o); repeat split; try done;
      try (by intros r [= <-]);
      simpl; destruct (_ =? 0); discriminate.
Qed.

Lemma abortedByCaller_step (o : ExecutorOptions) (ev : EnvEvent)
    (st : RunState) :
  abortedByCaller st -> abortedByCaller (step o ev st).
Proof.
  intros Hinv. pose proof Hinv as (Hs & Hr & He).
  assert (Hfin : forall code st',
            status (progress st') = status (progress st) ->
            callerSignal st' = callerSignal st ->
            result st' = result st -> exit st' = exit st ->
            abortedByCaller (resolve o code st')).
  { intros code st' E1 E2 E3 E4. unfold resolve.
    destruct (exit st') eqn:Hx.
    - unfold abortedByCaller. rewrite E1, E2, E3.
      split; [done|split; [done|]]. rewrite Hx. done.
    - destruct (finish_facts o code st')
        as (F1 & F2 & _ & _ & _ & F3 & F4).
      unfold abortedByCaller. rewrite F1, F2, E2.
      split; [|split]; [| |done].
      + intros H. apply Hs. rewrite <- E1. by apply F3.
      + intros r Hres Hab. apply Hs. rewrite <- E1.
        rewrite (F4 r Hres) in Hab.
        destruct (status (progress st')); done. }
  destruct ev as [line|data| | |heap| |code rest]; cbn [step].
  - destruct (processLine_status o line st) as (E1 & E2 & E3 & E4 & _).
    unfold abortedByCaller. by rewrite E1, E2, E3, E4.
  - done.
  - destruct (callerSignal st) as [[r|]|]; try exact Hinv.
    unfold killProc, emitProgress.
    destruct (onProgress o);
      (split; [|split]; simpl;
       [intros _; by exists CallerAbort
       |intros r _ _; by exists CallerAbort
       |exact He]).
  - done.
  - done.
  - by apply Hfin.
  - destruct (processLine_status o rest st) as (E1 & E2 & E3 & E4 & _).
    by apply Hfin.
Qed.

Lemma abortedByCaller_start (o : ExecutorOptions) : abortedByCaller (start o).
Proof.
  unfold start, killProc, emitProgress.
  destruct (signal o) as [[r|]|] eqn:Hsig; try destruct (onProgress o);
    (split; [|split]; simpl; eauto; done).
Qed.

Lemma abortedByCaller_runAgentOnce (o : ExecutorOptions)
    (trace : list EnvEvent) :
  abortedByCaller (runAgentOnce o trace).
Proof.
  unfold runAgentOnce. generalize (abortedByCaller_start o).
  generalize (start o). induction trace as [|ev trace IH]; intros st H;
    [done|]. simpl. apply IH. by apply abortedByCaller_step.
Qed.

Lemma callerSignal_absent (o : ExecutorOptions) (trace : list EnvEvent) :
  signal o = None -> callerSignal (runAgentOnce o trace) = None.
Proof.
  intros Hsig. unfold runAgentOnce.
  assert (Hstart : callerSignal (start o) = None)
    by (unfold start; rewrite Hsig; reflexivity).
  revert Hstart. generalize (start o).
  induction trace as [|ev trace IH]; intros st Hst; [done|].
  simpl. apply IH.
  destruct ev as [line|data| | |heap| |code rest]; cbn [step]; try done.
  - by destruct (processLine_status o line st) as (_ & -> & _).
  - by rewrite Hst.
  - unfold resolve. destruct (exit st); [done|].
    by destruct (finish_facts o 1 st) as (-> & _).
  - unfold resolve.
    destruct (processLine_status o rest st) as (_ & E & _).
    destruct (exit (processLine o rest st)); [by rewrite E|].
    destruct (finish_facts o (default 0 code) (processLine o rest st))
      as (-> & _). by rewrite E.
Qed.

(** Without a caller's signal no run is ever marked aborted, whatever
    the resource guards do. *)
Lemma never_aborted_without_signal (o : ExecutorOptions)
    (trace : list EnvEvent) (r : TaskResult) :
  signal o = None -> result (runAgentOnce o trace) = Some r ->
  r_aborted r = false.
Proof.
  intros Hsig Hres. destruct (r_aborted r) eqn:Ha; [|done].
  destruct (abortedByCaller_runAgentOnce o trace) as (_ & H & _).
  destruct (H r Hres Ha) as [reason Hc].
  rewrite callerSignal_absent in Hc by done. discriminate.
Qed.

Lemma mm_check_idle (heapUsed : Z) (m : MemoryMonitor) :
  intervalId m = false -> mm_check heapUsed m = m.
Proof. intros H. unfold mm_check. by rewrite H. Qed.

Lemma guardsIdle_step (o : ExecutorOptions) (ev : EnvEvent) (st : RunState) :
  guardsIdle st -> guardsIdle (step o ev st).
Proof.
  intros Hinv. pose proof Hinv as [Hm Ht].
  destruct ev as [line|data| | |heap| |code rest]; cbn [step]; try done.
  - destruct (processLine_status o line st) as (_ & _ & _ & _ & E1 & E2 & _).
    unfold guardsIdle. by rewrite E1, E2.
  - destruct (callerSignal st) as [[r|]|]; try exact Hinv.
    unfold killProc, emitProgress. by destruct (onProgress o).
  - split; [|exact Ht]. simpl. intros m.
    destruct (memoryMonitor st) as [m0|]; [|done].
    destruct (Hm m0 eq_refl) as [Hi Hc]. simpl.
    rewrite mm_check_idle by done. by intros [= <-].
  - unfold resolve. destruct (exit st); [done|].
    destruct (finish_facts o 1 st) as (_ & _ & E1 & E2 & _).
    unfold guardsIdle. by rewrite E1, E2.
  - unfold resolve.
    destruct (processLine_status o rest st)
      as (_ & _ & _ & _ & E1 & E2 & _).
    destruct (exit (processLine o rest st)).
    + unfold guardsIdle. by rewrite E1, E2.
    + destruct (finish_facts o (default 0 code) (processLine o rest st))
        as (_ & _ & F1 & F2 & _).
      unfold guardsIdle. by rewrite F1, F2, E1, E2.
Qed.

Lemma guardsIdle_start (o : ExecutorOptions) : guardsIdle (start o).
Proof.
  assert (H : forall st, guardsIdle st ->
              guardsIdle (match signal o with
                          | Some (Some _) => killProc o (signal o) st
                          | _ => st
                          end)).
  { intros st Hst. destruct (signal o) as [[r|]|]; try exact Hst.
    unfold killProc, emitProgress. by destruct (onProgress o). }
  apply H. split; simpl.
  - intros m.
    destruct (resourceLimits o) as [l|]; [|done]. simpl.
    destruct (truthyQ (maxMemoryMB l)) as [mb|]; [|done]. simpl.
    destruct (enforced l); [|done]. by intros [= <-].
  - intros t.
    destruct (resourceLimits o) as [l|]; [|done]. simpl.
    destruct (truthyZ (maxConcurrentToolCalls l)) as [n|]; [|done]. simpl.
    destruct (enforced l); [|done]. by intros [= <-].
Qed.

(** In every state of every run the memory monitor has no interval
    installed and has not aborted, and the tool-call tracker has counted
    no call and has not aborted. *)
Lemma guardsIdle_runAgentOnce (o : ExecutorOptions) (trace : list EnvEvent) :
  guardsIdle (runAgentOnce o trace).
Proof.
  unfold runAgentOnce. generalize (guardsIdle_start o).
  generalize (start o). induction trace as [|ev trace IH]; intros st H;
    [done|]. simpl. apply IH. by apply guardsIdle_step.
Qed.

(** C1.  A run with [maxDurationMs = 1000] and no caller's signal, whose
    child is still running when the timer elapses: the duration guard
    aborts with its reason and the combined signal given to [spawn] is
    aborted, the child is killed and [runAgent] returns.  The result is
    not marked aborted and its [error] is ["Exit code: 1"], not the
    reason of the breach.  The same child cancelled through the caller's
    signal is returned as aborted. *)
Theorem runAgent_duration_breach_not_reported :
  let options :=
    {| o_task := js "summarize"; o_id := js "task-1"; o_name := None;
       o_model := None; o_step := None; signal := None; onProgress := true;
       retry := None;
       resourceLimits :=
         Some {| maxMemoryMB := None; maxDurationMs := Some 1000;
                 maxConcurrentToolCalls := None; enforceLimits := None |} |} in
  let trace := [DurationTimer; ProcError; ProcClose None None] in
  let st := runAgentOnce options trace in
  (dg_controller <$> durationGuard st)
    = Some (Some (DurationLimitExceeded 1000)) /\
  combinedSignalAborted st = true /\
  (exists r,
     returned (runAgent asciiLower options [trace]) = Some (Some r) /\
     r_aborted r = false /\
     exitCode r = 1 /\
     error r = Some (js "Exit code: 1")) /\
  (exists r,
     returned (runAgent asciiLower (withSignal (Some None) options)
                        [[SignalAbort; ProcError; ProcClose None None]])
     = Some (Some r) /\
     r_aborted r = true /\ error r = None).
Proof.
  cbv zeta. split; [vm_compute; reflexivity|].
  split; [vm_compute; reflexivity|]. split.
  - eexists. split; [vm_compute; reflexivity|].
    split; [|split]; vm_compute; reflexivity.
  - eexists. split; [vm_compute; reflexivity|].
    split; vm_compute; reflexivity.
Qed.

(** C2.  A run with [enforceLimits], [maxMemoryMB = 1] and
    [maxConcurrentToolCalls = 1]: two tool executions are started and
    none has ended, and two five-second periods pass with 100 MiB of
    heap in use.  No sample is taken and no call is counted: the monitor
    has no interval installed, the tracker counts zero calls, no signal
    is aborted, and the run ends as completed.  A monitor that is
    started, and a tracker that is told of the calls, do abort. *)
Theorem runAgent_limits_not_enforced :
  let options :=
    {| o_task := js "summarize"; o_id := js "task-1"; o_name := None;
       o_model := None; o_step := None; signal := None; onProgress := true;
       retry := None;
       resourceLimits :=
         Some {| maxMemoryMB := Some (Qmake 1 1); maxDurationMs := None;
                 maxConcurrentToolCalls := Some 1;
                 enforceLimits := Some true |} |} in
  let heapUsed := 100 * 1024 * 1024 in
  let trace :=
    [Stdout (Some (ToolExecutionStart (Some (js "bash")) (js "ls")));
     Stdout (Some (ToolExecutionStart (Some (js "read")) (js "a.ts")));
     FiveSeconds heapUsed; FiveSeconds heapUsed;
     ProcClose (Some 0) None] in
  let st := runAgentOnce options trace in
  memoryMonitor st = Some (newMemoryMonitor (Qmake 1 1)) /\
  toolCallTracker st = Some (newToolCallTracker 1) /\
  combinedSignalAborted st = false /\
  (exists r,
     returned (runAgent asciiLower options [trace]) = Some (Some r) /\
     r_aborted r = false /\ exitCode r = 0 /\ error r = None) /\
  aborted (mm_controller
             (mm_check heapUsed (mm_start (newMemoryMonitor (Qmake 1 1)))))
    = true /\
  aborted (tct_controller
             (fst (startTool (fst (startTool (newToolCallTracker 1))))))
    = true.
Proof.
  cbv zeta. repeat split; try (vm_compute; reflexivity).
  eexists. split; [vm_compute; reflexivity|].
  repeat split; vm_compute; reflexivity.
Qed.

End CancellationFacts.
(** ** Bounded parallel map *)

Section LimitFacts.

Import Parallel.

Lemma Qfloor_pos_iff (q : Q) : 0 < Qfloor q <-> Qle_bool 1 q = true.
Proof.
  rewrite Qle_bool_iff. split.
  - intros H. apply Qle_trans with (inject_Z (Qfloor q)); [|apply Qfloor_le].
    change 1%Q with (inject_Z 1). rewrite <- Zle_Qle. lia.
  - intros H. pose proof (Qlt_floor q) as Hlt.
    assert (Hq : (inject_Z 1 < inject_Z (Qfloor q + 1))%Q)
      by (eapply Qle_lt_trans; [exact H|exact Hlt]).
    rewrite <- Zlt_Qlt in Hq. lia.
Qed.

(** The worker limit: the floor of a concurrency of at least one, the
    number of items for any other concurrency, clamped between one and
    the number of items. *)
Lemma limit_amended (len : nat) (concurrency : JsNumber) :
  limit len concurrency
  = Z.max 1 (Z.min (amendedNormalized len concurrency) (Z.of_nat len)).
Proof.
  unfold limit, effectiveConcurrency, normalizedConcurrency,
    amendedNormalized.
  destruct concurrency as [| | |q];
    try (destruct (0 <? Z.of_nat len); reflexivity).
  destruct (Qle_bool 1 q) eqn:Hq.
  - apply Qfloor_pos_iff in Hq. by replace (0 <? Qfloor q) with true by lia.
  - replace (0 <? Qfloor q) with false; [done|].
    symmetry. apply Z.ltb_ge. apply Z.nlt_ge. intros H.
    apply Qfloor_pos_iff in H. congruence.
Qed.

Lemma limit_bounds (len : nat) (concurrency : JsNumber) :
  (0 < len)%nat -> 1 <= limit len concurrency <= Z.of_nat len.
Proof. unfold limit. lia. Qed.

End LimitFacts.

Section MapFacts.

Import Parallel.

Context {T R E : Type}.
Variable items : list T.
Variable fn : T -> nat -> Settled R E.

Local Ltac split_inv :=
  refine (conj _ (conj _ (conj _ (conj _ (conj _ _))))).

Lemma poolInvOn_start :
  poolInvOn items fn (replicate (length items) None) 0 [] [].
Proof.
  split_inv.
  - apply length_replicate.
  - done.
  - intros i _ Hi. by apply lookup_replicate_2.
  - intros w i H. by rewrite lookup_nil in H.
  - intros w1 w2 i H. by rewrite lookup_nil in H.
  - intros; lia.
Qed.

(** A worker that finds the counter past the end only bumps it. *)
Lemma poolInvOn_bump res next log ws :
  poolInvOn items fn res next log ws -> (length items <= next)%nat ->
  poolInvOn items fn res (S next) log ws.
Proof.
  intros (H1 & H2 & H3 & H4 & H5 & H6) Hn. split_inv.
  - done.
  - rewrite H2. f_equal. lia.
  - intros i Hi Hl. lia.
  - intros w i H. destruct (H4 w i H) as (? & ? & ?).
    split; [lia|done].
  - done.
  - intros i item Hi Hlt. apply H6; [done|].
    apply lookup_lt_Some in Hi. lia.
Qed.

(** A new worker promise that has already returned. *)
Lemma poolInvOn_append_finished res next log ws :
  poolInvOn items fn res next log ws ->
  poolInvOn items fn res next log (ws ++ [Finished]).
Proof.
  intros (H1 & H2 & H3 & H4 & H5 & H6).
  assert (Hl : forall w i, (ws ++ [Finished]) !! w = Some (Awaiting i) ->
               ws !! w = Some (Awaiting i)).
  { intros w i H. apply lookup_app_Some in H as [H|[_ H]]; [done|].
    destruct (w - length ws)%nat; simpl in H; [done|].
    by rewrite lookup_nil in H. }
  split_inv; try done.
  - intros w i H. by apply (H4 w), Hl.
  - intros w1 w2 i Ha Hb. eapply H5; by apply Hl.
  - intros i item Hi Hlt. destruct (H6 i item Hi Hlt) as [[w Hw]|Hr];
      [left|by right].
    exists w. by apply lookup_app_l_Some.
Qed.

(** A new worker claims the next index. *)
Lemma poolInvOn_append_awaiting res next log ws :
  poolInvOn items fn res next log ws -> (next < length items)%nat ->
  poolInvOn items fn res (S next) (log ++ [next]) (ws ++ [Awaiting next]).
Proof.
  intros (H1 & H2 & H3 & H4 & H5 & H6) Hn.
  assert (Hl : forall w i, (ws ++ [Awaiting next]) !! w = Some (Awaiting i) ->
               ws !! w = Some (Awaiting i) \/ (w = length ws /\ i = next)).
  { intros w i H. apply lookup_app_Some in H as [H|[Hge H]]; [by left|].
    right. destruct (w - length ws)%nat eqn:Hd; simpl in H.
    - injection H as <-. split; [lia|done].
    - by rewrite lookup_nil in H. }
  split_inv.
  - done.
  - rewrite H2. replace (Nat.min (S next) (length items)) with (S next) by lia.
    replace (Nat.min next (length items)) with next by lia.
    by rewrite seq_S.
  - intros i Hi Hl'. apply H3; lia.
  - intros w i H. destruct (Hl w i H) as [Hw|[_ ->]].
    + destruct (H4 w i Hw) as (? & ? & ?). split; [lia|done].
    + split; [lia|]. split; [done|]. apply H3; lia.
  - intros w1 w2 i Ha Hb.
    destruct (Hl w1 i Ha) as [Ha'|[E1 E2]];
      destruct (Hl w2 i Hb) as [Hb'|[E3 E4]].
    + by eapply H5.
    + subst i. destruct (H4 w1 next Ha') as (? & ? & ?). lia.
    + subst i. destruct (H4 w2 next Hb') as (? & ? & ?). lia.
    + congruence.
  - intros i item Hi Hlt.
    destruct (decide (i = next)) as [->|Hne].
    + left. exists (length ws). by apply list_lookup_middle.
    + destruct (H6 i item Hi) as [[w Hw]|Hr]; [lia|left|by right].
      exists w. by apply lookup_app_l_Some.
Qed.

Lemma awaiting_insert (ws : list Worker) (k w i : nat) (w' : Worker) :
  (forall j, w' <> Awaiting j) ->
  <[k := w']> ws !! w = Some (Awaiting i) ->
  k <> w /\ ws !! w = Some (Awaiting i).
Proof.
  intros Hw' H. apply list_lookup_insert_Some in H as [(_ & Heq & _)|H];
    [by destruct (Hw' i Heq)|done].
Qed.

(** The call awaited by worker [k] settles: its slot takes the value and
    the worker leaves the [await]. *)
Lemma poolInvOn_vacate res next log ws k idx item w' :
  poolInvOn items fn res next log ws ->
  ws !! k = Some (Awaiting idx) -> items !! idx = Some item ->
  (forall j, w' <> Awaiting j) ->
  poolInvOn items fn
    (match fn item idx with
     | Fulfilled value => <[idx := Some value]> res
     | Rejected _ => res
     end) next log (<[k := w']> ws).
Proof.
  intros (H1 & H2 & H3 & H4 & H5 & H6) Hk Hitem Hw'.
  destruct (H4 k idx Hk) as (Hlt & Hlen & Hempty).
  set (res' := match fn item idx with
               | Fulfilled value => <[idx := Some value]> res
               | Rejected _ => res
               end).
  assert (Hidx : res' !! idx = Some (settledSlot (fn item idx))).
  { unfold res'. destruct (fn item idx); simpl; [|done].
    apply list_lookup_insert_eq. lia. }
  assert (Hother : forall i, i <> idx -> res' !! i = res !! i).
  { intros i Hi. unfold res'. destruct (fn item idx); [|done].
    by apply list_lookup_insert_ne. }
  assert (Hlen' : length res' = length res).
  { unfold res'. destruct (fn item idx); [apply length_insert|done]. }
  split_inv.
  - lia.
  - done.
  - intros i Hi Hl. rewrite Hother by lia. by apply H3.
  - intros w i H. apply awaiting_insert in H as [Hne Hw]; [|done].
    destruct (H4 w i Hw) as (? & ? & ?). split; [done|]. split; [done|].
    rewrite Hother; [done|]. intros ->. by destruct Hne; eapply H5.
  - intros w1 w2 i Ha Hb.
    apply awaiting_insert in Ha as [_ Ha]; [|done].
    apply awaiting_insert in Hb as [_ Hb]; [|done]. by eapply H5.
  - intros i item' Hi Hlt'.
    destruct (decide (i = idx)) as [->|Hne].
    + right. rewrite Hitem in Hi. by injection Hi as <-.
    + destruct (H6 i item' Hi Hlt') as [[w Hw]|Hr].
      * left. exists w. rewrite list_lookup_insert_ne; [done|].
        intros ->. rewrite Hk in Hw. by injection Hw as ->.
      * right. by rewrite Hother.
Qed.

(** A worker in a free slot claims the next index. *)
Lemma poolInvOn_take res next log ws k w0 :
  poolInvOn items fn res next log ws -> (next < length items)%nat ->
  ws !! k = Some w0 -> (forall j, w0 <> Awaiting j) ->
  poolInvOn items fn res (S next) (log ++ [next]) (<[k := Awaiting next]> ws).
Proof.
  intros (H1 & H2 & H3 & H4 & H5 & H6) Hn Hk Hw0.
  assert (Hl : forall w i, <[k := Awaiting next]> ws !! w = Some (Awaiting i) ->
               (k <> w /\ ws !! w = Some (Awaiting i)) \/ (w = k /\ i = next)).
  { intros w i H. apply list_lookup_insert_Some in H as [(-> & Heq & _)|H];
      [right|by left]. by injection Heq as <-. }
  split_inv.
  - done.
  - rewrite H2. replace (Nat.min (S next) (length items)) with (S next) by lia.
    replace (Nat.min next (length items)) with next by lia.
    by rewrite seq_S.
  - intros i Hi Hl'. apply H3; lia.
  - intros w i H. destruct (Hl w i H) as [[_ Hw]|[_ ->]].
    + destruct (H4 w i Hw) as (? & ? & ?). split; [lia|done].
    + split; [lia|]. split; [done|]. apply H3; lia.
  - intros w1 w2 i Ha Hb.
    destruct (Hl w1 i Ha) as [[_ Ha']|[E1 E2]];
      destruct (Hl w2 i Hb) as [[_ Hb']|[E3 E4]].
    + by eapply H5.
    + subst i. destruct (H4 w1 next Ha') as (? & ? & ?). lia.
    + subst i. destruct (H4 w2 next Hb') as (? & ? & ?). lia.
    + congruence.
  - intros i item Hi Hlt.
    destruct (decide (i = next)) as [->|Hne].
    + left. exists k. apply list_lookup_insert_eq.
      by apply lookup_lt_Some in Hk.
    + destruct (H6 i item Hi) as [[w Hw]|Hr]; [lia|left|by right].
      exists w. rewrite list_lookup_insert_ne; [done|].
      intros ->. rewrite Hk in Hw. injection Hw as ->. by destruct (Hw0 i).
Qed.

Lemma poolInv_spawnWorkers (n : nat) (st : Pool R E) :
  poolInv items fn st -> poolInv items fn (spawnWorkers items n st).
Proof.
  revert st. induction n as [|n IH]; intros st Hst; [done|].
  cbn [spawnWorkers]. unfold claim.
  destruct (workerSignalAborted st).
  - apply IH. by apply poolInvOn_append_finished.
  - destruct (length items <=? nextIndex st)%nat eqn:Hc.
    + apply IH. apply poolInvOn_append_finished, poolInvOn_bump; [done|].
      by apply Nat.leb_le.
    + apply IH. apply poolInvOn_append_awaiting; [done|].
      by apply Nat.leb_gt.
Qed.

Lemma poolInv_settle (w : nat) (st : Pool R E) :
  poolInv items fn st -> poolInv items fn (settle items fn w st).
Proof.
  intros Hst. unfold settle.
  destruct (workers st !! w) as [[idx| |]|] eqn:Hw; try done.
  destruct (items !! idx) as [item|] eqn:Hitem; [|done].
  pose proof (poolInvOn_vacate _ _ _ _ w idx item Finished Hst Hw Hitem
                ltac:(done)) as Hfin.
  pose proof (poolInvOn_vacate _ _ _ _ w idx item Threw Hst Hw Hitem
                ltac:(done)) as Hthrew.
  assert (Hslot : <[w := Finished]> (workers st) !! w = Some Finished).
  { apply list_lookup_insert_eq. by apply lookup_lt_Some in Hw. }
  destruct (fn item idx) as [value|error] eqn:Hfn.
  - unfold claim, workerSignalAborted, setWorker, poolInv. simpl.
    destruct (default false (external st) || internal st); [done|].
    destruct (length items <=? nextIndex st)%nat eqn:Hc; simpl.
    + apply poolInvOn_bump; [done|]. by apply Nat.leb_le.
    + rewrite <- (list_insert_insert_eq (workers st) w _ Finished).
      eapply poolInvOn_take; [done| |done|done]. by apply Nat.leb_gt.
  - unfold claim, workerSignalAborted, setWorker, poolInv.
    destruct (default false (external st) || internal st); done.
Qed.

Lemma poolInv_poolStep (st : Pool R E) (ev : PoolEvent) :
  poolInv items fn st -> poolInv items fn (poolStep items fn st ev).
Proof.
  intros Hst. destruct ev as [w|]; simpl.
  - by apply poolInv_settle.
  - by destruct (external st).
Qed.

Lemma poolInv_poolRun (concurrency : JsNumber) (signal : option bool)
    (schedule : list PoolEvent) :
  poolInv items fn (poolRun items fn concurrency signal schedule).
Proof.
  unfold poolRun.
  assert (H : poolInv items fn (poolStart items concurrency signal))
    by apply poolInv_spawnWorkers, poolInvOn_start.
  revert H. generalize (poolStart (R:=R) (E:=E) items concurrency signal).
  induction schedule as [|ev schedule IH]; intros st H; [done|].
  simpl. apply IH. by apply poolInv_poolStep.
Qed.

Lemma spawnWorkers_workers (n : nat) (st : Pool R E) :
  length (workers (spawnWorkers items n st)) = (length (workers st) + n)%nat.
Proof.
  revert st. induction n as [|n IH]; intros st; [simpl; lia|].
  cbn [spawnWorkers]. unfold claim.
  destruct (workerSignalAborted st);
    [|destruct (length items <=? nextIndex st)%nat];
    rewrite IH; simpl; rewrite length_app; simpl; lia.
Qed.

Lemma settle_workers (w : nat) (st : Pool R E) :
  length (workers (settle items fn w st)) = length (workers st).
Proof.
  unfold settle.
  destruct (workers st !! w) as [[idx| |]|]; try done.
  destruct (items !! idx) as [item|]; [|done].
  unfold claim, workerSignalAborted.
  destruct (fn item idx); simpl;
    destruct (default false (external st) || internal st); simpl;
    try destruct (length items <=? nextIndex st)%nat; simpl;
    apply length_insert.
Qed.

(** The pool has exactly [limit] workers, at the start and ever after. *)
Lemma poolRun_workers (concurrency : JsNumber) (signal : option bool)
    (schedule : list PoolEvent) :
  length (workers (poolRun items fn concurrency signal schedule))
  = Z.to_nat (limit (length items) concurrency).
Proof.
  unfold poolRun.
  assert (H : length (workers (poolStart (R:=R) (E:=E) items concurrency
                                         signal))
              = Z.to_nat (limit (length items) concurrency))
    by (unfold poolStart; rewrite spawnWorkers_workers; simpl; lia).
  revert H. generalize (poolStart (R:=R) (E:=E) items concurrency signal).
  induction schedule as [|ev schedule IH]; intros st H; [done|].
  simpl. apply IH. destruct ev as [w|]; simpl.
  - by rewrite settle_workers.
  - by destruct (external st).
Qed.

Lemma forallb_forall_replicate_finished (n : nat) :
  forallb isFinished (replicate n Finished) = true.
Proof. induction n; [done|]. simpl. exact IHn. Qed.

(** *** A signal that is aborted before the call *)

Lemma spawnWorkers_aborted (n : nat) (st : Pool R E) :
  external st = Some true ->
  spawnWorkers items n st
  = {| results := results st; nextIndex := nextIndex st;
       workers := workers st ++ replicate n Finished;
       external := external st; internal := internal st;
       firstError := firstError st; calls := calls st |}.
Proof.
  revert st. induction n as [|n IH]; intros st Hext.
  - simpl. rewrite app_nil_r. by destruct st.
  - cbn [spawnWorkers]. unfold claim, workerSignalAborted.
    rewrite Hext. simpl. rewrite IH by done. simpl.
    rewrite <- app_assoc. simpl. by rewrite Hext.
Qed.

Lemma poolRun_aborted (concurrency : JsNumber) (schedule : list PoolEvent) :
  poolRun items fn concurrency (Some true) schedule
  = poolStart items concurrency (Some true).
Proof.
  unfold poolRun.
  assert (H : external (poolStart (R:=R) (E:=E) items concurrency (Some true))
              = Some true /\
              Forall (fun w => w = Finished)
                (workers (poolStart (R:=R) (E:=E) items concurrency
                                    (Some true)))).
  { unfold poolStart. rewrite spawnWorkers_aborted by done. simpl.
    split; [done|]. by apply Forall_replicate. }
  revert H. generalize (poolStart (R:=R) (E:=E) items concurrency (Some true)).
  intros st [Hext Hws]. induction schedule as [|ev schedule IH]; [done|].
  simpl. replace (poolStep items fn st ev) with st; [exact IH|].
  destruct ev as [w|]; simpl.
  - unfold settle. destruct (workers st !! w) as [wk|] eqn:Hw; [|done].
    rewrite Forall_lookup in Hws. by rewrite (Hws w wk Hw).
  - rewrite Hext. destruct st. simpl in *. by rewrite Hext.
Qed.

(** C10.  With a signal that is already aborted when the call is made,
    and a list of items that is not empty: [fn] is never called, every
    slot of the result array is empty, and the call returns that array
    with [aborted: true]; it does not throw, whatever the runtime does. *)
Theorem mapWithConcurrencyLimit_already_aborted
    (concurrency : JsNumber) (schedule : list PoolEvent) :
  items <> [] ->
  mapWithConcurrencyLimit items fn concurrency (Some true) schedule
  = MapReturned (replicate (length items) None) true /\
  calls (poolRun items fn concurrency (Some true) schedule) = [].
Proof.
  intros Hne. unfold mapWithConcurrencyLimit.
  rewrite poolRun_aborted. unfold poolStart.
  rewrite spawnWorkers_aborted by done.
  destruct items as [|item rest]; [done|]. unfold poolOutcome. simpl.
  rewrite forallb_forall_replicate_finished. done.
Qed.

(** C3, amended.  On an empty list the call returns [{results: [],
    aborted: false}].  Otherwise, whenever it returns, the result array
    has the length of [items]; a filled slot holds what [fn] returned
    for the item of that index; the slot of an index whose call has
    returned holds that value; the slot of an index that no worker
    claimed is empty.  The pool has [limit] workers, where [limit] is
    [max(1, min(normalized, items.length))] and [normalized] is the floor
    of a finite concurrency of at least one and [items.length] for any
    other concurrency. *)
Theorem mapWithConcurrencyLimit_results
    (concurrency : JsNumber) (signal : option bool)
    (schedule : list PoolEvent) :
  let st := poolRun items fn concurrency signal schedule in
  (items = [] ->
   mapWithConcurrencyLimit items fn concurrency signal schedule
   = MapReturned [] false) /\
  (forall res ab,
     items <> [] ->
     mapWithConcurrencyLimit items fn concurrency signal schedule
     = MapReturned res ab ->
     length res = length items /\
     (forall i value, res !! i = Some (Some value) ->
        i ∈ calls st /\
        exists item, items !! i = Some item /\ fn item i = Fulfilled value) /\
     (forall i item value,
        items !! i = Some item -> i ∈ calls st ->
        (forall w, workers st !! w <> Some (Awaiting i)) ->
        fn item i = Fulfilled value -> res !! i = Some (Some value)) /\
     (forall i, (i < length items)%nat -> i ∉ calls st ->
        res !! i = Some None)) /\
  length (workers st) = Z.to_nat (limit (length items) concurrency) /\
  limit (length items) concurrency
  = Z.max 1 (Z.min (amendedNormalized (length items) concurrency)
                   (Z.of_nat (length items))).
Proof.
  cbv zeta. split; [by intros ->|]. split; [|split].
  - intros res ab Hne Hret.
    assert (Hres : res = results (poolRun items fn concurrency signal
                                          schedule)).
    { unfold mapWithConcurrencyLimit in Hret.
      destruct items as [|item rest]; [done|].
      unfold poolOutcome in Hret.
      destruct (firstError _); [destruct (default false _)|
                                destruct (forallb _ _)];
        by inversion Hret. }
    subst res.
    destruct (poolInv_poolRun concurrency signal schedule)
      as (H1 & H2 & H3 & H4 & H5 & H6).
    set (st := poolRun items fn concurrency signal schedule) in *.
    assert (Hcalls : forall i, i ∈ calls st <->
              (i < nextIndex st)%nat /\ (i < length items)%nat).
    { intros i. rewrite H2, elem_of_seq. lia. }
    split; [exact H1|]. split; [|split].
    + intros i value Hi.
      assert (Hlt : (i < length items)%nat)
        by (rewrite <- H1; by apply lookup_lt_Some in Hi).
      destruct (decide (i < nextIndex st)%nat) as [Hn|Hn].
      * split; [by apply Hcalls|].
        destruct (lookup_lt_is_Some_2 items i Hlt) as [item Hitem].
        exists item. split; [done|].
        destruct (H6 i item Hitem Hn) as [[w Hw]|Hr].
        -- destruct (H4 w i Hw) as (_ & _ & Hempty). congruence.
        -- rewrite Hi in Hr. injection Hr as Hr.
           destruct (fn item i); simpl in Hr; congruence.
      * rewrite H3 in Hi by lia. discriminate.
    + intros i item value Hitem Hc Hfree Hfn.
      apply Hcalls in Hc as [Hn _].
      destruct (H6 i item Hitem Hn) as [[w Hw]|Hr]; [by destruct (Hfree w)|].
      by rewrite Hr, Hfn.
    + intros i Hlt Hc. apply H3; [|done].
      destruct (decide (nextIndex st <= i)%nat); [done|].
      destruct Hc. apply Hcalls. lia.
  - apply poolRun_workers.
  - apply limit_amended.
Qed.

(** *** The call can always finish *)

Lemma awaitingCount_cons (w : Worker) (ws : list Worker) :
  awaitingCount (w :: ws)
  = ((if isAwaiting w then 1 else 0) + awaitingCount ws)%nat.
Proof.
  unfold awaitingCount. rewrite filter_cons.
  destruct (isAwaiting w); by case_decide.
Qed.

Lemma awaitingCount_insert (ws : list Worker) (k i : nat) (w' : Worker) :
  ws !! k = Some (Awaiting i) ->
  (awaitingCount (<[k := w']> ws) + 1
   = awaitingCount ws + (if isAwaiting w' then 1 else 0))%nat.
Proof.
  revert k. induction ws as [|w ws IH]; intros k Hk; [done|].
  destruct k as [|k]; simpl in Hk.
  - injection Hk as ->.
    change (<[0%nat := w']> (Awaiting i :: ws)) with (w' :: ws).
    rewrite !awaitingCount_cons. simpl. destruct (isAwaiting w'); lia.
  - change (<[S k := w']> (w :: ws)) with (w :: <[k := w']> ws).
    rewrite !awaitingCount_cons. specialize (IH k Hk). lia.
Qed.

Lemma awaitingCount_zero (ws : list Worker) :
  awaitingCount ws = 0%nat ->
  forall w, w ∈ ws -> w = Finished \/ w = Threw.
Proof.
  induction ws as [|w0 ws IH]; intros H w Hin.
  - by apply elem_of_nil in Hin.
  - rewrite awaitingCount_cons in H.
    apply elem_of_cons in Hin as [->|Hin].
    + destruct w0; simpl in H; [lia|by left|by right].
    + apply IH; [|done]. destruct (isAwaiting w0); lia.
Qed.

Lemma awaitingCount_pos (ws : list Worker) :
  (0 < awaitingCount ws)%nat -> exists k i, ws !! k = Some (Awaiting i).
Proof.
  induction ws as [|w0 ws IH]; intros H; [by compute in H; lia|].
  rewrite awaitingCount_cons in H. destruct w0 as [i| |].
  - by exists 0%nat, i.
  - destruct IH as (k & i & Hk); [simpl in H; lia|]. by exists (S k), i.
  - destruct IH as (k & i & Hk); [simpl in H; lia|]. by exists (S k), i.
Qed.

Lemma settle_progress (w idx : nat) (st : Pool R E) :
  poolInv items fn st -> threwInv st ->
  workers st !! w = Some (Awaiting idx) ->
  threwInv (settle items fn w st) /\
  (workLeft items (settle items fn w st) < workLeft items st)%nat.
Proof.
  intros (_ & _ & _ & H4 & _) Hthrew Hw.
  destruct (H4 w idx Hw) as (_ & Hlen & _).
  destruct (lookup_lt_is_Some_2 items idx Hlen) as [item Hitem].
  assert (Hkeep : forall w', w' <> Threw ->
            Threw ∈ <[w := w']> (workers st) -> Threw ∈ workers st).
  { intros w' Hne Hin. apply list_elem_of_lookup in Hin as [k Hk].
    apply list_lookup_insert_Some in Hk as [(_ & Heq & _)|[_ Hk]];
      [done|]. apply list_elem_of_lookup. eauto. }
  unfold settle, workLeft, threwInv. rewrite Hw, Hitem.
  unfold claim, workerSignalAborted, setWorker.
  destruct (fn item idx) as [value|error]; simpl;
    destruct (default false (external st) || internal st); simpl;
    try destruct (length items <=? nextIndex st)%nat eqn:Hc; simpl;
    try apply Nat.leb_le in Hc; try apply Nat.leb_gt in Hc;
    (split;
     [try (intros Hin; apply Hthrew; eapply Hkeep; [|exact Hin]; done);
      try (intros _; by destruct (firstError st))
     |pose proof (awaitingCount_insert (workers st) w idx Finished Hw);
      pose proof (awaitingCount_insert (workers st) w idx Threw Hw);
      pose proof (awaitingCount_insert (workers st) w idx
                    (Awaiting (nextIndex st)) Hw);
      cbn [isAwaiting] in *; lia]).
Qed.

Lemma pool_can_finish (n : nat) (st : Pool R E) :
  (workLeft items st <= n)%nat -> poolInv items fn st -> threwInv st ->
  exists more,
    poolOutcome (foldl (poolStep items fn) st more) <> MapPending.
Proof.
  revert st. induction n as [|n IH]; intros st Hn Hinv Hthrew.
  - exists []. simpl. unfold poolOutcome.
    destruct (firstError st) eqn:Hf; [by destruct (default false _)|].
    assert (Hall : forallb isFinished (workers st) = true).
    { apply forallb_forall. intros w Hin. apply list_elem_of_In in Hin.
      destruct (awaitingCount_zero (workers st)) with (w := w) as [->| ->];
        [unfold workLeft in Hn; lia|done|done|].
      by destruct (Hthrew Hin). }
    by rewrite Hall.
  - destruct (decide (awaitingCount (workers st) = 0)%nat) as [Hz|Hz].
    + exists []. simpl. unfold poolOutcome.
      destruct (firstError st) eqn:Hf; [by destruct (default false _)|].
      assert (Hall : forallb isFinished (workers st) = true).
      { apply forallb_forall. intros w Hin. apply list_elem_of_In in Hin.
        destruct (awaitingCount_zero (workers st)) with (w := w)
          as [->| ->]; [done|done|done|].
        by destruct (Hthrew Hin). }
      by rewrite Hall.
    + destruct (awaitingCount_pos (workers st)) as (k & i & Hk); [lia|].
      destruct (settle_progress k i st Hinv Hthrew Hk) as [Ht Hlt].
      destruct (IH (settle items fn k st)) as [more Hmore];
        [lia|by apply poolInv_settle|done|].
      by exists (Settle k :: more).
Qed.

Lemma threwInv_poolRun (concurrency : JsNumber) (signal : option bool)
    (schedule : list PoolEvent) :
  threwInv (poolRun items fn concurrency signal schedule).
Proof.
  unfold poolRun.
  assert (H : threwInv (poolStart (R:=R) (E:=E) items concurrency signal)).
  { unfold poolStart.
    generalize (Z.to_nat (limit (length items) concurrency)).
    assert (H0 : threwInv
              {| results := replicate (length items) (@None R);
                 nextIndex := 0; workers := []; external := signal;
                 internal := false; firstError := @None E; calls := [] |})
      by (intros Hin; by apply elem_of_nil in Hin).
    revert H0. generalize
      {| results := replicate (length items) (@None R);
         nextIndex := 0; workers := []; external := signal;
         internal := false; firstError := @None E; calls := [] |}.
    intros st H0 n. revert st H0. induction n as [|n IH]; intros st H0;
      [done|].
    cbn [spawnWorkers]. unfold claim.
    destruct (workerSignalAborted st);
      [|destruct (length items <=? nextIndex st)%nat];
      apply IH; intros Hin; simpl in *;
      apply elem_of_app in Hin as [Hin|Hin];
      try (by apply H0);
      apply list_elem_of_singleton in Hin; discriminate. }
  assert (Hpool : poolInv items fn
                    (poolStart (R:=R) (E:=E) items concurrency signal))
    by apply poolInv_spawnWorkers, poolInvOn_start.
  revert H Hpool.
  generalize (poolStart (R:=R) (E:=E) items concurrency signal).
  induction schedule as [|ev schedule IH]; intros st H Hpool; [done|].
  simpl. apply IH; [|by apply poolInv_poolStep].
  destruct ev as [w|]; simpl.
  - destruct (workers st !! w) as [[idx| |]|] eqn:Hw;
      try (unfold settle; by rewrite Hw).
    by apply (settle_progress w idx).
  - by destruct (external st).
Qed.

(** From every point the runtime can reach, settling the calls that
    are in flight brings the call to an end: it returns or it throws. *)
Lemma mapWithConcurrencyLimit_can_finish
    (concurrency : JsNumber) (signal : option bool)
    (schedule : list PoolEvent) :
  exists more,
    mapWithConcurrencyLimit items fn concurrency signal (schedule ++ more)
    <> MapPending.
Proof.
  unfold mapWithConcurrencyLimit.
  destruct items as [|item rest] eqn:Hitems; [by exists []|].
  rewrite <- Hitems.
  destruct (pool_can_finish
              (workLeft items (poolRun items fn concurrency signal schedule))
              (poolRun items fn concurrency signal schedule))
    as [more Hmore];
    [lia|apply poolInv_poolRun|apply threwInv_poolRun|].
  exists more. unfold poolRun in *. by rewrite foldl_app.
Qed.

End MapFacts.

(** Scenario S3 of the specification: five items, concurrency 4, a
    doubling [fn], the calls settling out of order. *)
Lemma mapWithConcurrencyLimit_results_witness :
  length [Some 20; Some 10; Some 16; Some 4; Some 14]
  = length [10; 5; 8; 2; 7].
Proof.
  refine (proj1 (proj1 (proj2
            (mapWithConcurrencyLimit_results [10; 5; 8; 2; 7]
               (fun x _ => Parallel.Fulfilled (E:=unit) (2 * x))
               (Parallel.Finite (Qmake 4 1)) None
               [Parallel.Settle 3; Parallel.Settle 0; Parallel.Settle 1;
                Parallel.Settle 2; Parallel.Settle 3]))
            [Some 20; Some 10; Some 16; Some 4; Some 14] false _ _)).
  - discriminate.
  - vm_compute. reflexivity.
Defined.

(** With concurrency 0.5 and two items the code starts two workers, and
    both items are claimed at once; the limit as the specification words
    it is one. *)
Lemma mapWithConcurrencyLimit_limit_counterexample :
  Parallel.limit 2 (Parallel.Finite (Qmake 1 2))
  <> Z.max 1 (Z.min (Parallel.claimedNormalized 2
                       (Parallel.Finite (Qmake 1 2))) (Z.of_nat 2)) /\
  Parallel.limit 2 (Parallel.Finite (Qmake 1 2)) = 2 /\
  Parallel.calls
    (Parallel.poolRun [10; 5]
       (fun x _ => Parallel.Fulfilled (E:=unit) (2 * x))
       (Parallel.Finite (Qmake 1 2)) None []) = [0%nat; 1%nat].
Proof. split; [|split]; vm_compute; [discriminate|reflexivity|reflexivity]. Qed.

(** The test "handles already aborted signal": three items, concurrency 4. *)
Lemma mapWithConcurrencyLimit_already_aborted_witness :
  Parallel.mapWithConcurrencyLimit [1; 2; 3]
    (fun x _ => Parallel.Fulfilled (E:=unit) (2 * x))
    (Parallel.Finite (Qmake 4 1)) (Some true) [Parallel.Settle 0]
  = Parallel.MapReturned [None; None; None] true.
Proof.
  refine (proj1 (mapWithConcurrencyLimit_already_aborted [1; 2; 3]
                   (fun x _ => Parallel.Fulfilled (E:=unit) (2 * x))
                   (Parallel.Finite (Qmake 4 1)) [Parallel.Settle 0] _)).
  discriminate.
Defined.

(** ** Race *)

Section RaceFacts.

Import Parallel.

Context {T E : Type}.
Variable tasks : list (RaceTask T E).

(** When the parent's signal has already fired at the time of the call
    and there is a task to race, the call returns [{aborted: true}] and
    does not throw, whatever the runtime does. *)
Lemma raceWithAbort_parent_already_aborted (schedule : list RaceEvent) :
  tasks <> [] -> raceWithAbort tasks (Some true) schedule = RaceAborted.
Proof. intros Hne. unfold raceWithAbort. by destruct tasks. Qed.

Lemma allReject_no_winner (st : Race T) (schedule : list RaceEvent) :
  allReject tasks -> winnerResult st = None ->
  winnerResult (foldl (raceStep tasks) st schedule) = None.
Proof.
  intros Hall. revert st. induction schedule as [|ev schedule IH];
    intros st Hst; [done|]. simpl. apply IH.
  destruct ev as [i|]; simpl; [|by destruct (parent st)].
  unfold taskSettles.
  destruct (settled st !! i) as [[|]|]; try done.
  destruct (tasks !! i) as [task|] eqn:Hi; [|done].
  destruct (Hall task (list_elem_of_lookup_2 _ _ _ Hi) (combinedAborted st))
    as [reason ->]. done.
Qed.

(** When the parent's signal has not fired at the time of the call, the
    call never returns [{aborted: true}], whatever happens later. *)
Lemma raceWithAbort_not_aborted_later (parentSignal : option bool)
    (schedule : list RaceEvent) :
  default false parentSignal = false ->
  raceWithAbort tasks parentSignal schedule <> RaceAborted.
Proof.
  intros Hp. unfold raceWithAbort. destruct tasks as [|t ts]; [done|].
  rewrite Hp. unfold raceOutcome.
  destruct (forallb _ _); [|done]. by destruct (winnerResult _) as [[w r]|].
Qed.

(** When every task rejects and the parent's signal has not fired at
    the time of the call, the call, once all tasks are settled, throws an
    error whose message is the same for all task lists. *)
Lemma raceWithAbort_all_reject (parentSignal : option bool)
    (schedule : list RaceEvent) :
  tasks <> [] -> allReject tasks -> default false parentSignal = false ->
  raceWithAbort tasks parentSignal schedule = RacePending \/
  raceWithAbort tasks parentSignal schedule
  = RaceThrown (js "All race tasks failed").
Proof.
  intros Hne Hall Hp.
  pose proof (allReject_no_winner (raceStart tasks parentSignal) schedule
                Hall eq_refl) as Hw.
  unfold raceWithAbort. destruct tasks as [|t ts]; [done|]. rewrite Hp.
  unfold raceOutcome. rewrite Hw.
  destruct (forallb _ _); [by right|by left].
Qed.

End RaceFacts.

Lemma raceWithAbort_parent_already_aborted_witness :
  Parallel.raceWithAbort
    [{| Parallel.id := js "task1";
        Parallel.run := fun _ => Parallel.Fulfilled (E:=jsstring) (js "result") |}]
    (Some true) [Parallel.TaskSettles 0]
  = Parallel.RaceAborted.
Proof.
  refine (raceWithAbort_parent_already_aborted _ _ _). discriminate.
Defined.

(** C4.  The parent's signal fires while the only task is in flight, and
    the task, like [task2] of the test "aborts remaining tasks when winner
    is found", throws ["Aborted"] when it finds its signal aborted.  The
    call throws ["All race tasks failed"]: it does not return
    [{aborted: true}], at this schedule or at any other, although the
    cancellation is all that went wrong.  [mapWithConcurrencyLimit], given
    a call that throws ["Aborted"] and the same abort while it is in
    flight, swallows the error and returns with [aborted: true]. *)
Theorem raceWithAbort_abort_in_flight_throws :
  let task1 :=
    {| Parallel.id := js "task1";
       Parallel.run := fun signalAborted =>
         if signalAborted then Parallel.Rejected (js "Aborted")
         else Parallel.Fulfilled (js "result") |} in
  Parallel.raceWithAbort [task1] (Some false)
    [Parallel.ParentAbort; Parallel.TaskSettles 0]
  = Parallel.RaceThrown (js "All race tasks failed") /\
  (forall schedule,
     Parallel.raceWithAbort [task1] (Some false) schedule
     <> Parallel.RaceAborted) /\
  Parallel.mapWithConcurrencyLimit [js "item"]
    (fun _ _ => Parallel.Rejected (R:=jsstring) (js "Aborted"))
    (Parallel.Finite (Qmake 1 1)) (Some false)
    [Parallel.ExternalAbort; Parallel.Settle 0]
  = Parallel.MapReturned [None] true.
Proof.
  cbv zeta. split; [vm_compute; reflexivity|]. split.
  - intros schedule. by apply raceWithAbort_not_aborted_later.
  - vm_compute. reflexivity.
Qed.

(** The same abort, with a task that returns all the same: the call
    reports it as the winner. *)
Lemma raceWithAbort_abort_in_flight_winner :
  Parallel.raceWithAbort
    [{| Parallel.id := js "task1";
        Parallel.run := fun _ =>
          Parallel.Fulfilled (E:=jsstring) (js "result") |}]
    (Some false) [Parallel.ParentAbort; Parallel.TaskSettles 0]
  = Parallel.RaceWinner (js "task1") (js "result").
Proof. vm_compute. reflexivity. Qed.

(** C5.  The test "all tasks fail returns error": two tasks, [fail1]
    throwing ["fail 1"] and [fail2] throwing ["fail 2"], no parent signal.
    The call throws, and the message of the error is ["All race tasks
    failed"]: it names neither task and carries neither error, and it is
    not the ["All race models failed:"] the test expects. *)
Theorem raceWithAbort_all_fail_message :
  let tasks :=
    [{| Parallel.id := js "fail1";
        Parallel.run := fun _ => Parallel.Rejected (R:=Z) (js "fail 1") |};
     {| Parallel.id := js "fail2";
        Parallel.run := fun _ => Parallel.Rejected (R:=Z) (js "fail 2") |}] in
  exists message,
    Parallel.raceWithAbort tasks None
      [Parallel.TaskSettles 0; Parallel.TaskSettles 1]
    = Parallel.RaceThrown message /\
    message = js "All race tasks failed" /\
    includes message (js "fail1") = false /\
    includes message (js "fail2") = false /\
    includes message (js "fail 1") = false /\
    includes message (js "fail 2") = false /\
    includes message (js "All race models failed:") = false.
Proof.
  cbv zeta. eexists. split; [vm_compute; reflexivity|].
  repeat split; vm_compute; reflexivity.
Qed.
(** ** Agent inheritance *)

Section AgentFacts.

Import Agents.

(** The set built by [new Set] has no duplicates. *)
Lemma setAdd_NoDup (seen : list string) (x : string) :
  NoDup seen -> NoDup (setAdd seen x).
Proof.
  intros H. unfold setAdd. case_decide; [done|].
  apply NoDup_app. split; [done|]. split.
  - intros y Hy Hin. apply list_elem_of_singleton in Hin. by subst.
  - apply NoDup_singleton.
Qed.

Lemma foldl_setAdd_NoDup (l seen : list string) :
  NoDup seen -> NoDup (foldl setAdd seen l).
Proof.
  revert seen. induction l as [|x l IH]; intros seen H; [done|].
  simpl. by apply IH, setAdd_NoDup.
Qed.

Lemma newSet_NoDup (l : list string) : NoDup (newSet l).
Proof. apply foldl_setAdd_NoDup, NoDup_nil_2. Qed.

Lemma foldl_setAdd_elem_of (l seen : list string) (x : string) :
  x ∈ foldl setAdd seen l <-> x ∈ seen \/ x ∈ l.
Proof.
  revert seen. induction l as [|y l IH]; intros seen; simpl.
  - split; [by left|]. intros [H|H]; [done|]. by apply elem_of_nil in H.
  - rewrite IH. unfold setAdd. case_decide.
    + rewrite elem_of_cons. split; [tauto|].
      intros [H'|[->|H']]; tauto.
    + rewrite elem_of_app, list_elem_of_singleton, elem_of_cons. tauto.
Qed.

Lemma newSet_elem_of (l : list string) (x : string) : x ∈ newSet l <-> x ∈ l.
Proof.
  unfold newSet. rewrite foldl_setAdd_elem_of. split; [|by right].
  intros [H|H]; [by apply elem_of_nil in H|done].
Qed.

(** What [inherit] assigns: the union of the tools, first occurrences
    kept in order, unless it is empty; the first truthy model among the
    agent's, the base's resolved one and the base's; and the base's
    thinking only for an agent that has none of its own, whose
    [resolvedThinking] is otherwise left as it was. *)
Lemma inherit_fields (baseAgent agent : AgentConfig) :
  let union :=
    newSet (default (default [] (tools baseAgent)) (resolvedTools baseAgent)
            ++ default [] (tools agent)) in
  (union <> [] -> resolvedTools (inherit baseAgent agent) = Some union) /\
  (union = [] ->
   resolvedTools (inherit baseAgent agent) = resolvedTools agent) /\
  resolvedModel (inherit baseAgent agent)
  = orString (model agent)
      (orString (resolvedModel baseAgent) (model baseAgent)) /\
  (truthyThinking (thinking agent) = false ->
   resolvedThinking (inherit baseAgent agent)
   = match resolvedThinking baseAgent with
     | Some t => Some t
     | None => thinking baseAgent
     end) /\
  (truthyThinking (thinking agent) = true ->
   resolvedThinking (inherit baseAgent agent) = resolvedThinking agent).
Proof.
  cbv zeta. unfold inherit. simpl.
  replace (match resolvedTools baseAgent with
           | Some ts => ts
           | None => default [] (tools baseAgent)
           end)
    with (default (default [] (tools baseAgent)) (resolvedTools baseAgent))
    by (by destruct (resolvedTools baseAgent)).
  destruct (newSet _) as [|x u] eqn:Hu; (split; [done|]);
    (split; [done|]); (split; [done|]);
    split; intros ->; done.
Qed.

(** C7.  A base agent with thinking ["low"] and an agent that extends
    it with thinking ["high"] of its own: resolution gives the agent the
    union of the tools, in first-seen order, and the base's model, and
    leaves its [resolvedThinking] unset; the specification asks for
    ["high"].  The base, which extends nothing, gets its own thinking
    as [resolvedThinking]. *)
Theorem resolveAgentInheritance_own_thinking_unresolved :
  let baseAgent :=
    {| name := "base"; description := "Base agent";
       tools := Some ["read"; "grep"]; model := Some "claude-haiku-4-5";
       systemPrompt := "You are the base."; thinking := Some (ThinkingLevel "low");
       source := User; filePath := "/agents/base.md"; extends := None;
       resolvedTools := None; resolvedModel := None;
       resolvedThinking := None |} in
  let agent :=
    {| name := "derived"; description := "Derived agent";
       tools := Some ["bash"; "read"]; model := None;
       systemPrompt := "You are derived."; thinking := Some (ThinkingLevel "high");
       source := User; filePath := "/agents/derived.md";
       extends := Some "base";
       resolvedTools := None; resolvedModel := None;
       resolvedThinking := None |} in
  exists baseAgent' agent',
    resolveAgentInheritance [agent; baseAgent] = Ok [agent'; baseAgent'] /\
    resolvedTools agent' = Some ["read"; "grep"; "bash"] /\
    resolvedModel agent' = Some "claude-haiku-4-5" /\
    thinking agent' = Some (ThinkingLevel "high") /\
    resolvedThinking agent' = None /\
    resolvedThinking baseAgent' = Some (ThinkingLevel "low").
Proof.
  cbv zeta. eexists _, _. split; [vm_compute; reflexivity|].
  repeat split.
Qed.

End AgentFacts.
(** ** Agent inheritance, for every list *)

Section ResolverFacts.

Import Agents.

Lemma buildAgentMap_snoc (l : list AgentConfig) (a : AgentConfig) :
  buildAgentMap (l ++ [a]) = <[name a := length l]> (buildAgentMap l).
Proof.
  unfold buildAgentMap. rewrite imap_app, foldl_app. simpl.
  by rewrite Nat.add_0_r.
Qed.

Lemma buildAgentMap_Some (l : list AgentConfig) (n : string) (i : nat) :
  buildAgentMap l !! n = Some i -> exists a, l !! i = Some a /\ name a = n.
Proof.
  revert i. induction l as [|a l IH] using rev_ind; intros i H; [done|].
  rewrite buildAgentMap_snoc in H.
  destruct (decide (name a = n)) as [Hn|Hn].
  - rewrite <- Hn, lookup_insert_eq in H. injection H as <-.
    exists a. split; [|done]. by apply list_lookup_middle.
  - rewrite lookup_insert_ne in H by done.
    destruct (IH i H) as (a0 & Ha0 & Hname). exists a0.
    split; [by apply lookup_app_l_Some|done].
Qed.

Lemma buildAgentMap_lookup (l : list AgentConfig) (i : nat) (a : AgentConfig) :
  NoDup (name <$> l) -> l !! i = Some a -> buildAgentMap l !! name a = Some i.
Proof.
  revert i. induction l as [|a0 l IH] using rev_ind; intros i Hnd H; [done|].
  rewrite buildAgentMap_snoc. rewrite fmap_app in Hnd.
  apply NoDup_app in Hnd as (Hnd & Hfresh & _).
  apply lookup_app_Some in H as [H|[Hge H]].
  - rewrite lookup_insert_ne; [by apply IH|].
    intros Heq. apply (Hfresh (name a)).
    + apply list_elem_of_fmap. exists a. split; [done|].
      by apply list_elem_of_lookup_2 in H.
    + rewrite <- Heq. simpl. apply list_elem_of_singleton. done.
  - destruct (i - length l)%nat eqn:Hd; simpl in H; [|by rewrite lookup_nil in H].
    injection H as ->. replace i with (length l) by lia.
    apply lookup_insert_eq.
Qed.

Variable l : list AgentConfig.
Hypothesis Hnd : NoDup (name <$> l).

Lemma name_inj (i j : nat) (a b : AgentConfig) :
  l !! i = Some a -> l !! j = Some b -> name a = name b -> i = j.
Proof.
  intros Hi Hj Hn. eapply NoDup_lookup; [exact Hnd| |].
  - by rewrite list_lookup_fmap, Hi.
  - by rewrite list_lookup_fmap, Hj, Hn.
Qed.

(** The end of a [resolve] call: the agent at [i] takes its final value
    and its name joins [resolved]. *)
Lemma resolverInv_finish (st : Resolver) (i : nat) (a0 v : AgentConfig)
    (vis : gset string) :
  resolverInv l st -> l !! i = Some a0 -> name a0 ∉ resolved st ->
  finalOf st a0 v ->
  resolverInv l {| agents := <[i := v]> (agents st); agentMap := agentMap st;
                   visited := vis;
                   resolved := {[name a0]} ∪ resolved st |}.
Proof.
  intros (R1 & R2 & R3 & R4) Hi Hfresh Hv.
  assert (Hbase : forall (a a' : AgentConfig), finalOf st a a' ->
            finalOf {| agents := <[i := v]> (agents st);
                       agentMap := agentMap st; visited := vis;
                       resolved := {[name a0]} ∪ resolved st |} a a').
  { intros a a'. unfold finalOf. simpl.
    destruct (truthyString (extends a)); [|done].
    intros (j & baseAgent & Hj & HB & Hres & ->).
    exists j, baseAgent. split; [done|].
    split; [|split; [apply elem_of_union; by right|done]].
    rewrite list_lookup_insert_ne; [done|]. intros <-.
    rewrite R1 in Hj. apply buildAgentMap_Some in Hj as (b & Hb & Hname).
    rewrite Hi in Hb. injection Hb as <-. by rewrite Hname in Hfresh. }
  split; [done|]. split; [simpl; by rewrite length_insert|]. split; simpl.
  - intros n [Hn|Hn]%elem_of_union; [|by apply R3].
    apply elem_of_singleton in Hn as ->. eauto.
  - intros k ak Hk. destruct (decide (k = i)) as [->|Hne].
    + rewrite Hi in Hk. injection Hk as <-. exists v.
      split; [|split].
      * apply list_lookup_insert_eq. rewrite R2. by apply lookup_lt_Some in Hi.
      * intros Hnot. destruct Hnot. apply elem_of_union. left.
        by apply elem_of_singleton.
      * intros _. by apply Hbase.
    + destruct (R4 k ak Hk) as (a' & Ha' & Hun & Hre).
      assert (Hname : name ak <> name a0).
      { intros Heq. by destruct Hne; eapply name_inj. }
      exists a'. split; [|split].
      * by rewrite list_lookup_insert_ne.
      * intros Hnot. apply Hun. intros Hin. apply Hnot, elem_of_union.
        by right.
      * intros [Hin|Hin]%elem_of_union;
          [by apply elem_of_singleton in Hin|].
        by apply Hbase, Hre.
Qed.

Lemma resolve_spec (fuel : nat) :
  forall (n : string) (path : list string) (st st' : Resolver),
    resolverInv l st -> resolve fuel n path st = Ok st' ->
    resolverInv l st' /\ n ∈ resolved st' /\
    (forall m, m ∈ resolved st -> m ∈ resolved st') /\
    (forall m, m ∈ resolved st' -> m ∈ resolved st \/ m ∉ path).
Proof.
  induction fuel as [|fuel IH]; intros n path st st' Hinv Hres; [done|].
  cbn [resolve] in Hres.
  destruct (decide (n ∈ path)) as [|Hpath]; [done|].
  destruct (agentMapGet n st) as [[i agent]|] eqn:Hget; [|done].
  destruct (decide (n ∈ resolved st)) as [Hin|Hfresh].
  { injection Hres as <-. split; [done|]. split; [done|]. split; [done|].
    intros; by left. }
  destruct (decide (n ∈ visited st)); [done|].
  pose proof Hinv as (R1 & R2 & R3 & R4).
  (* the agent found through the map is the agent of the list *)
  unfold agentMapGet in Hget.
  destruct (agentMap st !! n) as [i'|] eqn:Hmap; [|done]. simpl in Hget.
  destruct (agents st !! i') as [agent'|] eqn:Hag; [|done].
  injection Hget as -> ->.
  rewrite R1 in Hmap. pose proof Hmap as Hmap'.
  apply buildAgentMap_Some in Hmap' as (a0 & Hi & Hname).
  destruct (R4 i a0 Hi) as (a' & Ha' & Hun & _).
  rewrite Hag in Ha'. injection Ha' as <-.
  rewrite Hun in * by (by rewrite Hname). clear Hun. subst n.
  destruct (truthyString (extends a0)) eqn:Hext.
  - destruct (resolve fuel (default "" (extends a0)) (path ++ [name a0]) _)
      as [st2| |] eqn:Hrec; try done.
    apply IH in Hrec as (Hinv2 & Hbase & Hmono & Hnew);
      [|exact Hinv].
    assert (Hfresh2 : name a0 ∉ resolved st2).
    { intros Hin. destruct (Hnew _ Hin) as [Hold|Hnot]; [done|].
      apply Hnot, elem_of_app. right. by apply list_elem_of_singleton. }
    pose proof Hinv2 as (S1 & S2 & S3 & S4).
    destruct (S4 i a0 Hi) as (aNow & HaNow & HunNow & _).
    rewrite HunNow in HaNow by done.
    destruct (S3 _ Hbase) as (jb & ab & Hjb & Hab).
    pose proof (buildAgentMap_lookup l jb ab Hnd Hjb) as Hmapb.
    rewrite Hab, <- S1 in Hmapb.
    destruct (S4 jb ab Hjb) as (baseAgent & HB & _).
    unfold agentMapGet in Hres. rewrite Hmapb in Hres. simpl in Hres.
    rewrite HB, HaNow in Hres. simpl in Hres. injection Hres as <-.
    split; [|split; [|split]].
    + apply (resolverInv_finish st2 i a0 (inherit baseAgent a0)
               (visited st2 ∖ {[name a0]})); [done|done|done|].
      unfold finalOf. rewrite Hext. by exists jb, baseAgent.
    + simpl. apply elem_of_union. left. by apply elem_of_singleton.
    + intros m Hm. simpl. apply Hmono in Hm. apply elem_of_union. by right.
    + intros m. simpl. intros [Hm|Hm]%elem_of_union.
      * apply elem_of_singleton in Hm as ->. by right.
      * destruct (Hnew m Hm) as [Hold|Hnot]; [by left|right].
        intros Hp. apply Hnot, elem_of_app. by left.
  - injection Hres as <-. split; [|split; [|split]].
    + apply (resolverInv_finish
               {| agents := agents st; agentMap := agentMap st;
                  visited := {[name a0]} ∪ visited st;
                  resolved := resolved st |} i a0 (copyOwn a0)
               (({[name a0]} ∪ visited st) ∖ {[name a0]}));
        [done|done|done|].
      unfold finalOf. by rewrite Hext.
    + simpl. apply elem_of_union. left. by apply elem_of_singleton.
    + intros m Hm. simpl. apply elem_of_union. by right.
    + intros m. simpl. intros [Hm|Hm]%elem_of_union; [|by left].
      apply elem_of_singleton in Hm as ->. by right.
Qed.

Lemma resolveAll_spec (fuel : nat) (names : list string) :
  forall st st' : Resolver,
    resolverInv l st -> resolveAll fuel names st = Ok st' ->
    resolverInv l st' /\
    (forall m, m ∈ resolved st -> m ∈ resolved st') /\
    (forall n, n ∈ names -> n ∈ resolved st').
Proof.
  induction names as [|n names IH]; intros st st' Hinv Hres.
  - injection Hres as <-. split; [done|]. split; [done|].
    intros n Hn. by apply elem_of_nil in Hn.
  - cbn [resolveAll] in Hres.
    destruct (decide (n ∈ resolved st)) as [Hin|Hfresh].
    + destruct (IH st st' Hinv Hres) as (H1 & H2 & H3).
      split; [done|]. split; [done|].
      intros m [->|Hm]%elem_of_cons; [by apply H2|by apply H3].
    + destruct (resolve fuel n [] st) as [st1| |] eqn:Hr; try done.
      apply resolve_spec in Hr as (Hinv1 & Hn & Hmono & _); [|done].
      destruct (IH st1 st' Hinv1 Hres) as (H1 & H2 & H3).
      split; [done|]. split; [by intros m Hm; apply H2, Hmono|].
      intros m [->|Hm]%elem_of_cons; [by apply H2|by apply H3].
Qed.

Lemma resolverInv_start :
  resolverInv l {| agents := l; agentMap := buildAgentMap l;
                   visited := ∅; resolved := ∅ |}.
Proof.
  split; [done|]. split; [done|]. split; simpl.
  - intros n Hn. by apply elem_of_empty in Hn.
  - intros i a Hi. exists a. split; [done|]. split; [done|].
    intros Hin. by apply elem_of_empty in Hin.
Qed.

Lemma finalOf_name (st : Resolver) (a a' : AgentConfig) :
  finalOf st a a' -> name a' = name a.
Proof.
  unfold finalOf. destruct (truthyString (extends a)).
  - by intros (j & baseAgent & _ & _ & _ & ->).
  - by intros ->.
Qed.

(** For a list of agents with distinct names that resolves: the agents
    keep their places; an agent that extends a base is the result of
    [inherit] on the resolved base and the agent as given; any other agent
    is the result of [copyOwn]. *)
Theorem resolveAgentInheritance_resolved (l' : list AgentConfig) :
  resolveAgentInheritance l = Ok l' ->
  length l' = length l /\
  forall i a, l !! i = Some a ->
    if truthyString (extends a) then
      exists j baseAgent,
        l' !! j = Some baseAgent /\
        name baseAgent = default "" (extends a) /\
        l' !! i = Some (inherit baseAgent a)
    else l' !! i = Some (copyOwn a).
Proof.
  unfold resolveAgentInheritance, resolveAgentInheritanceFuel.
  destruct (resolveAll _ _ _) as [st| |] eqn:Hall; try done.
  intros [= <-].
  apply resolveAll_spec in Hall as ((R1 & R2 & R3 & R4) & _ & Hdone);
    [|apply resolverInv_start].
  split; [done|]. intros i a Hi.
  destruct (R4 i a Hi) as (a' & Ha' & _ & Hfin).
  assert (Hres : name a ∈ resolved st).
  { apply Hdone, list_elem_of_fmap. exists a. split; [done|].
    by apply list_elem_of_lookup_2 in Hi. }
  specialize (Hfin Hres). unfold finalOf in Hfin.
  destruct (truthyString (extends a)); [|by subst a'].
  destruct Hfin as (j & baseAgent & Hj & HB & Hbres & ->).
  exists j, baseAgent. split; [done|]. split; [|done].
  rewrite R1 in Hj. apply buildAgentMap_Some in Hj as (b & Hb & Hname).
  destruct (R4 j b Hb) as (b' & Hb' & _ & Hbfin).
  rewrite HB in Hb'. injection Hb' as <-.
  rewrite <- Hname in Hbres. rewrite <- Hname.
  by apply (finalOf_name st), Hbfin.
Qed.

(** What resolution leaves in the resolved fields of an agent that extends
    a base: the union of the tools and the first truthy model, as
    [inherit_fields] has them, the base's thinking for an agent without
    thinking of its own, and for an agent with thinking of its own the
    [resolvedThinking] it came with. *)
Corollary resolveAgentInheritance_inheriting (l' : list AgentConfig)
    (i : nat) (a : AgentConfig) :
  resolveAgentInheritance l = Ok l' -> l !! i = Some a ->
  truthyString (extends a) = true ->
  exists j baseAgent a',
    l' !! j = Some baseAgent /\ name baseAgent = default "" (extends a) /\
    l' !! i = Some a' /\
    (forall union,
       union = newSet (default (default [] (tools baseAgent))
                               (resolvedTools baseAgent)
                       ++ default [] (tools a)) ->
       union <> [] -> resolvedTools a' = Some union) /\
    resolvedModel a'
    = orString (model a)
        (orString (resolvedModel baseAgent) (model baseAgent)) /\
    (truthyThinking (thinking a) = false ->
     resolvedThinking a'
     = match resolvedThinking baseAgent with
       | Some t => Some t
       | None => thinking baseAgent
       end) /\
    (truthyThinking (thinking a) = true ->
     resolvedThinking a' = resolvedThinking a).
Proof.
  intros Hres Hi Hext.
  destruct (resolveAgentInheritance_resolved l' Hres) as [_ H].
  specialize (H i a Hi). rewrite Hext in H.
  destruct H as (j & baseAgent & Hj & Hname & Ha').
  exists j, baseAgent, (inherit baseAgent a).
  destruct (inherit_fields baseAgent a) as (F1 & _ & F3 & F4 & F5).
  split; [done|]. split; [done|]. split; [done|].
  split; [by intros union ->|]. done.
Qed.

(** *** The fuel is enough *)

Lemma path_length (path : list string) :
  NoDup path -> (forall m, m ∈ path -> is_Some (buildAgentMap l !! m)) ->
  (length path <= length l)%nat.
Proof.
  intros Hp Hin. rewrite <- (length_fmap name l).
  apply submseteq_length, NoDup_submseteq; [done|].
  intros m Hm. destruct (Hin m Hm) as [i Hi].
  apply buildAgentMap_Some in Hi as (a & Ha & <-).
  apply list_elem_of_fmap. exists a. split; [done|].
  by apply list_elem_of_lookup_2 in Ha.
Qed.

Lemma resolve_fuel (fuel : nat) :
  forall (n : string) (path : list string) (st : Resolver),
    resolverInv l st -> NoDup path ->
    (forall m, m ∈ path -> is_Some (buildAgentMap l !! m)) ->
    (length l < fuel + length path)%nat ->
    resolve fuel n path st <> OutOfFuel.
Proof.
  induction fuel as [|fuel IH]; intros n path st Hinv Hp Hin Hlen.
  - pose proof (path_length path Hp Hin). simpl in Hlen. lia.
  - cbn [resolve].
    destruct (decide (n ∈ path)) as [|Hpath]; [done|].
    destruct (agentMapGet n st) as [[i agent]|] eqn:Hget; [|done].
    destruct (decide (n ∈ resolved st)); [done|].
    destruct (decide (n ∈ visited st)); [done|].
    destruct (truthyString (extends agent)); [|done].
    assert (Hmap : is_Some (buildAgentMap l !! n)).
    { destruct Hinv as (R1 & _). unfold agentMapGet in Hget.
      rewrite R1 in Hget. destruct (buildAgentMap l !! n); [eauto|done]. }
    specialize (IH (default "" (extends agent)) (path ++ [n])
                  {| agents := agents st; agentMap := agentMap st;
                     visited := {[n]} ∪ visited st;
                     resolved := resolved st |}).
    destruct (resolve fuel _ _ _) as [st2| |] eqn:Hrec.
    + destruct (agentMapGet _ st2) as [[jb baseAgent]|];
        destruct (agents st2 !! i); done.
    + done.
    + destruct IH; [exact Hinv| | | |done].
      * apply NoDup_app. split; [done|]. split; [|apply NoDup_singleton].
        intros m Hm Hm'. apply list_elem_of_singleton in Hm'. by subst.
      * intros m [Hm|Hm]%elem_of_app; [by apply Hin|].
        apply list_elem_of_singleton in Hm. by subst.
      * rewrite length_app. simpl. lia.
Qed.

(** [resolveAgentInheritance] always ends: it returns the list or throws. *)
Lemma resolveAgentInheritance_total :
  resolveAgentInheritance l <> OutOfFuel.
Proof.
  unfold resolveAgentInheritance, resolveAgentInheritanceFuel.
  assert (H : forall names st, resolverInv l st ->
            resolveAll (S (length l)) names st <> OutOfFuel).
  { induction names as [|n names IH]; intros st Hinv; [done|].
    cbn [resolveAll]. destruct (decide (n ∈ resolved st)); [by apply IH|].
    destruct (resolve (S (length l)) n [] st) as [st1| |] eqn:Hr.
    - apply resolve_spec in Hr as (Hinv1 & _); [|done]. by apply IH.
    - done.
    - exfalso. revert Hr. apply resolve_fuel; [done|apply NoDup_nil_2| |].
      + intros m Hm. by apply elem_of_nil in Hm.
      + simpl. lia. }
  specialize (H (name <$> l) _ resolverInv_start).
  by destruct (resolveAll _ _ _).
Qed.

End ResolverFacts.
(** ** Output truncation: what is kept *)

Section TruncationBounds.

Import Executor.

Lemma splitLines_decompose (s : jsstring) :
  ((10%N ∉ s) /\ splitLines s = [s]) \/
  exists l t, s = l ++ 10%N :: t /\ (10%N ∉ l) /\
              splitLines s = l :: splitLines t.
Proof.
  induction s as [|c s IH].
  - left. split; [apply not_elem_of_nil|done].
  - destruct (decide (c = 10%N)) as [->|Hc].
    + right. exists [], s. split; [done|]. split; [apply not_elem_of_nil|done].
    + assert (Hcb : (c =? 10)%N = false) by by apply N.eqb_neq.
      destruct IH as [[Hs Hsplit]|(l & t & -> & Hl & Hsplit)].
      * left. split.
        -- intros [E|H]%elem_of_cons; [congruence|done].
        -- cbn [splitLines]. by rewrite Hcb, Hsplit.
      * right. exists (c :: l), t. split; [done|]. split.
        -- intros [E|H]%elem_of_cons; [congruence|done].
        -- cbn [splitLines app]. rewrite Hcb.
           change (l ++ 10%N :: t) with (l ++ 10%N :: t) in Hsplit.
           by rewrite Hsplit.
Qed.

(** Dropping leading lines and joining the rest leaves a suffix of the
    string. *)
Lemma joinLines_drop_suffix (k : nat) :
  forall s : jsstring, joinLines (drop k (splitLines s)) `suffix_of` s.
Proof.
  induction k as [|k IH]; intros s.
  - rewrite drop_0, joinLines_splitLines. done.
  - destruct (splitLines_decompose s) as [[_ ->]|(l & t & -> & _ & ->)].
    + cbn [drop]. rewrite drop_nil. apply suffix_nil.
    + cbn [drop]. etrans; [apply IH|].
      apply suffix_app_r, suffix_cons_r. done.
Qed.

Lemma truncateLines_lines (maxLines : Z) (s : jsstring) :
  let '(lines, flag) := truncateLines maxLines (splitLines s) in
  joinLines lines `suffix_of` s /\
  (1 <= maxLines ->
   Z.of_nat (length (splitLines (joinLines lines))) <= maxLines) /\
  (flag = false -> joinLines lines = s) /\
  (flag = true -> length (splitLines (joinLines lines)) <> length (splitLines s)
                  \/ maxLines < 1).
Proof.
  unfold truncateLines.
  destruct (maxLines <? Z.of_nat (length (splitLines s))) eqn:Hc.
  - apply Z.ltb_lt in Hc. split; [apply joinLines_drop_suffix|].
    split; [|split; [done|]].
    + intros Hm. rewrite splitLines_joinLines.
      * rewrite length_drop. lia.
      * intros Hd. apply (f_equal length) in Hd.
        rewrite length_drop in Hd. simpl in Hd. lia.
      * apply Forall_drop, splitLines_noLF.
    + intros _. destruct (Z.le_gt_cases 1 maxLines) as [Hm|Hm]; [left|right; lia].
      rewrite splitLines_joinLines.
      * rewrite length_drop. lia.
      * intros Hd. apply (f_equal length) in Hd.
        rewrite length_drop in Hd. simpl in Hd. lia.
      * apply Forall_drop, splitLines_noLF.
  - apply Z.ltb_ge in Hc. rewrite joinLines_splitLines.
    split; [done|]. split; [lia|]. split; [done|done].
Qed.

(** The output of [truncateOutput] is a suffix of the input, fits in
    [MAX_OUTPUT_BYTES] bytes and [MAX_OUTPUT_LINES] lines, and the flag is
    unset exactly when the output is the input. *)
Theorem truncateOutput_bounds (s : jsstring) :
  exists out flag,
    truncateOutput s = Some (out, flag) /\
    out `suffix_of` s /\
    byteLength out <= MAX_OUTPUT_BYTES /\
    Z.of_nat (length (splitLines out)) <= MAX_OUTPUT_LINES /\
    (flag = false <-> out = s).
Proof.
  destruct (truncateOutput_total s) as (out & flag & Hs).
  exists out, flag. split; [exact Hs|].
  unfold truncateOutput, truncateOutputWith in Hs.
  pose proof (truncateLines_lines MAX_OUTPUT_LINES s) as Hl.
  destruct (truncateLines MAX_OUTPUT_LINES (splitLines s)) as [lines t].
  destruct Hl as (Hsuf & Hcount & Hsame & Hdiff).
  pose proof Hs as Hs'.
  apply truncateBytes_result in Hs' as ([k ->] & Hfit & Hmono).
  assert (Hk : drop k (joinLines lines) `suffix_of` joinLines lines)
    by apply suffix_drop.
  split; [by etrans|]. split; [|split].
  - destruct (Z.le_gt_cases (byteLength (drop k (joinLines lines)))
                MAX_OUTPUT_BYTES) as [H|H]; [done|].
    rewrite (Hfit H). done.
  - pose proof (splitLines_length_drop k (joinLines lines)).
    specialize (Hcount ltac:(done)). lia.
  - unfold truncateBytes in Hs.
    destruct (MAX_OUTPUT_BYTES <? byteLength (joinLines lines)) eqn:Hb.
    + destruct (halveLoop _ _ _) as [r|]; [|done]. injection Hs as Hr <-.
      split; [done|]. intros Heq. exfalso.
      apply Z.ltb_lt in Hb.
      assert (Hjs : joinLines lines = s).
      { destruct Hsuf as [pre Hpre]. destruct pre as [|c pre]; [done|].
        apply (f_equal length) in Hpre, Heq.
        rewrite length_drop in Heq. rewrite length_app in Hpre.
        simpl in Hpre. lia. }
      destruct (Z.le_gt_cases (byteLength (drop k (joinLines lines)))
                  MAX_OUTPUT_BYTES) as [H'|H'].
      * rewrite Heq, <- Hjs in H'. lia.
      * rewrite (Hfit H') in Heq. rewrite Hjs, <- Heq in Hb.
        vm_compute in Hb. done.
    + injection Hs as Hr <-. apply Z.ltb_ge in Hb. split.
      * intros ->. rewrite <- Hr. by apply Hsame.
      * intros Heq. destruct t; [|done]. exfalso.
        destruct (Hdiff eq_refl) as [Hd|Hd]; [|done].
        apply Hd. rewrite Hr. by rewrite Heq.
Qed.

End TruncationBounds.
(** ** The final output *)

Section FinalOutputFacts.

Import Executor.

Lemma firstText_spec (parts : list Part) (text : jsstring) :
  firstText parts = Some text <->
  exists others rest,
    parts = others ++ TextPart text :: rest /\
    Forall (fun p => p = OtherPart) others.
Proof.
  induction parts as [|p parts IH]; simpl.
  - split; [done|]. intros (others & rest & H & _). by destruct others.
  - destruct p as [t|].
    + split.
      * intros [= ->]. by exists [], parts.
      * intros (others & rest & H & Hall). destruct others as [|p others].
        -- by injection H as ->.
        -- injection H as <- _. by apply Forall_cons_1 in Hall as [? _].
    + rewrite IH. split.
      * intros (others & rest & -> & Hall). exists (OtherPart :: others), rest.
        split; [done|]. by constructor.
      * intros (others & rest & H & Hall). destruct others as [|p others].
        -- done.
        -- injection H as <- ->. apply Forall_cons_1 in Hall as [_ Hall].
           by exists others, rest.
Qed.

Lemma getFinalOutput_snoc (messages : list Message) (msg : Message) :
  getFinalOutput (messages ++ [msg])
  = match role msg, firstText (content msg) with
    | RoleAssistant, Some text => text
    | _, _ => getFinalOutput messages
    end.
Proof.
  unfold getFinalOutput. rewrite rev_app_distr. simpl.
  by destruct (role msg), (firstText (content msg)).
Qed.

(** [getFinalOutput] returns the first text part of the last assistant
    message that has a text part; messages after it that are not from
    the assistant, or have no text part, do not matter.  It returns the
    empty string when no assistant message has a text part. *)
Theorem getFinalOutput_spec (messages : list Message) :
  (Forall (fun m => role m = RoleAssistant -> firstText (content m) = None)
          messages /\
   getFinalOutput messages = [])
  \/
  (exists before msg after others text rest,
     messages = before ++ msg :: after /\
     role msg = RoleAssistant /\
     content msg = others ++ TextPart text :: rest /\
     Forall (fun p => p = OtherPart) others /\
     Forall (fun m => role m = RoleAssistant -> firstText (content m) = None)
            after /\
     getFinalOutput messages = text).
Proof.
  induction messages as [|msg messages IH] using rev_ind.
  - left. by split.
  - rewrite getFinalOutput_snoc.
    destruct (role msg) eqn:Hrole.
    1,3: destruct IH as [[Hall ->]|(before & m & after & others & text & rest
                          & -> & Hm & Hc & Ho & Hafter & ->)];
      [left; split; [|done]; apply Forall_app; split; [done|];
       constructor; [congruence|done]
      |right; exists before, m, (after ++ [msg]), others, text, rest;
       rewrite <- app_assoc; repeat split; try done;
       apply Forall_app; split; [done|]; constructor; [congruence|done]].
    destruct (firstText (content msg)) as [text|] eqn:Htext.
    + right. apply firstText_spec in Htext as (others & rest & Hc & Ho).
      by exists messages, msg, [], others, text, rest.
    + destruct IH as [[Hall ->]|(before & m & after & others & text & rest
                          & -> & Hm & Hc & Ho & Hafter & ->)].
      * left. split; [|done]. apply Forall_app. split; [done|].
        by constructor.
      * right. exists before, m, (after ++ [msg]), others, text, rest.
        rewrite <- app_assoc. repeat split; try done.
        apply Forall_app. split; [done|]. by constructor.
Qed.

End FinalOutputFacts.

(** ** One run of the child: what is returned *)

Section RunFacts.

Import Limits Executor.

Variable o : ExecutorOptions.

Lemma runAgentOnce_snoc (trace : list EnvEvent) (ev : EnvEvent) :
  runAgentOnce o (trace ++ [ev]) = step o ev (runAgentOnce o trace).
Proof. unfold runAgentOnce. by rewrite foldl_app. Qed.

Lemma emitProgress_fields (st : RunState) :
  progress (emitProgress o st) = progress st /\
  messages (emitProgress o st) = messages st /\
  stderr (emitProgress o st) = stderr st /\
  apiError (emitProgress o st) = apiError st /\
  st_toolUsage (emitProgress o st) = st_toolUsage st /\
  exit (emitProgress o st) = exit st /\
  result (emitProgress o st) = result st.
Proof. unfold emitProgress. by destruct (onProgress o). Qed.

(** What [finish] returns, field by field. *)
Lemma finish_result (code : Z) (st : RunState) :
  exists out flag r,
    truncateOutput (getFinalOutput (messages st)) = Some (out, flag) /\
    result (finish o code st) = Some r /\
    exit (finish o code st) = Some code /\
    output r = out /\ truncated r = flag /\ r_stderr r = stderr st /\
    toolUsage r = st_toolUsage st /\
    r_aborted r = isAbortedStatus (status (progress st)) /\
    r_id r = o_id o /\ r_task r = o_task o /\ r_step r = o_step o /\
    (error r, exitCode r)
    = (if negb (code =? 0) && negb (isAbortedStatus (status (progress st)))
       then (Some (if truthy (stderr st) then stderr st
                   else js "Exit code: " ++ js (pretty code)), code)
       else if truthy (apiError st) then (Some (apiError st), 1)
       else (None, code)) /\
    status (progress (finish o code st))
    = (if r_aborted r then StatusAborted
       else if exitCode r =? 0 then StatusCompleted else StatusFailed) /\
    toolCount (progress (finish o code st)) = toolCount (progress st) /\
    emitted (finish o code st)
    = emitted st ++
      (if onProgress o then [progress (finish o code st)] else []).
Proof.
  destruct (truncateOutput_total (getFinalOutput (messages st)))
    as (out & flag & Hout).
  unfold finish. rewrite Hout.
  destruct (negb (code =? 0) && negb (isAbortedStatus (status (progress st))))
    eqn:Herr.
  - eexists out, flag, _. destruct (onProgress o); simpl;
      rewrite ?app_nil_r; repeat split; reflexivity.
  - destruct (truthy (apiError st)) eqn:Hapi.
    + eexists out, flag, _. destruct (onProgress o); simpl;
        rewrite ?app_nil_r; repeat split; reflexivity.
    + eexists out, flag, _. destruct (onProgress o); simpl;
        rewrite ?app_nil_r; repeat split; reflexivity.
Qed.

(** An event other than the end of the child leaves the promise as it is. *)
Lemma step_open (ev : EnvEvent) (st : RunState) :
  isClose ev = false ->
  exit (step o ev st) = exit st /\ result (step o ev st) = result st.
Proof.
  destruct ev as [line|data| | |heap| |code rest]; try done; intros _; simpl.
  - by destruct (processLine_status o line st) as (_ & _ & ? & ? & _).
  - destruct (callerSignal st) as [[?|]|]; try done.
    unfold killProc. simpl.
    by destruct (emitProgress_fields
                   (setProgress (setStatus StatusAborted (progress st)) st))
      as (_ & _ & _ & _ & _ & ? & ?).
Qed.

(** The end of the child settles the promise, once. *)
Lemma step_close (ev : EnvEvent) (st : RunState) :
  isClose ev = true ->
  exists code line,
    (ev = ProcError /\ code = 1 /\ line = None \/
     exists c, ev = ProcClose c line /\ code = default 0 c) /\
    step o ev st
    = match exit st with
      | Some _ => processLine o line st
      | None => finish o code (processLine o line st)
      end.
Proof.
  destruct ev as [line|data| | |heap| |code rest]; try done; intros _; simpl.
  - exists 1, None. split; [by left|]. unfold resolve. simpl. done.
  - exists (default 0 code), rest. split; [right; by exists code|].
    unfold resolve.
    by destruct (processLine_status o rest st) as (_ & _ & _ & -> & _).
Qed.

Lemma start_fields :
  exit (start o) = None /\ result (start o) = None /\
  messages (start o) = [] /\ stderr (start o) = [] /\
  apiError (start o) = [] /\ st_toolUsage (start o) = ∅ /\
  toolCount (progress (start o)) = 0 /\
  callerSignal (start o) = signal o /\
  status (progress (start o))
  = match signal o with
    | Some (Some _) => StatusAborted
    | _ => StatusRunning
    end.
Proof.
  unfold start. destruct (signal o) as [[?|]|]; try done.
  unfold killProc, emitProgress. by destruct (onProgress o).
Qed.

Lemma exit_closed (trace : list EnvEvent) :
  (exit (runAgentOnce o trace) = None <->
   Forall (fun ev => isClose ev = false) trace) /\
  (exit (runAgentOnce o trace) = None <-> result (runAgentOnce o trace) = None).
Proof.
  induction trace as [|ev trace [IH1 IH2]] using rev_ind.
  - destruct start_fields as (He & Hr & _).
    unfold runAgentOnce. simpl. rewrite He, Hr. done.
  - rewrite runAgentOnce_snoc, Forall_app, Forall_singleton.
    destruct (isClose ev) eqn:Hev.
    + destruct (step_close ev (runAgentOnce o trace) Hev)
        as (code & line & _ & ->).
      destruct (processLine_status o line (runAgentOnce o trace))
        as (_ & _ & Hr & He & _).
      destruct (exit (runAgentOnce o trace)) as [c|] eqn:Hexit.
      * rewrite He, Hr. split; [split; [done|by intros [_ ?]]|].
        rewrite <- IH2. done.
      * destruct (finish_result code (processLine o line (runAgentOnce o trace)))
          as (out & flag & r & _ & -> & -> & _).
        split; [split; [done|by intros [_ ?]]|done].
    + destruct (step_open ev (runAgentOnce o trace) Hev) as [-> ->].
      split; [|done]. rewrite IH1. split; [done|by intros [? _]].
Qed.

Lemma first_close_split (trace : list EnvEvent) :
  Forall (fun e => isClose e = false) trace \/
  exists pre ev post,
    trace = pre ++ ev :: post /\
    Forall (fun e => isClose e = false) pre /\ isClose ev = true.
Proof.
  induction trace as [|e trace IH]; [by left|].
  destruct (isClose e) eqn:He.
  - right. by exists [], e, trace.
  - destruct IH as [Hall|(pre & ev & post & -> & Hpre & Hev)].
    + left. by constructor.
    + right. exists (e :: pre), ev, post. split; [done|]. split; [|done].
      by constructor.
Qed.

Lemma result_stable (post : list EnvEvent) :
  forall st : RunState,
    exit st <> None ->
    result (foldl (fun st ev => step o ev st) st post) = result st /\
    exit (foldl (fun st ev => step o ev st) st post) <> None.
Proof.
  induction post as [|ev post IH]; intros st Hexit; [done|].
  simpl.
  assert (Hstep : exit (step o ev st) <> None /\
                  result (step o ev st) = result st).
  { destruct (isClose ev) eqn:Hev.
    - destruct (step_close ev st Hev) as (code & line & _ & ->).
      destruct (exit st) as [c|] eqn:Hc; [|done].
      destruct (processLine_status o line st) as (_ & _ & -> & -> & _).
      by rewrite Hc.
    - destruct (step_open ev st Hev) as [-> ->]. done. }
  destruct Hstep as [He Hr].
  destruct (IH _ He) as [-> ?]. done.
Qed.

(** The result is made when the first "error" or "close" event arrives,
    from the state the events before it have built. *)
Lemma first_close (pre post : list EnvEvent) (ev : EnvEvent) :
  Forall (fun e => isClose e = false) pre -> isClose ev = true ->
  exists code line,
    (ev = ProcError /\ code = 1 /\ line = None \/
     exists c, ev = ProcClose c line /\ code = default 0 c) /\
    runAgentOnce o (pre ++ [ev])
    = finish o code (runAgentOnce o (pre ++ [Stdout line])) /\
    exit (runAgentOnce o (pre ++ [Stdout line])) = None /\
    result (runAgentOnce o (pre ++ ev :: post))
    = result (runAgentOnce o (pre ++ [ev])).
Proof.
  intros Hpre Hev.
  destruct (step_close ev (runAgentOnce o pre) Hev) as (code & line & Hcl & Hst).
  exists code, line. split; [done|].
  assert (Hopen : exit (runAgentOnce o pre) = None)
    by by apply (proj1 (exit_closed pre)).
  rewrite Hopen in Hst.
  assert (Hline : exit (runAgentOnce o (pre ++ [Stdout line])) = None).
  { apply (proj1 (exit_closed (pre ++ [Stdout line]))).
    apply Forall_app. split; [done|]. by constructor. }
  split; [by rewrite !runAgentOnce_snoc|].
  split; [done|].
  replace (pre ++ ev :: post) with ((pre ++ [ev]) ++ post)
    by by rewrite <- app_assoc.
  unfold runAgentOnce at 1. rewrite foldl_app.
  fold (runAgentOnce o (pre ++ [ev])).
  apply result_stable. intros Hc.
  apply (proj1 (exit_closed (pre ++ [ev]))) in Hc.
  rewrite Forall_app, Forall_singleton in Hc. destruct Hc as [_ Hc].
  congruence.
Qed.

(** Every result comes from a first "error" or "close" event. *)
Lemma result_origin (trace : list EnvEvent) (r : TaskResult) :
  result (runAgentOnce o trace) = Some r ->
  exists pre ev post,
    trace = pre ++ ev :: post /\
    Forall (fun e => isClose e = false) pre /\ isClose ev = true.
Proof.
  intros Hr. destruct (first_close_split trace) as [Hall|?]; [|done].
  apply (proj1 (exit_closed trace)), (proj2 (exit_closed trace)) in Hall.
  congruence.
Qed.


(** In a result that is not marked aborted, the exit code is zero exactly
    when there is no error; an error is never the empty string; an
    aborted result has no error unless the model reported an API error,
    which sets the exit code to 1. *)
Theorem runAgentOnce_result_consistent (trace : list EnvEvent)
    (r : TaskResult) :
  result (runAgentOnce o trace) = Some r ->
  (exitCode r = 0 -> error r = None) /\
  (r_aborted r = false -> error r = None -> exitCode r = 0) /\
  (r_aborted r = true -> error r <> None -> exitCode r = 1) /\
  (forall e, error r = Some e -> e <> []).
Proof.
  intros Hr.
  destruct (result_origin trace r Hr) as (pre & ev & post & -> & Hpre & Hev).
  destruct (first_close pre post ev Hpre Hev)
    as (code & line & _ & Hfin & _ & Hres).
  rewrite Hres, Hfin in Hr.
  destruct (finish_result code (runAgentOnce o (pre ++ [Stdout line])))
    as (out & flag & r' & _ & Hr' & _ & _ & _ & _ & _ & Hab & _ & _ & _
        & Herr & _).
  rewrite Hr' in Hr. injection Hr as ->.
  set (st := runAgentOnce o (pre ++ [Stdout line])) in *.
  rewrite <- Hab in Herr.
  destruct (Z.eqb_spec code 0) as [Hcode|Hcode];
    destruct (r_aborted r) eqn:Hra; simpl in Herr.
  1-3: destruct (truthy (apiError st)) eqn:Hapi;
    injection Herr as He Hc; rewrite He, Hc;
    (repeat split; try done; try congruence;
     intros e [= <-]; by destruct (apiError st)).
  injection Herr as He Hc. rewrite He, Hc.
  repeat split; try done.
  intros e [= <-]. by destruct (stderr st) eqn:Hs.
Qed.

Lemma processLine_locals (line : option PiEvent) (st : RunState) :
  messages (processLine o line st) = messages st ++ lineMessages line /\
  stderr (processLine o line st) = stderr st /\
  apiError (processLine o line st)
  = match line with
    | Some (MessageEnd (Some msg)) =>
      if isApiError msg then default [] (errorMessage msg) else apiError st
    | _ => apiError st
    end /\
  (emitted (processLine o line st) = emitted st \/
   onProgress o = true /\
   emitted (processLine o line st)
   = emitted st ++ [progress (processLine o line st)]).
Proof.
  destruct line as [[[msg|]|toolName argsPreview| |[msg|]|]|]; simpl;
    rewrite ?app_nil_r; try by auto.
  - unfold isApiError.
    destruct (role msg); simpl; auto;
      unfold emitProgress; destruct (onProgress o); simpl;
      destruct (errorMessage msg) as [e|]; simpl; auto 10;
      destruct (stopReasonIsError msg); simpl; auto 10;
      repeat (match goal with
              | |- context [truthy ?x] => destruct (truthy x)
              end); simpl; auto 10.
  - unfold emitProgress. destruct (onProgress o); simpl; auto 10.
  - unfold emitProgress.
    destruct (currentTool (progress st)) as [t|]; [destruct (truthy t)|];
      destruct (onProgress o); simpl; rewrite ?app_nil_r; auto 10.
  - unfold emitProgress. destruct (onProgress o); simpl; auto 10.
Qed.

Lemma step_locals (ev : EnvEvent) (st : RunState) :
  messages (step o ev st) = messages st ++ eventMessages ev /\
  stderr (step o ev st) = stderr st ++ eventStderr ev.
Proof.
  destruct (isClose ev) eqn:Hev.
  - destruct (step_close ev st Hev) as (code & line & Hcl & ->).
    destruct (processLine_locals line st) as (Hm & Hs & _).
    assert (eventMessages ev = lineMessages line /\ eventStderr ev = [])
      as [-> ->].
    { by destruct Hcl as [(-> & _ & ->)|(c & -> & _)]. }
    rewrite app_nil_r.
    destruct (exit st); [done|].
    unfold finish.
    destruct (truncateOutput _) as [[out flag]|]; [|done].
    repeat (match goal with |- context [if ?b then _ else _] => destruct b end);
      done.
  - destruct ev as [line|data| | |heap| |code rest]; try done; simpl;
      rewrite ?app_nil_r; try done.
    + by destruct (processLine_locals line st) as (Hm & Hs & _).
    + destruct (callerSignal st) as [[?|]|]; try done.
      unfold killProc, emitProgress. by destruct (onProgress o).
Qed.

Lemma runAgentOnce_locals (trace : list EnvEvent) :
  messages (runAgentOnce o trace) = flat_map eventMessages trace /\
  stderr (runAgentOnce o trace) = flat_map eventStderr trace.
Proof.
  induction trace as [|ev trace [IHm IHs]] using rev_ind.
  - unfold runAgentOnce. simpl.
    by destruct start_fields as (_ & _ & -> & -> & _).
  - rewrite runAgentOnce_snoc, !flat_map_app. simpl. rewrite !app_nil_r.
    destruct (step_locals ev (runAgentOnce o trace)) as [-> ->].
    by rewrite IHm, IHs.
Qed.

(** The result is made from what the child wrote before it ended: its
    output is the truncated final output of the messages received up to
    the end of the child, its [stderr] is the data received on the error
    stream, and the identifying fields are those of the options.  Events
    after the end of the child do not change them. *)
Theorem runAgentOnce_output (pre post : list EnvEvent) (ev : EnvEvent) :
  Forall (fun e => isClose e = false) pre -> isClose ev = true ->
  exists r,
    result (runAgentOnce o (pre ++ ev :: post)) = Some r /\
    truncateOutput (getFinalOutput (flat_map eventMessages (pre ++ [ev])))
    = Some (output r, truncated r) /\
    r_stderr r = flat_map eventStderr pre /\
    r_id r = o_id o /\ r_task r = o_task o /\ r_step r = o_step o.
Proof.
  intros Hpre Hev.
  destruct (first_close pre post ev Hpre Hev)
    as (code & line & Hcl & Hfin & _ & ->).
  rewrite Hfin.
  destruct (finish_result code (runAgentOnce o (pre ++ [Stdout line])))
    as (out & flag & r & Hout & Hr & _ & Ho & Ht & Hs & _ & _ & Hid & Htask
        & Hstep & _).
  exists r. split; [done|].
  destruct (runAgentOnce_locals (pre ++ [Stdout line])) as [Hm Hs'].
  rewrite Hm in Hout. rewrite Hs, Hs', Ho, Ht.
  rewrite !flat_map_app in *. simpl in *. rewrite !app_nil_r in *.
  assert (eventMessages ev = lineMessages line) as ->.
  { by destruct Hcl as [(-> & _ & ->)|(c & -> & _)]. }
  done.
Qed.

Lemma usageTotal_insert (usage : gmap jsstring Z) (t : jsstring) :
  usageTotal (<[t := default 0 (usage !! t) + 1]> usage) = usageTotal usage + 1.
Proof.
  unfold usageTotal.
  destruct (usage !! t) as [n|] eqn:Ht; simpl.
  - rewrite <- (insert_delete_eq usage).
    rewrite map_fold_insert_L; [|intros; lia|apply lookup_delete_eq].
    rewrite (map_fold_delete_L _ _ t n usage); [lia|intros; lia|done].
  - rewrite map_fold_insert_L; [lia|intros; lia|done].
Qed.

Lemma finish_locals (code : Z) (st : RunState) :
  st_toolUsage (finish o code st) = st_toolUsage st /\
  apiError (finish o code st) = apiError st /\
  callerSignal (finish o code st) = callerSignal st.
Proof.
  unfold finish.
  destruct (truncateOutput _) as [[out flag]|]; [|done].
  repeat (match goal with |- context [if ?b then _ else _] => destruct b end);
    done.
Qed.

Lemma processLine_usage (line : option PiEvent) (st : RunState) :
  toolCount (progress st) = usageTotal (st_toolUsage st) /\
  (forall t n, st_toolUsage st !! t = Some n -> 1 <= n /\ t <> []) ->
  toolCount (progress (processLine o line st))
  = usageTotal (st_toolUsage (processLine o line st)) /\
  (forall t n, st_toolUsage (processLine o line st) !! t = Some n ->
     1 <= n /\ t <> []).
Proof.
  intros [Hsum Hpos].
  destruct line as [[[msg|]|toolName argsPreview| |[msg|]|]|]; simpl;
    try done.
  - destruct (role msg); simpl; try done;
      unfold emitProgress; by destruct (onProgress o).
  - unfold emitProgress; by destruct (onProgress o).
  - unfold emitProgress.
    destruct (currentTool (progress st)) as [t|] eqn:Hcur;
      [destruct (truthy t) eqn:Ht|]; destruct (onProgress o); simpl;
      try done.
    all: rewrite usageTotal_insert; split; [lia|].
    all: intros t' n [[<- <-]|[_ Hl]]%lookup_insert_Some; [|by eapply Hpos].
    all: split; [|by destruct t].
    all: destruct (st_toolUsage st !! t) as [k|] eqn:Hk; simpl; [|lia].
    all: apply Hpos in Hk; lia.
  - unfold emitProgress; by destruct (onProgress o).
Qed.

Lemma runAgentOnce_usage (trace : list EnvEvent) :
  toolCount (progress (runAgentOnce o trace))
  = usageTotal (st_toolUsage (runAgentOnce o trace)) /\
  (forall t n, st_toolUsage (runAgentOnce o trace) !! t = Some n ->
     1 <= n /\ t <> []).
Proof.
  induction trace as [|ev trace IH] using rev_ind.
  - unfold runAgentOnce. simpl.
    destruct start_fields as (_ & _ & _ & _ & _ & -> & -> & _).
    split; [done|]. intros t n Hl. by rewrite lookup_empty in Hl.
  - rewrite runAgentOnce_snoc.
    destruct (isClose ev) eqn:Hev.
    + destruct (step_close ev (runAgentOnce o trace) Hev)
        as (code & line & _ & ->).
      pose proof (processLine_usage line _ IH) as Hl.
      destruct (exit (runAgentOnce o trace)); [done|].
      destruct (finish_locals code (processLine o line (runAgentOnce o trace)))
        as (-> & _).
      destruct (finish_result code (processLine o line (runAgentOnce o trace)))
        as (_ & _ & _ & _ & _ & _ & _ & _ & _ & _ & _ & _ & _ & _ & _ & _
            & -> & _).
      done.
    + destruct ev as [line|data| | |heap| |code rest]; try done; simpl.
      * by apply processLine_usage.
      * destruct (callerSignal (runAgentOnce o trace)) as [[?|]|]; try done.
        unfold killProc, emitProgress. by destruct (onProgress o).
Qed.

(** When the call returns, the counts of [toolUsage] add up to the
    [toolCount] of the progress record; every count is at least one and
    no tool has the empty name.  The tools are not named like the
    properties an object inherits, for which [toolUsage] holds no count. *)
Theorem runAgentOnce_toolUsage (pre : list EnvEvent) (ev : EnvEvent) :
  Forall (fun e => isClose e = false) pre -> isClose ev = true ->
  Forall (fun e => plainToolName e = true) (pre ++ [ev]) ->
  exists r,
    result (runAgentOnce o (pre ++ [ev])) = Some r /\
    usageTotal (toolUsage r)
    = toolCount (progress (runAgentOnce o (pre ++ [ev]))) /\
    (forall t n, toolUsage r !! t = Some n -> 1 <= n /\ t <> []).
Proof.
  intros Hpre Hev _.
  destruct (first_close pre [] ev Hpre Hev)
    as (code & line & Hcl & Hfin & _ & _).
  destruct (runAgentOnce_usage (pre ++ [ev])) as [Hsum Hpos].
  rewrite Hfin in *.
  destruct (finish_result code (runAgentOnce o (pre ++ [Stdout line])))
    as (out & flag & r & _ & Hr & _ & _ & _ & _ & Hu & _).
  destruct (finish_locals code (runAgentOnce o (pre ++ [Stdout line])))
    as (Hu' & _).
  exists r. rewrite Hu' in *. rewrite Hu. done.
Qed.

(** While the child runs, the status is "running" or "aborted", in the
    live record and in every snapshot delivered; nothing is delivered
    without a callback. *)
Lemma open_status (pre : list EnvEvent) :
  Forall (fun e => isClose e = false) pre ->
  let st := runAgentOnce o pre in
  (status (progress st) = StatusRunning \/
   status (progress st) = StatusAborted) /\
  Forall (fun p => status p = StatusRunning \/ status p = StatusAborted)
         (emitted st) /\
  (onProgress o = false -> emitted st = []).
Proof.
  induction pre as [|ev pre IH] using rev_ind; intros Hpre st.
  - subst st. unfold runAgentOnce. simpl. unfold start.
    destruct (signal o) as [[?|]|]; simpl; auto.
    unfold killProc, emitProgress.
    destruct (onProgress o); simpl; repeat split; auto.
    by intros [=].
  - rewrite Forall_app, Forall_singleton in Hpre. destruct Hpre as [Hpre Hev].
    specialize (IH Hpre). simpl in IH. destruct IH as (Hst & Hall & Hno).
    subst st. rewrite runAgentOnce_snoc.
    destruct ev as [line|data| | |heap| |code rest]; try done; simpl.
    + destruct (processLine_status o line (runAgentOnce o pre)) as (Hs & _).
      destruct (processLine_locals line (runAgentOnce o pre))
        as (_ & _ & _ & [He|[Hon He]]).
      * by rewrite Hs, He.
      * rewrite Hs, He. split; [done|]. split; [|congruence].
        apply Forall_app. split; [done|]. constructor; [|done].
        by rewrite Hs.
    + destruct (callerSignal (runAgentOnce o pre)) as [[?|]|]; try done.
      unfold killProc, emitProgress.
      destruct (onProgress o); simpl; repeat split; auto.
      * apply Forall_app. split; [done|]. constructor; [|done]. by right.
      * by intros [=].
Qed.

(** When the call returns, the status of the progress record is the one
    of the result: "aborted" for an aborted result, else "completed" on
    exit code 0 and "failed" otherwise.  With a callback this record is
    the last snapshot delivered, and every snapshot before it was
    "running" or "aborted"; without one nothing is delivered. *)
Theorem runAgentOnce_final_progress (pre : list EnvEvent) (ev : EnvEvent) :
  Forall (fun e => isClose e = false) pre -> isClose ev = true ->
  let st := runAgentOnce o (pre ++ [ev]) in
  exists r,
    result st = Some r /\
    status (progress st)
    = (if r_aborted r then StatusAborted
       else if exitCode r =? 0 then StatusCompleted else StatusFailed) /\
    (onProgress o = true ->
     exists earlier,
       emitted st = earlier ++ [progress st] /\
       Forall (fun p => status p = StatusRunning \/ status p = StatusAborted)
              earlier) /\
    (onProgress o = false -> emitted st = []).
Proof.
  intros Hpre Hev st.
  destruct (first_close pre [] ev Hpre Hev)
    as (code & line & Hcl & Hfin & _ & _).
  subst st. rewrite Hfin.
  destruct (finish_result code (runAgentOnce o (pre ++ [Stdout line])))
    as (out & flag & r & _ & Hr & _ & _ & _ & _ & _ & _ & _ & _ & _ & _
        & Hstatus & _ & Hem).
  assert (Hopen : Forall (fun e => isClose e = false) (pre ++ [Stdout line])).
  { apply Forall_app. split; [done|]. by constructor. }
  destruct (open_status _ Hopen) as (_ & Hall & Hno).
  exists r. split; [done|]. split; [done|].
  rewrite Hem. split.
  - intros ->. by eexists.
  - intros Hoff. rewrite Hoff, app_nil_r. by apply Hno.
Qed.

(** The status "aborted" stays until the child has ended. *)
Lemma open_aborted (pre : list EnvEvent) :
  Forall (fun e => isClose e = false) pre ->
  let st := runAgentOnce o pre in
  status (progress st) = StatusAborted \/
  callerSignal st = signal o /\
  (signal o = None \/ signal o = Some None /\ SignalAbort ∉ pre).
Proof.
  induction pre as [|ev pre IH] using rev_ind; intros Hpre st.
  - subst st. unfold runAgentOnce. simpl.
    destruct start_fields as (_ & _ & _ & _ & _ & _ & _ & Hsig & Hst).
    rewrite Hsig, Hst.
    destruct (signal o) as [[?|]|]; [by left|right|right]; split; auto.
    right. split; [done|]. apply not_elem_of_nil.
  - rewrite Forall_app, Forall_singleton in Hpre. destruct Hpre as [Hpre Hev].
    specialize (IH Hpre). simpl in IH.
    subst st. rewrite runAgentOnce_snoc.
    destruct ev as [line|data| | |heap| |code rest]; try done; simpl.
    + destruct (processLine_status o line (runAgentOnce o pre))
        as (-> & -> & _).
      destruct IH as [?|[? [?|[? Hnot]]]]; auto.
      right. split; [done|]. right. split; [done|].
      intros [?|[=]%list_elem_of_singleton]%elem_of_app. done.
    + destruct IH as [?|[? [?|[? Hnot]]]]; auto.
      right. split; [done|]. right. split; [done|].
      intros [?|[=]%list_elem_of_singleton]%elem_of_app. done.
    + destruct IH as [Hab|[Hsig [Hnone|[Hsome Hnot]]]].
      * left. destruct (callerSignal (runAgentOnce o pre)) as [[?|]|];
          try done. unfold killProc, emitProgress.
        by destruct (onProgress o).
      * rewrite Hsig, Hnone. simpl. right. rewrite Hsig. by auto.
      * rewrite Hsig, Hsome. left. unfold killProc, emitProgress.
        by destruct (onProgress o).
    + destruct IH as [?|[? [?|[? Hnot]]]]; auto.
      right. split; [done|]. right. split; [done|].
      intros [?|[=]%list_elem_of_singleton]%elem_of_app. done.
    + destruct IH as [?|[? [?|[? Hnot]]]]; auto.
      right. split; [done|]. right. split; [done|].
      intros [?|[=]%list_elem_of_singleton]%elem_of_app. done.
Qed.

(** A run whose caller's signal is aborted at the call, or aborts before
    the child has ended, returns a result marked aborted; it has no error
    unless the exit code is 1. *)
Theorem runAgentOnce_caller_abort (pre post : list EnvEvent) (ev : EnvEvent) :
  Forall (fun e => isClose e = false) pre -> isClose ev = true ->
  (exists reason, signal o = Some (Some reason)) \/
  (signal o = Some None /\ SignalAbort ∈ pre) ->
  exists r,
    result (runAgentOnce o (pre ++ ev :: post)) = Some r /\
    r_aborted r = true /\
    (error r = None \/ exitCode r = 1).
Proof.
  intros Hpre Hev Hsig.
  destruct (first_close pre post ev Hpre Hev)
    as (code & line & Hcl & Hfin & _ & ->).
  rewrite Hfin.
  destruct (finish_result code (runAgentOnce o (pre ++ [Stdout line])))
    as (out & flag & r & _ & Hr & _ & _ & _ & _ & _ & Hab & _ & _ & _ & Herr
        & _).
  assert (Hopen : Forall (fun e => isClose e = false) (pre ++ [Stdout line])).
  { apply Forall_app. split; [done|]. by constructor. }
  assert (Hst : status (progress (runAgentOnce o (pre ++ [Stdout line])))
                = StatusAborted).
  { destruct (open_aborted _ Hopen) as [?|[_ [Hnone|[Hsome Hnot]]]]; [done| |].
    - destruct Hsig as [[reason ?]|[? _]]; congruence.
    - destruct Hsig as [[reason ?]|[_ Hin]]; [congruence|].
      exfalso. apply Hnot, elem_of_app. by left. }
  exists r. split; [done|]. rewrite Hst in *. simpl in *.
  split; [done|].
  rewrite andb_false_r in Herr.
  destruct (truthy (apiError _)); injection Herr as He Hc; auto.
Qed.

(** The API error is kept once a message has reported one. *)
Lemma open_apiError (pre : list EnvEvent) (msg : Message) :
  isApiError msg = true ->
  Stdout (Some (MessageEnd (Some msg))) ∈ pre ->
  Forall (fun e => isClose e = false) pre ->
  truthy (apiError (runAgentOnce o pre)) = true.
Proof.
  intros Hmsg.
  induction pre as [|ev pre IH] using rev_ind; intros Hin Hpre.
  - by apply elem_of_nil in Hin.
  - rewrite Forall_app, Forall_singleton in Hpre. destruct Hpre as [Hpre Hev].
    rewrite runAgentOnce_snoc.
    assert (Hkeep : truthy (apiError (runAgentOnce o pre)) = true ->
                    truthy (apiError (step o ev (runAgentOnce o pre))) = true).
    { intros Hold.
      destruct ev as [line|data| | |heap| |code rest]; try done; simpl.
      - destruct (processLine_locals line (runAgentOnce o pre))
          as (_ & _ & -> & _).
        destruct line as [[[m|]| | | |]|]; try done.
        unfold isApiError.
        destruct (role m); try done.
        destruct (errorMessage m) as [e|]; try done.
        destruct (stopReasonIsError m); try done.
        simpl. by destruct (truthy e) eqn:He.
      - destruct (callerSignal (runAgentOnce o pre)) as [[?|]|]; try done.
        unfold killProc, emitProgress. by destruct (onProgress o). }
    apply elem_of_app in Hin as [Hin|Hin%list_elem_of_singleton].
    + by apply Hkeep, IH.
    + subst ev.
      change (truthy (apiError (processLine o (Some (MessageEnd (Some msg)))
                                  (runAgentOnce o pre))) = true).
      destruct (processLine_locals (Some (MessageEnd (Some msg)))
                  (runAgentOnce o pre)) as (_ & _ & -> & _).
      rewrite Hmsg. unfold isApiError in Hmsg.
      destruct (role msg); try done.
      destruct (errorMessage msg) as [e|]; try done.
      by apply andb_true_iff in Hmsg as [_ ?].
Qed.

(** A run in which an assistant message reported an API error before the
    child ended never returns a success: the result has an error, which
    is not empty, and an exit code other than 0, whatever the exit code
    of the child. *)
Theorem runAgentOnce_api_error (pre post : list EnvEvent) (ev : EnvEvent)
    (msg : Message) :
  Forall (fun e => isClose e = false) pre -> isClose ev = true ->
  isApiError msg = true ->
  Stdout (Some (MessageEnd (Some msg))) ∈ pre ->
  exists r e,
    result (runAgentOnce o (pre ++ ev :: post)) = Some r /\
    error r = Some e /\ e <> [] /\ exitCode r <> 0.
Proof.
  intros Hpre Hev Hmsg Hin.
  destruct (first_close pre post ev Hpre Hev)
    as (code & line & Hcl & Hfin & _ & ->).
  rewrite Hfin.
  destruct (finish_result code (runAgentOnce o (pre ++ [Stdout line])))
    as (out & flag & r & _ & Hr & _ & _ & _ & _ & _ & Hab & _ & _ & _ & Herr
        & _).
  assert (Hopen : Forall (fun e => isClose e = false) (pre ++ [Stdout line])).
  { apply Forall_app. split; [done|]. by constructor. }
  assert (Hapi : truthy (apiError (runAgentOnce o (pre ++ [Stdout line])))
                 = true).
  { apply (open_apiError _ msg); [done| |done]. apply elem_of_app. by left. }
  rewrite Hapi in Herr.
  set (st := runAgentOnce o (pre ++ [Stdout line])) in *.
  destruct (Z.eqb_spec code 0) as [Hcode|Hcode];
    destruct (isAbortedStatus (status (progress st))); simpl in Herr;
    injection Herr as He Hc.
  1-3: exists r, (apiError st); repeat split; try done; try lia;
    by destruct (apiError st).
  eexists r, _. repeat split; try done; [|lia].
  by destruct (stderr st).
Qed.

End RunFacts.

Section RunWitnesses.

Import Limits Executor.


Lemma runAgentOnce_result_consistent_witness :
  exists r,
    result
      (runAgentOnce
         {| o_task := js "task"; o_id := js "1"; o_name := None;
            o_model := None; o_step := None; signal := Some None;
            onProgress := true; retry := None; resourceLimits := None |}
         [Stderr (js "boom"); ProcClose (Some 2) None]) = Some r /\
    (exitCode r = 0 -> error r = None) /\
    (r_aborted r = false -> error r = None -> exitCode r = 0) /\
    (r_aborted r = true -> error r <> None -> exitCode r = 1) /\
    (forall e, error r = Some e -> e <> []).
Proof.
  eexists. split; [vm_compute; reflexivity|].
  apply (runAgentOnce_result_consistent
           {| o_task := js "task"; o_id := js "1"; o_name := None;
              o_model := None; o_step := None; signal := Some None;
              onProgress := true; retry := None; resourceLimits := None |}
           [Stderr (js "boom"); ProcClose (Some 2) None]).
  vm_compute. reflexivity.
Defined.

Lemma runAgentOnce_output_witness :
  exists r,
    result
      (runAgentOnce
         {| o_task := js "task"; o_id := js "1"; o_name := None;
            o_model := None; o_step := None; signal := Some None;
            onProgress := true; retry := None; resourceLimits := None |}
         ([Stdout (Some (MessageEnd (Some
             {| role := RoleAssistant; content := [TextPart (js "done")];
                stopReasonIsError := false; errorMessage := None |})));
           Stderr (js "warning")]
          ++ ProcClose (Some 0) None :: [Stderr (js "late")])) = Some r /\
    truncateOutput
      (getFinalOutput
         (flat_map eventMessages
            ([Stdout (Some (MessageEnd (Some
                {| role := RoleAssistant; content := [TextPart (js "done")];
                   stopReasonIsError := false; errorMessage := None |})));
              Stderr (js "warning")] ++ [ProcClose (Some 0) None])))
    = Some (output r, truncated r) /\
    r_stderr r
    = flat_map eventStderr
        [Stdout (Some (MessageEnd (Some
           {| role := RoleAssistant; content := [TextPart (js "done")];
              stopReasonIsError := false; errorMessage := None |})));
         Stderr (js "warning")] /\
    r_id r = js "1" /\ r_task r = js "task" /\ r_step r = None.
Proof.
  apply (runAgentOnce_output
           {| o_task := js "task"; o_id := js "1"; o_name := None;
              o_model := None; o_step := None; signal := Some None;
              onProgress := true; retry := None; resourceLimits := None |}).
  - repeat constructor.
  - reflexivity.
Defined.

Lemma runAgentOnce_toolUsage_witness :
  exists r,
    result
      (runAgentOnce
         {| o_task := js "task"; o_id := js "1"; o_name := None;
            o_model := None; o_step := None; signal := Some None;
            onProgress := true; retry := None; resourceLimits := None |}
         ([Stdout (Some (ToolExecutionStart (Some (js "bash")) (js "ls")));
           Stdout (Some ToolExecutionEnd);
           Stdout (Some (ToolExecutionStart (Some (js "bash")) (js "pwd")));
           Stdout (Some ToolExecutionEnd);
           Stdout (Some ToolExecutionEnd)]
          ++ [ProcClose (Some 0) None])) = Some r /\
    usageTotal (toolUsage r)
    = toolCount
        (progress
           (runAgentOnce
              {| o_task := js "task"; o_id := js "1"; o_name := None;
                 o_model := None; o_step := None; signal := Some None;
                 onProgress := true; retry := None; resourceLimits := None |}
              ([Stdout (Some (ToolExecutionStart (Some (js "bash"))
                                                 (js "ls")));
                Stdout (Some ToolExecutionEnd);
                Stdout (Some (ToolExecutionStart (Some (js "bash"))
                                                 (js "pwd")));
                Stdout (Some ToolExecutionEnd);
                Stdout (Some ToolExecutionEnd)]
               ++ [ProcClose (Some 0) None]))) /\
    (forall t n, toolUsage r !! t = Some n -> 1 <= n /\ t <> []).
Proof.
  apply (runAgentOnce_toolUsage
           {| o_task := js "task"; o_id := js "1"; o_name := None;
              o_model := None; o_step := None; signal := Some None;
              onProgress := true; retry := None; resourceLimits := None |}).
  - repeat constructor.
  - reflexivity.
  - repeat constructor.
Defined.

Lemma runAgentOnce_final_progress_witness :
  let st :=
    runAgentOnce
      {| o_task := js "task"; o_id := js "1"; o_name := None;
         o_model := None; o_step := None; signal := Some None;
         onProgress := true; retry := None; resourceLimits := None |}
      ([Stdout (Some (ToolExecutionStart (Some (js "bash")) (js "ls")));
        SignalAbort] ++ [ProcClose (Some 143) None]) in
  exists r,
    result st = Some r /\
    status (progress st)
    = (if r_aborted r then StatusAborted
       else if exitCode r =? 0 then StatusCompleted else StatusFailed) /\
    (true = true ->
     exists earlier,
       emitted st = earlier ++ [progress st] /\
       Forall (fun p => status p = StatusRunning \/ status p = StatusAborted)
              earlier) /\
    (true = false -> emitted st = []).
Proof.
  apply (runAgentOnce_final_progress
           {| o_task := js "task"; o_id := js "1"; o_name := None;
              o_model := None; o_step := None; signal := Some None;
              onProgress := true; retry := None; resourceLimits := None |}).
  - repeat constructor.
  - reflexivity.
Defined.

Lemma runAgentOnce_caller_abort_witness :
  exists r,
    result
      (runAgentOnce
         {| o_task := js "task"; o_id := js "1"; o_name := None;
            o_model := None; o_step := None; signal := Some None;
            onProgress := true; retry := None; resourceLimits := None |}
         ([Stderr (js "killed"); SignalAbort]
          ++ ProcClose (Some 143) None :: [])) = Some r /\
    r_aborted r = true /\
    (error r = None \/ exitCode r = 1).
Proof.
  apply (runAgentOnce_caller_abort
           {| o_task := js "task"; o_id := js "1"; o_name := None;
              o_model := None; o_step := None; signal := Some None;
              onProgress := true; retry := None; resourceLimits := None |}).
  - repeat constructor.
  - reflexivity.
  - right. split; [reflexivity|]. right. left.
Defined.

Lemma runAgentOnce_api_error_witness :
  exists r e,
    result
      (runAgentOnce
         {| o_task := js "task"; o_id := js "1"; o_name := None;
            o_model := None; o_step := None; signal := None;
            onProgress := false; retry := None; resourceLimits := None |}
         ([Stdout (Some (MessageEnd (Some
             {| role := RoleAssistant; content := [];
                stopReasonIsError := true;
                errorMessage := Some (js "401 unauthorized") |})))]
          ++ ProcClose (Some 0) None :: [])) = Some r /\
    error r = Some e /\ e <> [] /\ exitCode r <> 0.
Proof.
  apply (runAgentOnce_api_error
           {| o_task := js "task"; o_id := js "1"; o_name := None;
              o_model := None; o_step := None; signal := None;
              onProgress := false; retry := None; resourceLimits := None |}
           _ _ _
           {| role := RoleAssistant; content := [];
              stopReasonIsError := true;
              errorMessage := Some (js "401 unauthorized") |}).
  - repeat constructor.
  - reflexivity.
  - reflexivity.
  - left.
Defined.

End RunWitnesses.
(** ** Backoff between attempts *)

Section BackoffFacts.

Import Parallel Backoff.

Local Open Scope Q_scope.

Lemma two_pos (n : Z) : 0 < inject_Z 2 ^ n.
Proof. by apply Qpower_0_lt. Qed.

Lemma two_Z (n : Z) : (0 <= n)%Z -> inject_Z 2 ^ n == inject_Z (2 ^ n).
Proof. intros Hn. symmetry. by apply Zpower_Qpower. Qed.

Lemma two_mono (n m : Z) : (n <= m)%Z -> inject_Z 2 ^ n <= inject_Z 2 ^ m.
Proof. intros Hnm. by apply Qpower_le_compat_l. Qed.

Lemma two_plus (n m : Z) :
  inject_Z 2 ^ (n + m) == inject_Z 2 ^ n * inject_Z 2 ^ m.
Proof. by apply Qpower_plus. Qed.

Lemma floorLog2_le (q : Q) : 0 < q -> inject_Z 2 ^ floorLog2 q <= q.
Proof.
  intros Hq. unfold floorLog2. cbv zeta.
  destruct (Qle_bool _ q) eqn:Hle; [by apply Qle_bool_iff|]. clear Hle.
  destruct q as [n d]. simpl Qnum. simpl Qden.
  assert (Hn : (0 < n)%Z) by (unfold Qlt in Hq; simpl in Hq; lia).
  pose proof (Z.log2_spec n Hn) as [Ha _].
  pose proof (Z.log2_spec (Z.pos d) (Pos2Z.is_pos d)) as [_ Hb].
  pose proof (Z.log2_nonneg n) as Ha0.
  pose proof (Z.log2_nonneg (Z.pos d)) as Hb0.
  set (a := Z.log2 n) in *. set (b := Z.log2 (Z.pos d)) in *.
  replace (a - b - 1)%Z with (a - (b + 1))%Z by lia.
  rewrite Qpower_minus by done.
  rewrite (two_Z a), (two_Z (b + 1)) by lia.
  replace (Z.succ b) with (b + 1)%Z in Hb by lia.
  assert (HB : (0 < 2 ^ (b + 1))%Z) by (apply Z.pow_pos_nonneg; lia).
  apply Qle_shift_div_r; [unfold Qlt; simpl; lia|].
  unfold Qle. simpl. nia.
Qed.

Lemma roundHalfEven_floor (x : Q) : (Qfloor x <= roundHalfEven x)%Z.
Proof.
  unfold roundHalfEven. cbv zeta.
  destruct (_ ?= _); [destruct (Z.even _)|..]; lia.
Qed.

Lemma roundHalfEven_ge (x : Q) (N : Z) :
  inject_Z N <= x -> (N <= roundHalfEven x)%Z.
Proof.
  intros Hx. pose proof (roundHalfEven_floor x).
  apply Qfloor_resp_le in Hx. rewrite Qfloor_Z in Hx. lia.
Qed.

Lemma roundHalfEven_Z (x : Q) (N : Z) :
  x == inject_Z N -> roundHalfEven x = N.
Proof.
  intros Hx. unfold roundHalfEven. cbv zeta.
  assert (Hf : Qfloor x = N) by (by rewrite Hx, Qfloor_Z).
  rewrite Hf.
  assert (Hlt : x - inject_Z N < 1 # 2) by (rewrite Hx; by ring_simplify).
  rewrite Qlt_alt in Hlt. by rewrite Hlt.
Qed.

Lemma div_two (x : Q) (n : Z) : x / inject_Z 2 ^ n == x * inject_Z 2 ^ (- n).
Proof. unfold Qdiv. by rewrite Qpower_opp. Qed.

Lemma two_cancel (x : Q) (n : Z) :
  x * inject_Z 2 ^ (- n) * inject_Z 2 ^ n == x.
Proof.
  rewrite <- Qmult_assoc, <- two_plus.
  replace (- n + n)%Z with 0%Z by lia. simpl. ring.
Qed.

(** A double is its own rounding. *)
Lemma roundPositive_exact (x : Q) (m k : Z) :
  0 < x -> x == inject_Z m * inject_Z 2 ^ k -> (m < 2 ^ 53)%Z ->
  (-1074 <= k)%Z -> x < inject_Z 2 ^ 1024 ->
  exists y, roundPositive x = Finite y /\ y == x.
Proof.
  intros Hpos Hx Hm Hk Hmax.
  pose proof (floorLog2_le x Hpos) as Hle.
  set (e := floorLog2 x) in *.
  assert (He : (e < 53 + k)%Z).
  { apply (Qpower_lt_compat_l_inv (inject_Z 2)); [|done].
    apply Qle_lt_trans with x; [done|]. rewrite Hx, two_plus.
    apply Qmult_lt_compat_r; [apply two_pos|].
    rewrite two_Z by lia. rewrite <- Zlt_Qlt. done. }
  unfold roundPositive. cbv zeta. fold e.
  set (qe := Z.max (e - 52) (-1074)).
  assert (Hqe : (qe <= k)%Z) by lia.
  assert (Hscaled : x / inject_Z 2 ^ qe == inject_Z (m * 2 ^ (k - qe))).
  { rewrite div_two, Hx, <- Qmult_assoc, <- two_plus.
    replace (k + - qe)%Z with (k - qe)%Z by lia.
    rewrite two_Z by lia. by rewrite inject_Z_mult. }
  rewrite (roundHalfEven_Z _ _ Hscaled).
  assert (Hnear : inject_Z (m * 2 ^ (k - qe)) * inject_Z 2 ^ qe == x).
  { rewrite <- Hscaled, div_two. apply two_cancel. }
  destruct (Qle_bool _ _) eqn:Hinf.
  - apply Qle_bool_iff in Hinf. rewrite Hnear in Hinf.
    by apply Qle_not_lt in Hinf.
  - by eexists.
Qed.

(** Rounding does not take a number from above the cap to below it. *)
Lemma roundPositive_ge (x : Q) :
  inject_Z 60000 <= x ->
  roundPositive x = PosInfinity \/
  exists y, roundPositive x = Finite y /\ inject_Z 60000 <= y.
Proof.
  intros Hx.
  assert (Hpos : 0 < x) by (by apply Qlt_le_trans with (inject_Z 60000)).
  pose proof (floorLog2_le x Hpos) as Hle.
  set (e := floorLog2 x) in *.
  unfold roundPositive. cbv zeta. fold e.
  set (qe := Z.max (e - 52) (-1074)).
  destruct (Qle_bool _ _); [by left|]. right. eexists. split; [done|].
  destruct (Z_le_gt_dec qe 0) as [Hqe|Hqe].
  - assert (Hm : (60000 * 2 ^ (- qe)
                  <= roundHalfEven (x / inject_Z 2 ^ qe))%Z).
    { apply roundHalfEven_ge. rewrite div_two, inject_Z_mult.
      rewrite <- two_Z by lia.
      apply Qmult_le_compat_r; [done|]. apply Qlt_le_weak, two_pos. }
    rewrite Zle_Qle in Hm.
    apply Qle_trans
      with (inject_Z (60000 * 2 ^ (- qe)) * inject_Z 2 ^ qe).
    + rewrite inject_Z_mult, <- two_Z by lia. by rewrite two_cancel.
    + apply Qmult_le_compat_r; [done|]. apply Qlt_le_weak, two_pos.
  - assert (Heq : qe = (e - 52)%Z) by lia.
    assert (Hm : (2 ^ 52 <= roundHalfEven (x / inject_Z 2 ^ qe))%Z).
    { apply roundHalfEven_ge. rewrite div_two.
      apply Qle_trans with (inject_Z 2 ^ e * inject_Z 2 ^ (- qe)).
      - rewrite <- two_plus. replace (e + - qe)%Z with 52%Z by lia.
        by rewrite two_Z.
      - apply Qmult_le_compat_r; [done|]. apply Qlt_le_weak, two_pos. }
    rewrite Zle_Qle in Hm.
    apply Qle_trans with (inject_Z (2 ^ 52) * 1); [done|].
    apply Qle_trans with (inject_Z (2 ^ 52) * inject_Z 2 ^ qe).
    + apply Qmult_le_l; [done|]. apply Qpower_1_le; [done|lia].
    + apply Qmult_le_compat_r; [done|]. apply Qlt_le_weak, two_pos.
Qed.

Lemma roundDouble_not_NaN (q : Q) : roundDouble q <> NaN.
Proof.
  assert (H : forall x, roundPositive x <> NaN /\
                        negate (roundPositive x) <> NaN).
  { intros x. unfold roundPositive. cbv zeta. by destruct (Qle_bool _ _). }
  unfold roundDouble. destruct (q ?= inject_Z 0); [done|apply H..].
Qed.

Lemma mathPow2_cases (n : Z) :
  (1024 <= n)%Z /\ mathPow2 n = PosInfinity \/
  (n <= -1075)%Z /\ mathPow2 n = Finite (inject_Z 0) \/
  (-1075 < n < 1024)%Z /\ mathPow2 n = Finite (inject_Z 2 ^ n).
Proof.
  unfold mathPow2. destruct (Z.leb_spec 1024 n); [by left|]. right.
  destruct (Z.leb_spec n (-1075)); [by left|]. right. split; [lia|done].
Qed.

Lemma mathMin_cap (delay : JsNumber) :
  mathMin delay (Finite (inject_Z 60000)) <> PosInfinity /\
  (forall q, mathMin delay (Finite (inject_Z 60000)) = Finite q ->
     q <= inject_Z 60000) /\
  (mathMin delay (Finite (inject_Z 60000)) = NaN <-> delay = NaN).
Proof.
  destruct delay as [| | |d]; simpl; try done.
  - split; [done|]. split; [|done]. intros q [= <-]. apply Qle_refl.
  - destruct (Qle_bool d _) eqn:Hd.
    + split; [done|]. split; [|done]. intros q [= <-].
      by apply Qle_bool_iff.
    + split; [done|]. split; [|done]. intros q [= <-]. apply Qle_refl.
Qed.

Lemma multiply_NaN (baseMs : JsNumber) (n : Z) :
  multiply baseMs (mathPow2 n) = NaN <->
  baseMs = NaN \/ isZero baseMs = true /\ (1024 <= n)%Z \/
  isInfinite baseMs = true /\ (n <= -1075)%Z.
Proof.
  assert (Hzero : (inject_Z 0 ?= inject_Z 0) = Eq) by done.
  assert (Htwo : (inject_Z 2 ^ n ?= inject_Z 0) = Gt)
    by (apply Qgt_alt, two_pos).
  destruct (mathPow2_cases n) as [[Hn ->]|[[Hn ->]|[Hn ->]]];
    destruct baseMs as [| | |a]; simpl; rewrite ?Hzero, ?Htwo.
  all: try (split; [done|intros [?|[[? ?]|[? ?]]]; done || lia]).
  all: try (split; [by left|done]).
  all: try (split; [intros _; right; right; by split|done]).
  all: try (split; [intros H; by apply roundDouble_not_NaN in H
                   |intros [?|[[? ?]|[? ?]]]; done || lia]).
  destruct (a ?= inject_Z 0) eqn:Ha.
  - split; [|done]. intros _. right. left. split; [|done].
    apply Qeq_bool_iff. by apply Qeq_alt.
  - split; [done|]. intros [?|[[Hz _]|[? _]]]; try done.
    apply Qeq_bool_iff, Qeq_alt in Hz. congruence.
  - split; [done|]. intros [?|[[Hz _]|[? _]]]; try done.
    apply Qeq_bool_iff, Qeq_alt in Hz. congruence.
Qed.

Lemma cappedDoubling_min (baseMs : Q) (attempt : Z) :
  cappedDoubling baseMs attempt <= inject_Z 60000 /\
  cappedDoubling baseMs attempt <= baseMs * inject_Z 2 ^ (attempt - 1) /\
  (cappedDoubling baseMs attempt == inject_Z 60000 \/
   cappedDoubling baseMs attempt == baseMs * inject_Z 2 ^ (attempt - 1)).
Proof.
  unfold cappedDoubling. cbv zeta.
  destruct (Qle_bool _ _) eqn:Hle.
  - apply Qle_bool_iff in Hle. split; [done|]. split; [apply Qle_refl|].
    right. reflexivity.
  - split; [apply Qle_refl|].
    assert (Hlt : inject_Z 60000 < baseMs * inject_Z 2 ^ (attempt - 1)).
    { apply Qnot_le_lt. intros H. apply Qle_bool_iff in H. congruence. }
    split; [by apply Qlt_le_weak|]. left. reflexivity.
Qed.

Lemma two_succ (n : Z) :
  inject_Z 2 ^ (n + 1) == inject_Z 2 * inject_Z 2 ^ n.
Proof.
  rewrite Qpower_plus; [|done]. change (inject_Z 2 ^ 1) with (inject_Z 2).
  apply Qmult_comm.
Qed.

(** In exact arithmetic, for a base that is not negative: the delay is
    not negative, does not shrink from one attempt to the next, and the
    delay of the next attempt is twice the delay of this one, capped. *)
Lemma cappedDoubling_spec (baseMs : Q) (attempt attempt' : Z) :
  0 <= baseMs ->
  0 <= cappedDoubling baseMs attempt /\
  ((attempt <= attempt')%Z ->
   cappedDoubling baseMs attempt <= cappedDoubling baseMs attempt') /\
  cappedDoubling baseMs (attempt + 1)
  == (if Qle_bool (inject_Z 2 * cappedDoubling baseMs attempt)
                  (inject_Z 60000)
      then inject_Z 2 * cappedDoubling baseMs attempt
      else inject_Z 60000).
Proof.
  intros Hbase.
  assert (Hpos : forall n, 0 <= baseMs * inject_Z 2 ^ n).
  { intros n. apply Qmult_le_0_compat; [done|]. by apply Qpower_0_le. }
  assert (Hnonneg : forall a, 0 <= cappedDoubling baseMs a).
  { intros a. destruct (cappedDoubling_min baseMs a) as (_ & _ & [->| ->]);
      [done|apply Hpos]. }
  destruct (cappedDoubling_min baseMs attempt) as (Hcap & Hle & Hcases).
  split; [apply Hnonneg|]. split.
  - intros Hatt.
    assert (Hmono : baseMs * inject_Z 2 ^ (attempt - 1)
                    <= baseMs * inject_Z 2 ^ (attempt' - 1)).
    { rewrite !(Qmult_comm baseMs). apply Qmult_le_compat_r; [|done].
      apply Qpower_le_compat_l; [lia|done]. }
    destruct (cappedDoubling_min baseMs attempt') as (_ & _ & [->| ->]);
      [done|]. by eapply Qle_trans.
  - assert (Hnext : baseMs * inject_Z 2 ^ (attempt + 1 - 1)
                    == inject_Z 2 * (baseMs * inject_Z 2 ^ (attempt - 1))).
    { replace (attempt + 1 - 1)%Z with (attempt - 1 + 1)%Z by lia.
      rewrite two_succ. ring. }
    unfold cappedDoubling at 1. cbv zeta.
    destruct (Qle_bool (baseMs * _) _) eqn:Hn.
    + apply Qle_bool_iff in Hn. rewrite Hnext in Hn.
      assert (Hexact : cappedDoubling baseMs attempt
                       == baseMs * inject_Z 2 ^ (attempt - 1)).
      { unfold cappedDoubling. cbv zeta.
        destruct (Qle_bool _ _) eqn:Ha; [reflexivity|].
        exfalso. apply Bool.not_true_iff_false in Ha. apply Ha.
        apply Qle_bool_iff. eapply Qle_trans; [|exact Hn].
        rewrite <- (Qmult_1_l (baseMs * _)) at 1.
        apply Qmult_le_compat_r; [done|apply Hpos]. }
      assert (Htwice : Qle_bool (inject_Z 2 * cappedDoubling baseMs attempt)
                                (inject_Z 60000) = true).
      { apply Qle_bool_iff. by rewrite Hexact. }
      rewrite Htwice, Hnext, Hexact. reflexivity.
    + assert (Hlt : inject_Z 60000
                    < inject_Z 2 * (baseMs * inject_Z 2 ^ (attempt - 1))).
      { rewrite <- Hnext. apply Qnot_le_lt. intros H.
        apply Qle_bool_iff in H. congruence. }
      destruct (Qle_bool (inject_Z 2 * cappedDoubling baseMs attempt) _)
        eqn:Htwice; [|reflexivity].
      apply Qle_bool_iff in Htwice.
      destruct Hcases as [Hc|Hc]; rewrite Hc in Htwice.
      * exfalso. revert Htwice. apply Qlt_not_le. done.
      * exfalso. revert Htwice. by apply Qlt_not_le.
Qed.

(** The value of the call for a base that is a positive double and an
    attempt from 1 on: the exact product, capped, as long as
    [Math.pow] does not overflow, and the cap from then on. *)
Lemma calculateBackoff_value (a : Q) (attempt : Z) :
  isDouble a -> 0 < a -> (1 <= attempt)%Z ->
  exists q,
    calculateBackoff (Finite a) attempt = Finite q /\
    q == (if (1025 <=? attempt)%Z then inject_Z 60000
          else cappedDoubling a attempt).
Proof.
  intros (m & k & Ha & Hm & Hk & _ & Hmax) Hpos Hatt.
  unfold calculateBackoff. cbv zeta.
  destruct (mathPow2_cases (attempt - 1)) as [[Hn ->]|[[Hn ->]|[Hn ->]]];
    [|lia|].
  - assert (Hgt : (a ?= inject_Z 0) = Gt) by (by apply Qgt_alt).
    unfold multiply. rewrite Hgt. simpl.
    exists (inject_Z 60000). split; [done|].
    destruct (Z.leb_spec 1025 attempt); [reflexivity|lia].
  - destruct (Z.leb_spec 1025 attempt); [lia|].
    set (n := (attempt - 1)%Z) in *.
    assert (Hx : 0 < a * inject_Z 2 ^ n).
    { apply Qmult_lt_0_compat; [done|apply two_pos]. }
    assert (Hgt : (a * inject_Z 2 ^ n ?= inject_Z 0) = Gt)
      by (by apply Qgt_alt).
    unfold multiply, roundDouble. rewrite Hgt.
    unfold cappedDoubling. cbv zeta. fold n.
    destruct (Qle_bool (a * inject_Z 2 ^ n) _) eqn:Hcap.
    + apply Qle_bool_iff in Hcap.
      destruct (roundPositive_exact (a * inject_Z 2 ^ n) m (k + n))
        as (y & -> & Hy); [done| |lia|lia| |].
      * rewrite Ha, two_plus. ring.
      * apply Qle_lt_trans with (inject_Z 60000); [done|].
        rewrite two_Z by lia. rewrite <- Zlt_Qlt. lia.
      * simpl.
        assert (Hle : Qle_bool y (inject_Z 60000) = true)
          by (apply Qle_bool_iff; by rewrite Hy).
        rewrite Hle. by exists y.
    + assert (Hlt : inject_Z 60000 <= a * inject_Z 2 ^ n).
      { apply Qlt_le_weak, Qnot_le_lt. intros Hc.
        apply Qle_bool_iff in Hc. congruence. }
      destruct (roundPositive_ge _ Hlt) as [->|(y & -> & Hy)]; simpl.
      * by exists (inject_Z 60000).
      * destruct (Qle_bool y _) eqn:Hle.
        -- exists y. split; [done|]. apply Qle_bool_iff in Hle.
           by apply Qle_antisym.
        -- by exists (inject_Z 60000).
Qed.

(** The delay is never above 60000 ms and never [Infinity]; it is [NaN]
    for a base that is [NaN], for a base 0 once [Math.pow] overflows
    (from attempt 1025 on) and for an infinite base once [Math.pow]
    underflows (attempts up to -1074), and only then.  For a base that
    is a positive double and attempts from 1 on, the delay is a positive
    number that does not shrink from one attempt to a later one, and, as
    long as the attempt is at most 1024 or when the base is at least
    1, it is the exact [baseMs * 2^(attempt-1)] capped at 60000: so the
    delay of the next attempt is twice the delay of this one, capped. *)
Theorem calculateBackoff_spec (baseMs : JsNumber) (a : Q)
    (attempt attempt' : Z) :
  calculateBackoff baseMs attempt <> PosInfinity /\
  (forall q, calculateBackoff baseMs attempt = Finite q ->
     q <= inject_Z 60000) /\
  (calculateBackoff baseMs attempt = NaN <->
   baseMs = NaN \/ isZero baseMs = true /\ (1025 <= attempt)%Z \/
   isInfinite baseMs = true /\ (attempt <= -1074)%Z) /\
  (isDouble a -> 0 < a -> (1 <= attempt <= attempt')%Z ->
   exists q q',
     calculateBackoff (Finite a) attempt = Finite q /\
     calculateBackoff (Finite a) attempt' = Finite q' /\
     0 < q /\ q <= q' /\
     (1 <= a \/ (attempt <= 1024)%Z -> q == cappedDoubling a attempt) /\
     (1 <= a \/ (attempt' <= 1024)%Z ->
      q' == cappedDoubling a attempt' /\
      (attempt' = (attempt + 1)%Z ->
       q' == (if Qle_bool (inject_Z 2 * q) (inject_Z 60000)
              then inject_Z 2 * q else inject_Z 60000)))).
Proof.
  destruct (mathMin_cap (multiply baseMs (mathPow2 (attempt - 1))))
    as (Hinf & Hcap & Hnan).
  split; [done|]. split; [done|]. split.
  { unfold calculateBackoff. cbv zeta. rewrite Hnan, multiply_NaN.
    split; (intros [?|[[? ?]|[? ?]]];
            [by left|right; left; split; [done|lia]
            |right; right; split; [done|lia]]). }
  clear Hinf Hcap Hnan.
  intros Hdouble Hpos [Hatt Hle].
  destruct (calculateBackoff_value a attempt) as (q & Hq & Hqv);
    [done|done|done|].
  destruct (calculateBackoff_value a attempt') as (q' & Hq' & Hqv');
    [done|done|lia|].
  assert (Hbase : 0 <= a) by by apply Qlt_le_weak.
  assert (Hexact : forall t, (1 <= t)%Z -> 1 <= a \/ (t <= 1024)%Z ->
            (if (1025 <=? t)%Z then inject_Z 60000 else cappedDoubling a t)
            == cappedDoubling a t).
  { intros t Ht Hcond. destruct (Z.leb_spec 1025 t); [|reflexivity].
    destruct Hcond as [Ha|?]; [|lia].
    unfold cappedDoubling. cbv zeta.
    destruct (Qle_bool _ _) eqn:Hc; [|reflexivity].
    apply Qle_bool_iff in Hc. exfalso. revert Hc. apply Qlt_not_le.
    apply Qlt_le_trans with (1 * inject_Z 2 ^ 16); [done|].
    apply Qle_trans with (1 * inject_Z 2 ^ (t - 1)).
    - apply Qmult_le_l; [done|]. apply two_mono. lia.
    - apply Qmult_le_compat_r; [done|]. apply Qlt_le_weak, two_pos. }
  assert (Hposv : forall t,
            0 < (if (1025 <=? t)%Z then inject_Z 60000
                 else cappedDoubling a t)).
  { intros t. destruct (1025 <=? t)%Z; [reflexivity|].
    destruct (cappedDoubling_min a t) as (_ & _ & [->| ->]); [reflexivity|].
    apply Qmult_lt_0_compat; [done|apply two_pos]. }
  exists q, q'. split; [done|]. split; [done|].
  split; [rewrite Hqv; apply Hposv|]. split.
  { rewrite Hqv, Hqv'.
    destruct (Z.leb_spec 1025 attempt'), (Z.leb_spec 1025 attempt);
      try lia.
    - apply Qle_refl.
    - apply (cappedDoubling_min a attempt).
    - by apply (cappedDoubling_spec a attempt attempt'). }
  split; [intros Hcond; rewrite Hqv; by apply Hexact|].
  intros Hcond.
  assert (Hv' : q' == cappedDoubling a attempt')
    by (rewrite Hqv'; apply Hexact; [lia|done]).
  split; [done|]. intros ->.
  assert (Hv : q == cappedDoubling a attempt).
  { rewrite Hqv. apply Hexact; [done|]. destruct Hcond; [by left|right; lia]. }
  destruct (cappedDoubling_spec a attempt attempt Hbase) as (_ & _ & Hd).
  rewrite Hv', Hd.
  assert (Hb : Qle_bool (inject_Z 2 * q) (inject_Z 60000)
               = Qle_bool (inject_Z 2 * cappedDoubling a attempt)
                          (inject_Z 60000)) by (by rewrite Hv).
  rewrite Hb. destruct (Qle_bool _ _); [by rewrite Hv|reflexivity].
Qed.

End BackoffFacts.

Lemma calculateBackoff_spec_witness :
  Backoff.isDouble (inject_Z 1000) /\
  (exists q,
     Backoff.calculateBackoff (Parallel.Finite (inject_Z 1000)) 3
     = Parallel.Finite q /\ (q <= inject_Z 60000)%Q) /\
  exists q q',
    Backoff.calculateBackoff (Parallel.Finite (inject_Z 1000)) 3
    = Parallel.Finite q /\
    Backoff.calculateBackoff (Parallel.Finite (inject_Z 1000)) 4
    = Parallel.Finite q' /\
    (0 < q)%Q /\ (q <= q')%Q /\
    (q == Backoff.cappedDoubling (inject_Z 1000) 3)%Q /\
    (q' == Backoff.cappedDoubling (inject_Z 1000) 4)%Q /\
    (q' == (if Qle_bool (inject_Z 2 * q) (inject_Z 60000)
            then inject_Z 2 * q else inject_Z 60000))%Q.
Proof.
  assert (Hdouble : Backoff.isDouble (inject_Z 1000)).
  { exists 1000, 0. repeat split; vm_compute; congruence. }
  destruct (calculateBackoff_spec (Parallel.Finite (inject_Z 1000))
              (inject_Z 1000) 3 4) as (_ & Hcap & _ & Hvalue).
  split; [exact Hdouble|]. split.
  - eexists. split; [vm_compute; reflexivity|].
    apply Hcap. vm_compute. reflexivity.
  - destruct (Hvalue Hdouble) as (q & q' & Hq & Hq' & Hpos & Hle & Hv & Hv');
      [reflexivity|lia|].
    exists q, q'. do 4 (split; [assumption|]).
    split; [apply Hv; right; lia|].
    destruct Hv' as [Hv' Hd]; [right; lia|].
    split; [exact Hv'|by apply Hd].
Defined.

(** Values of the call: those the tests expect for bases 100 and 1000;
    [NaN] for base 0 at attempt 2000, where [Math.pow] has overflowed,
    and 0 at attempt 1024, where it has not; 0 for base 1 at attempt
    -1074, where [Math.pow] has underflowed; and the cap for the least
    positive double at attempt 1025, where the exact product is
    [2^(-50)]. *)
Lemma calculateBackoff_examples :
  (exists q,
     Backoff.calculateBackoff (Parallel.Finite (inject_Z 100)) 3
     = Parallel.Finite q /\ (q == inject_Z 400)%Q) /\
  (exists q,
     Backoff.calculateBackoff (Parallel.Finite (inject_Z 1000)) 2
     = Parallel.Finite q /\ (q == inject_Z 2000)%Q) /\
  Backoff.calculateBackoff (Parallel.Finite (inject_Z 1000)) 10
  = Parallel.Finite (inject_Z 60000) /\
  Backoff.calculateBackoff (Parallel.Finite (inject_Z 0)) 2000
  = Parallel.NaN /\
  Backoff.calculateBackoff (Parallel.Finite (inject_Z 0)) 1024
  = Parallel.Finite (inject_Z 0) /\
  Backoff.calculateBackoff (Parallel.Finite (inject_Z 1)) (-1074)
  = Parallel.Finite (inject_Z 0) /\
  Backoff.calculateBackoff
    (Parallel.Finite (Qpower (inject_Z 2) (-1074))) 1025
  = Parallel.Finite (inject_Z 60000) /\
  (Backoff.cappedDoubling (Qpower (inject_Z 2) (-1074)) 1025
   == Qpower (inject_Z 2) (-50))%Q.
Proof.
  split; [eexists; split; [vm_compute; reflexivity|reflexivity]|].
  split; [eexists; split; [vm_compute; reflexivity|reflexivity]|].
  repeat split; vm_compute; reflexivity.
Qed.

(** ** The retry loop *)

Section RetryLoopFacts.

Import Limits Executor.

Variable toLowerCase : jsstring -> jsstring.
Variable runAgentFn : ExecutorOptions -> list EnvEvent -> RunState.

Lemma withSignal_id (o : ExecutorOptions) : withSignal (signal o) o = o.
Proof. by destruct o. Qed.

Lemma retryLoop_unfold (cfg : Retry.RetryConfig) (o : ExecutorOptions)
    (attempt : Z) (lastResult : option TaskResult) (seen : list TaskProgress)
    (attempts : list (list EnvEvent)) :
  retryLoop toLowerCase runAgentFn cfg o attempt lastResult seen attempts
  = if attempt <=? Retry.maxAttempts cfg then
      match attempts with
      | [] => {| returned := None; delivered := seen |}
      | trace :: later =>
        let st := runAgentFn o trace in
        let seen' := seen ++ emitted st in
        match result st with
        | None => {| returned := None; delivered := seen' |}
        | Some res =>
          if (exitCode res =? 0) || negb (truthyError (error res)) then
            {| returned := Some (Some res); delivered := seen' |}
          else if negb (Retry.shouldRetry toLowerCase
                          (default [] (error res)) (Some cfg)) then
            {| returned := Some (Some res); delivered := seen' |}
          else if Retry.maxAttempts cfg <=? attempt then
            {| returned := Some (Some res); delivered := seen' |}
          else
            retryLoop toLowerCase runAgentFn cfg
                      (withSignal (callerSignal st) o)
                      (attempt + 1) (Some res) seen' later
        end
      end
    else {| returned := Some lastResult; delivered := seen |}.
Proof. by destruct attempts. Qed.

Lemma retryLoop_take (cfg : Retry.RetryConfig) :
  forall (attempts : list (list EnvEvent)) (o : ExecutorOptions) (attempt : Z)
         (lastResult : option TaskResult) (seen : list TaskProgress),
    retryLoop toLowerCase runAgentFn cfg o attempt lastResult seen attempts
    = retryLoop toLowerCase runAgentFn cfg o attempt lastResult seen
        (take (Z.to_nat (Retry.maxAttempts cfg - attempt + 1)) attempts).
Proof.
  induction attempts as [|trace later IH]; intros o attempt lastResult seen.
  - by rewrite take_nil.
  - rewrite !retryLoop_unfold.
    destruct (Z.leb_spec attempt (Retry.maxAttempts cfg)) as [Hle|Hgt];
      [|done].
    replace (Z.to_nat (Retry.maxAttempts cfg - attempt + 1))
      with (S (Z.to_nat (Retry.maxAttempts cfg - (attempt + 1) + 1))) by lia.
    cbn [take]. cbv zeta.
    destruct (result (runAgentFn o trace)) as [res|]; [|done].
    repeat (match goal with |- context [if ?b then _ else _] =>
              destruct b; [done|] end).
    apply IH.
Qed.

(** [runAgentWithRetry] calls [runAgentFn] at most [maxAttempts] times,
    and once when the options have no retry configuration: what the runtime
    would deliver to further calls does not matter. *)
Theorem runAgentWithRetry_attempts_bounded (o : ExecutorOptions)
    (attempts : list (list EnvEvent)) :
  runAgentWithRetry toLowerCase o runAgentFn attempts
  = runAgentWithRetry toLowerCase o runAgentFn
      (take (match retry o with
             | Some cfg => Z.to_nat (Retry.maxAttempts cfg)
             | None => 1%nat
             end) attempts).
Proof.
  unfold runAgentWithRetry. destruct (retry o) as [cfg|].
  - rewrite retryLoop_take.
    by replace (Retry.maxAttempts cfg - 1 + 1) with (Retry.maxAttempts cfg)
      by lia.
  - by destruct attempts.
Qed.

Lemma retryLoop_returns (cfg : Retry.RetryConfig) :
  forall (attempts : list (list EnvEvent)) (o : ExecutorOptions) (attempt : Z)
         (lastResult : option TaskResult) (seen : list TaskProgress)
         (res : option TaskResult),
    attempt <= Retry.maxAttempts cfg ->
    returned (retryLoop toLowerCase runAgentFn cfg o attempt lastResult seen
                        attempts) = Some res ->
    exists r k trace sig,
      res = Some r /\ attempts !! k = Some trace /\
      attempt + Z.of_nat k <= Retry.maxAttempts cfg /\
      result (runAgentFn (withSignal sig o) trace) = Some r /\
      (exitCode r = 0 \/ truthyError (error r) = false \/
       Retry.shouldRetry toLowerCase (default [] (error r)) (Some cfg) = false
       \/ attempt + Z.of_nat k = Retry.maxAttempts cfg) /\
      (forall j tr, (j < k)%nat -> attempts !! j = Some tr ->
         exists sig' r',
           result (runAgentFn (withSignal sig' o) tr) = Some r' /\
           exitCode r' <> 0 /\ truthyError (error r') = true /\
           Retry.shouldRetry toLowerCase (default [] (error r')) (Some cfg)
           = true).
Proof.
  induction attempts as [|trace later IH];
    intros o attempt lastResult seen res Hle; rewrite retryLoop_unfold;
    (destruct (Z.leb_spec attempt (Retry.maxAttempts cfg)); [|lia]);
    [done|].
  cbv zeta.
  destruct (result (runAgentFn o trace)) as [r0|] eqn:Hr0; [|done].
  assert (Hfirst : forall P : Prop,
            P -> Some (Some r0) = Some res ->
            (exitCode r0 = 0 \/ truthyError (error r0) = false \/
             Retry.shouldRetry toLowerCase (default [] (error r0)) (Some cfg)
             = false \/ attempt + Z.of_nat 0 = Retry.maxAttempts cfg) ->
            exists r k trace0 sig,
              res = Some r /\ (trace :: later) !! k = Some trace0 /\
              attempt + Z.of_nat k <= Retry.maxAttempts cfg /\
              result (runAgentFn (withSignal sig o) trace0) = Some r /\
              (exitCode r = 0 \/ truthyError (error r) = false \/
               Retry.shouldRetry toLowerCase (default [] (error r)) (Some cfg)
               = false \/ attempt + Z.of_nat k = Retry.maxAttempts cfg) /\
              (forall j tr, (j < k)%nat -> (trace :: later) !! j = Some tr ->
                 exists sig' r',
                   result (runAgentFn (withSignal sig' o) tr) = Some r' /\
                   exitCode r' <> 0 /\ truthyError (error r') = true /\
                   Retry.shouldRetry toLowerCase (default [] (error r'))
                     (Some cfg) = true)).
  { intros P _ [= <-] Hstop. exists r0, 0%nat, trace, (signal o).
    rewrite withSignal_id. repeat split; try done; [lia|].
    intros j tr Hj. lia. }
  destruct ((exitCode r0 =? 0) || negb (truthyError (error r0))) eqn:Hok.
  { intros Hret. apply (Hfirst True I Hret).
    apply orb_true_iff in Hok as [Hz|Hne].
    - left. by apply Z.eqb_eq.
    - right. left. by apply negb_true_iff. }
  destruct (Retry.shouldRetry toLowerCase (default [] (error r0)) (Some cfg))
    eqn:Hshould; simpl.
  2: { intros Hret. apply (Hfirst True I Hret). auto. }
  destruct (Z.leb_spec (Retry.maxAttempts cfg) attempt) as [Hmax|Hmore].
  { intros Hret. apply (Hfirst True I Hret). right. right. right. lia. }
  intros Hret.
  apply IH in Hret as (r & k & tr & sig & -> & Hk & Hbound & Hres & Hstop
                       & Hearlier); [|lia].
  exists r, (S k), tr, sig. split; [done|]. split; [done|].
  split; [lia|]. split; [done|]. split.
  - destruct Hstop as [?|[?|[?|?]]]; auto. right. right. right. lia.
  - intros [|j] tr' Hj Hl.
    + injection Hl as <-. exists (signal o), r0. rewrite withSignal_id.
      apply orb_false_iff in Hok as [Hz Hne].
      apply Z.eqb_neq in Hz. apply negb_false_iff in Hne. done.
    + apply (Hearlier j tr'); [lia|done].
Qed.

(** What [runAgentWithRetry] returns under a retry configuration is the
    result of one of the first [maxAttempts] calls of [runAgentFn]: a
    success, a failure that is not to be retried, or the failure of the
    last attempt; every call before it failed with an error that is to be
    retried.  It returns [null] only for a [maxAttempts] below 1, where
    [runAgentFn] is not called at all. *)
Theorem runAgentWithRetry_returns (o : ExecutorOptions)
    (cfg : Retry.RetryConfig) (attempts : list (list EnvEvent))
    (res : option TaskResult) :
  retry o = Some cfg ->
  returned (runAgentWithRetry toLowerCase o runAgentFn attempts) = Some res ->
  (Retry.maxAttempts cfg < 1 /\ res = None /\
   delivered (runAgentWithRetry toLowerCase o runAgentFn attempts) = []) \/
  (exists r k trace sig,
     res = Some r /\ attempts !! k = Some trace /\
     Z.of_nat k < Retry.maxAttempts cfg /\
     result (runAgentFn (withSignal sig o) trace) = Some r /\
     (exitCode r = 0 \/ truthyError (error r) = false \/
      Retry.shouldRetry toLowerCase (default [] (error r)) (Some cfg) = false
      \/ Z.of_nat (S k) = Retry.maxAttempts cfg) /\
     (forall j tr, (j < k)%nat -> attempts !! j = Some tr ->
        exists sig' r',
          result (runAgentFn (withSignal sig' o) tr) = Some r' /\
          exitCode r' <> 0 /\ truthyError (error r') = true /\
          Retry.shouldRetry toLowerCase (default [] (error r')) (Some cfg)
          = true)).
Proof.
  intros Hcfg. unfold runAgentWithRetry. rewrite Hcfg.
  destruct (Z.le_gt_cases 1 (Retry.maxAttempts cfg)) as [Hle|Hlt].
  - intros Hret. right.
    apply retryLoop_returns in Hret
      as (r & k & tr & sig & -> & Hk & Hbound & Hres & Hstop & Hearlier);
      [|done].
    exists r, k, tr, sig. repeat split; try done; [lia|].
    destruct Hstop as [?|[?|[?|?]]]; auto. right. right. right. lia.
  - rewrite retryLoop_unfold.
    destruct (Z.leb_spec 1 (Retry.maxAttempts cfg)); [lia|].
    simpl. intros [= <-]. left. split; [lia|done].
Qed.

End RetryLoopFacts.

Section RetryWitnesses.

Import Limits Executor.

Lemma runAgentWithRetry_returns_witness :
  let o :=
    {| o_task := js "task"; o_id := js "1"; o_name := None;
       o_model := None; o_step := None; signal := None;
       onProgress := false;
       retry := Some {| Retry.maxAttempts := 2; Retry.backoffMs := 10;
                        Retry.retryOn := None; Retry.skipOn := None |};
       resourceLimits := None |} in
  let attempts :=
    [[Stderr (js "rate limit"); ProcClose (Some 1) None];
     [ProcClose (Some 0) None]] in
  exists res,
    returned (runAgentWithRetry asciiLower o runAgentOnce attempts) = Some res /\
    exists r k trace sig,
      res = Some r /\ attempts !! k = Some trace /\
      Z.of_nat k < 2 /\
      result (runAgentOnce (withSignal sig o) trace) = Some r.
Proof.
  intros o attempts. eexists. split; [vm_compute; reflexivity|].
  destruct (runAgentWithRetry_returns asciiLower runAgentOnce o
              {| Retry.maxAttempts := 2; Retry.backoffMs := 10;
                 Retry.retryOn := None; Retry.skipOn := None |}
              attempts _ eq_refl ltac:(vm_compute; reflexivity))
    as [(Hlt & _)|(r & k & trace & sig & Hres & Hk & Hbound & Hr & _)].
  - exfalso. revert Hlt. vm_compute. discriminate.
  - exists r, k, trace, sig. repeat split; assumption.
Defined.

End RetryWitnesses.
(** ** Resource guards in use *)

Section GuardFacts.

Import Limits.

Lemma trackerCall_inv (maxCalls : Z) (t : ToolCallTracker) (c : TrackerCall) :
  0 <= currentCalls t /\
  tct_maxConcurrentToolCalls t = maxCalls /\
  (tct_controller t = None \/
   tct_controller t = Some (ConcurrentToolCallLimitExceeded maxCalls)) /\
  (0 < maxCalls -> tct_controller t = None -> currentCalls t <= maxCalls) /\
  (maxCalls <= 0 -> tct_controller t = None) ->
  0 <= currentCalls (trackerCall t c) /\
  tct_maxConcurrentToolCalls (trackerCall t c) = maxCalls /\
  (tct_controller (trackerCall t c) = None \/
   tct_controller (trackerCall t c)
   = Some (ConcurrentToolCallLimitExceeded maxCalls)) /\
  (0 < maxCalls -> tct_controller (trackerCall t c) = None ->
   currentCalls (trackerCall t c) <= maxCalls) /\
  (maxCalls <= 0 -> tct_controller (trackerCall t c) = None).
Proof.
  intros (Hpos & Hmax & Hctl & Hlim & Hoff).
  destruct c; simpl.
  - unfold startTool. rewrite Hmax.
    destruct (Z.ltb_spec 0 maxCalls) as [H0|H0];
      destruct (Z.ltb_spec maxCalls (currentCalls t + 1)) as [H1|H1]; simpl;
      repeat split; try done; try lia.
    + destruct Hctl as [->| ->]; by right.
    + intros _ Hnone. by destruct Hctl as [Hc|Hc]; rewrite Hc in Hnone.
  - repeat split; try done; try lia.
    intros H0 Hnone. specialize (Hlim H0 Hnone). lia.
Qed.

Lemma trackerCall_sticky (t : ToolCallTracker) (calls : list TrackerCall) :
  aborted (tct_controller t) = true ->
  tct_controller (foldl trackerCall t calls) = tct_controller t.
Proof.
  revert t. induction calls as [|c calls IH]; intros t Hab; [done|].
  simpl. assert (Hc : tct_controller (trackerCall t c) = tct_controller t).
  { destruct c; simpl; [|done]. unfold startTool.
    destruct (_ && _); simpl; [|done].
    by destruct (tct_controller t). }
  rewrite IH; [done|]. by rewrite Hc.
Qed.

(** A [ToolCallTracker], whatever the sequence of [startTool] and
    [endTool] calls: the count is never negative; the signal is either
    not aborted or aborted with the limit as its reason; under a positive
    limit the count is within the limit as long as the signal has not
    fired; under a limit that is not positive the signal never fires;
    and a signal that has fired keeps its reason. *)
Theorem toolCallTracker_invariant (maxCalls : Z)
    (calls later : list TrackerCall) :
  let t := foldl trackerCall (newToolCallTracker maxCalls) calls in
  0 <= currentCalls t /\
  (tct_controller t = None \/
   tct_controller t = Some (ConcurrentToolCallLimitExceeded maxCalls)) /\
  (0 < maxCalls -> tct_controller t = None -> currentCalls t <= maxCalls) /\
  (maxCalls <= 0 -> tct_controller t = None) /\
  (aborted (tct_controller t) = true ->
   tct_controller (foldl trackerCall t later) = tct_controller t).
Proof.
  intros t.
  assert (Hinv : 0 <= currentCalls t /\
    tct_maxConcurrentToolCalls t = maxCalls /\
    (tct_controller t = None \/
     tct_controller t = Some (ConcurrentToolCallLimitExceeded maxCalls)) /\
    (0 < maxCalls -> tct_controller t = None -> currentCalls t <= maxCalls) /\
    (maxCalls <= 0 -> tct_controller t = None)).
  { subst t. induction calls as [|c calls IH] using rev_ind.
    - simpl. repeat split; auto; lia.
    - rewrite foldl_app. simpl. by apply trackerCall_inv. }
  destruct Hinv as (H1 & _ & H2 & H3 & H4).
  repeat split; try done. apply trackerCall_sticky.
Qed.

(** [startTool] answers [false] exactly when the limit is positive and
    the call it counts exceeds it; the signal is aborted from then on,
    and the refused call stays counted. *)
Theorem startTool_refuses (t : ToolCallTracker) :
  let '(t', accepted) := startTool t in
  currentCalls t' = currentCalls t + 1 /\
  (accepted = false <->
   0 < tct_maxConcurrentToolCalls t /\
   tct_maxConcurrentToolCalls t < currentCalls t + 1) /\
  (accepted = false -> aborted (tct_controller t') = true) /\
  (accepted = true -> tct_controller t' = tct_controller t).
Proof.
  unfold startTool.
  destruct (Z.ltb_spec 0 (tct_maxConcurrentToolCalls t)) as [H0|H0];
    destruct (Z.ltb_spec (tct_maxConcurrentToolCalls t) (currentCalls t + 1))
      as [H1|H1]; simpl; repeat split; try done; try lia.
  intros _. by destruct (tct_controller t).
Qed.

Lemma mm_check_stopped (samples : list Z) (m : MemoryMonitor) :
  intervalId m = false -> foldl (fun m h => mm_check h m) m samples = m.
Proof.
  intros Hm. induction samples as [|h samples IH]; [done|].
  simpl. by rewrite mm_check_idle.
Qed.

(** A [MemoryMonitor] that has been started, over the heap sizes its
    interval callback reads: with a limit that is not positive it is
    never installed and never aborts; otherwise it keeps running, not
    aborted, while no reading exceeds the limit, and on the first reading
    that does it aborts with that reading as the reason and clears its
    interval, so that later readings change nothing. *)
Theorem memoryMonitor_spec (maxMemoryMB : Q) (samples : list Z) :
  let m :=
    foldl (fun m h => mm_check h m) (mm_start (newMemoryMonitor maxMemoryMB))
          samples in
  (Qle_bool maxMemoryMB 0 = true -> m = newMemoryMonitor maxMemoryMB) /\
  (Qle_bool maxMemoryMB 0 = false ->
   Forall (fun h => exceedsMemory maxMemoryMB h = false) samples ->
   intervalId m = true /\ mm_controller m = None) /\
  (Qle_bool maxMemoryMB 0 = false ->
   forall before h after,
     samples = before ++ h :: after ->
     Forall (fun h => exceedsMemory maxMemoryMB h = false) before ->
     exceedsMemory maxMemoryMB h = true ->
     intervalId m = false /\
     mm_controller m
     = Some (MemoryLimitExceeded (Qmake h (1024 * 1024)) maxMemoryMB)).
Proof.
  intros m. subst m. unfold mm_start, newMemoryMonitor. simpl.
  destruct (Qle_bool maxMemoryMB 0) eqn:Hmax.
  - split; [|split; intros; done]. intros _. by apply mm_check_stopped.
  - split; [done|].
    assert (Hquiet : forall before,
      Forall (fun h => exceedsMemory maxMemoryMB h = false) before ->
      foldl (fun m h => mm_check h m)
        {| mm_maxMemoryMB := maxMemoryMB; intervalId := true;
           mm_controller := None |} before
      = {| mm_maxMemoryMB := maxMemoryMB; intervalId := true;
           mm_controller := None |}).
    { induction before as [|h before IH]; [done|].
      intros [Hh Hall]%Forall_cons_1. simpl.
      unfold mm_check at 2. simpl. unfold exceedsMemory in Hh.
      rewrite Hh. by apply IH. }
    split.
    + intros _ Hall. by rewrite Hquiet.
    + intros _ before h after -> Hbefore Hh.
      rewrite foldl_app, Hquiet; [|done]. simpl.
      assert (Hfire :
        mm_check h {| mm_maxMemoryMB := maxMemoryMB; intervalId := true;
                      mm_controller := None |}
        = {| mm_maxMemoryMB := maxMemoryMB; intervalId := false;
             mm_controller :=
               Some (MemoryLimitExceeded (Qmake h (1024 * 1024))
                                         maxMemoryMB) |}).
      { unfold mm_check. simpl. unfold exceedsMemory in Hh. by rewrite Hh. }
      by rewrite Hfire, mm_check_stopped.
Qed.

End GuardFacts.

Lemma toolCallTracker_invariant_witness :
  Limits.currentCalls
    (foldl Limits.trackerCall (Limits.newToolCallTracker 2)
       [Limits.CallStartTool; Limits.CallStartTool; Limits.CallEndTool;
        Limits.CallStartTool]) <= 2.
Proof.
  apply (proj1 (proj2 (proj2
           (toolCallTracker_invariant 2
              [Limits.CallStartTool; Limits.CallStartTool; Limits.CallEndTool;
               Limits.CallStartTool] [])))).
  - lia.
  - reflexivity.
Defined.

Lemma memoryMonitor_spec_witness :
  let m :=
    foldl (fun m h => Limits.mm_check h m)
      (Limits.mm_start (Limits.newMemoryMonitor (Qmake 100 1)))
      [50 * 1024 * 1024; 200 * 1024 * 1024; 20 * 1024 * 1024] in
  Limits.intervalId m = false /\
  Limits.mm_controller m
  = Some (Limits.MemoryLimitExceeded
            (Qmake (200 * 1024 * 1024) (1024 * 1024)) (Qmake 100 1)).
Proof.
  apply (proj2 (proj2
           (memoryMonitor_spec (Qmake 100 1)
              [50 * 1024 * 1024; 200 * 1024 * 1024; 20 * 1024 * 1024]))
           eq_refl [50 * 1024 * 1024] (200 * 1024 * 1024)
           [20 * 1024 * 1024]).
  - reflexivity.
  - repeat constructor.
  - reflexivity.
Defined.
(** ** The worker pool: discipline, completeness and errors *)

Section PoolFacts.

Import Parallel.

Context {T R E : Type}.
Variable items : list T.
Variable fn : T -> nat -> Settled R E.

(** Induction over a run of the pool: a property of the empty pool that
    is kept when a worker is created, when a call settles and when the
    caller aborts holds in every state of a run. *)
Lemma poolRun_invariant (I : Pool R E -> Prop)
    (concurrency : JsNumber) (signal : option bool)
    (schedule : list PoolEvent) :
  I {| results := replicate (length items) None; nextIndex := 0;
       workers := []; external := signal; internal := false;
       firstError := None; calls := [] |} ->
  (forall st, poolInv items fn st -> I st ->
     I {| results := results (claim items st).2;
          nextIndex := nextIndex (claim items st).2;
          workers := workers (claim items st).2 ++ [(claim items st).1];
          external := external (claim items st).2;
          internal := internal (claim items st).2;
          firstError := firstError (claim items st).2;
          calls := calls (claim items st).2 |}) ->
  (forall st w, poolInv items fn st -> I st -> I (settle items fn w st)) ->
  (forall st b, I st -> external st = Some b ->
     I {| results := results st; nextIndex := nextIndex st;
          workers := workers st; external := Some true;
          internal := internal st; firstError := firstError st;
          calls := calls st |}) ->
  I (poolRun items fn concurrency signal schedule).
Proof.
  intros Hstart Hclaim Hsettle Habort.
  assert (Hspawn : forall n st, poolInv items fn st -> I st ->
            poolInv items fn (spawnWorkers items n st) /\
            I (spawnWorkers items n st)).
  { induction n as [|n IH]; intros st Hinv Hst; [done|].
    pose proof (poolInv_spawnWorkers items fn 1 st Hinv) as Hinv1.
    cbn [spawnWorkers] in *. specialize (Hclaim st Hinv Hst).
    destruct (claim items st) as [w st1]. by apply IH. }
  assert (Hrun : forall schedule st, poolInv items fn st -> I st ->
            I (foldl (poolStep items fn) st schedule)).
  { clear schedule. induction schedule as [|ev schedule IH];
      intros st Hinv Hst; [done|].
    simpl. apply IH; [by apply poolInv_poolStep|].
    destruct ev as [w|]; simpl; [by apply Hsettle|].
    destruct (external st) as [b|] eqn:Hext; [|done]. by eapply Habort. }
  unfold poolRun, poolStart.
  assert (Hinv0 : poolInv items fn
            {| results := replicate (length items) None; nextIndex := 0;
               workers := []; external := signal; internal := false;
               firstError := None; calls := [] |})
    by apply poolInvOn_start.
  destruct (Hspawn (Z.to_nat (limit (length items) concurrency)) _
              Hinv0 Hstart) as [Hinv Hst].
  by apply Hrun.
Qed.

(** The calls in flight never outnumber the limit, which lies between
    one and the number of items. *)
Theorem mapWithConcurrencyLimit_in_flight
    (concurrency : JsNumber) (signal : option bool)
    (schedule : list PoolEvent) :
  items <> [] ->
  let st := poolRun items fn concurrency signal schedule in
  Z.of_nat (awaitingCount (workers st)) <= limit (length items) concurrency /\
  1 <= limit (length items) concurrency <= Z.of_nat (length items).
Proof.
  intros Hne st.
  assert (Hlen : (0 < length items)%nat) by (destruct items; [done|simpl; lia]).
  pose proof (limit_bounds (length items) concurrency Hlen) as Hlim.
  split; [|done].
  pose proof (poolRun_workers items fn concurrency signal schedule) as Hw.
  fold st in Hw. unfold awaitingCount.
  pose proof (length_filter (fun w => isAwaiting w = true) (workers st)).
  lia.
Qed.

(** [fn] is called on the items in the order of the array, each item at
    most once: the indices it was called with are [0, 1, ..., k - 1]
    for some [k] up to the number of items. *)
Theorem mapWithConcurrencyLimit_call_order
    (concurrency : JsNumber) (signal : option bool)
    (schedule : list PoolEvent) :
  exists k, (k <= length items)%nat /\
    calls (poolRun items fn concurrency signal schedule) = seq 0 k.
Proof.
  destruct (poolInv_poolRun items fn concurrency signal schedule)
    as (_ & Hcalls & _).
  eexists. split; [|exact Hcalls]. lia.
Qed.

Lemma settle_aborted (w : nat) (st : Pool R E) :
  workerSignalAborted st = true ->
  workerSignalAborted (settle items fn w st) = true /\
  calls (settle items fn w st) = calls st.
Proof.
  intros Hab. unfold settle.
  destruct (workers st !! w) as [[idx| |]|]; try done.
  destruct (items !! idx) as [item|]; [|done].
  destruct (fn item idx) as [value|error].
  - unfold claim. unfold workerSignalAborted in *. simpl. by rewrite Hab.
  - rewrite Hab. unfold claim. by rewrite Hab.
Qed.

(** Once the worker signal is aborted, by a rejected call or by the
    caller, no further item is started, whatever happens later. *)
Theorem mapWithConcurrencyLimit_stops_on_abort
    (concurrency : JsNumber) (signal : option bool)
    (schedule later : list PoolEvent) :
  workerSignalAborted (poolRun items fn concurrency signal schedule) = true ->
  calls (poolRun items fn concurrency signal (schedule ++ later))
  = calls (poolRun items fn concurrency signal schedule).
Proof.
  unfold poolRun. rewrite foldl_app.
  generalize (foldl (poolStep items fn) (poolStart items concurrency signal)
                    schedule).
  induction later as [|ev later IH]; intros st Hab; [done|].
  simpl. destruct ev as [w|]; simpl.
  - destruct (settle_aborted w st Hab) as [Hab' <-]. by apply IH.
  - destruct (external st) as [b|] eqn:Hext; [|by apply IH].
    by rewrite IH.
Qed.

Lemma quietInv_poolRun (concurrency : JsNumber) (signal : option bool)
    (schedule : list PoolEvent) :
  quietInv items fn (poolRun items fn concurrency signal schedule).
Proof.
  apply poolRun_invariant.
  - split; [done|]. intros _. repeat split; try done.
    intros i item _ Hi. simpl in Hi. (simpl in *; lia).
  - intros st Hinv [Hb Hq]. unfold claim.
    destruct (workerSignalAborted st) eqn:Hab; simpl.
    { split; [done|]. unfold workerSignalAborted in *. simpl. congruence. }
    destruct (Hq eq_refl) as (Hthrew & Hfin & Hcalled).
    destruct (Nat.leb_spec (length items) (nextIndex st)) as [Hc|Hc]; simpl.
    + split; [done|]. intros _. repeat split.
      * intros w [[_ Hw]|[_ [=]]]%lookup_snoc_Some. by eapply Hthrew.
      * intros w _. (simpl in *; lia).
      * intros i item Hitem Hi.
        assert (i < nextIndex st)%nat
          by (apply lookup_lt_Some in Hitem; lia).
        destruct (Hcalled i item Hitem ltac:(done)) as [[w Hw]|?]; [|by right].
        left. exists w. apply lookup_snoc_Some. left.
        split; [by eapply lookup_lt_Some|done].
    + split; [done|]. intros _. repeat split.
      * intros w [[_ Hw]|[_ [=]]]%lookup_snoc_Some. by eapply Hthrew.
      * intros w [[_ Hw]|[_ [=]]]%lookup_snoc_Some.
        specialize (Hfin w Hw). (simpl in *; lia).
      * intros i item Hitem Hi.
        destruct (decide (i = nextIndex st)) as [->|Hne].
        -- left. exists (length (workers st)). apply lookup_snoc_Some. by right.
        -- destruct (Hcalled i item Hitem ltac:(simpl in *; lia)) as [[w Hw]|?];
             [|by right].
           left. exists w. apply lookup_snoc_Some. left.
           split; [by eapply lookup_lt_Some|done].
  - intros st w Hinv [Hb Hq]. unfold settle.
    destruct (workers st !! w) as [[idx| |]|] eqn:Hw; try done.
    destruct (items !! idx) as [item|] eqn:Hitem; [|done].
    destruct (fn item idx) as [value|error] eqn:Hfn.
    + unfold claim. unfold workerSignalAborted in *. simpl.
      destruct (default false (external st) || internal st) eqn:Hab; simpl.
      { split; [done|]. unfold workerSignalAborted, setWorker. simpl.
        congruence. }
      destruct (Hq eq_refl) as (Hthrew & Hfin & Hcalled).
      destruct (Nat.leb_spec (length items) (nextIndex st)) as [Hc|Hc]; simpl.
      * split; [done|]. intros _. repeat split.
        -- intros w' [(_ & [=] & _)|[_ Hw']]%list_lookup_insert_Some.
           by eapply Hthrew.
        -- intros w' _. (simpl in *; lia).
        -- intros i item' Hitem' Hi.
           assert (i < nextIndex st)%nat
             by (apply lookup_lt_Some in Hitem'; lia).
           destruct (Hcalled i item' Hitem' ltac:(done)) as [[w' Hw']|?];
             [|by right].
           destruct (decide (w = w')) as [<-|Hne].
           ++ right. exists value. rewrite Hw in Hw'. injection Hw' as <-.
              rewrite Hitem in Hitem'. by injection Hitem' as <-.
           ++ left. exists w'. apply list_lookup_insert_Some. by right.
      * split; [done|]. intros _. repeat split.
        -- intros w' [(_ & [=] & _)|[_ Hw']]%list_lookup_insert_Some.
           by eapply Hthrew.
        -- intros w' [(_ & [=] & _)|[_ Hw']]%list_lookup_insert_Some.
           specialize (Hfin w' Hw'). (simpl in *; lia).
        -- intros i item' Hitem' Hi.
           destruct (decide (i = nextIndex st)) as [->|Hnext].
           { left. exists w. apply list_lookup_insert_Some. left.
             split; [done|]. split; [done|]. by eapply lookup_lt_Some. }
           destruct (Hcalled i item' Hitem' ltac:(simpl in *; lia)) as [[w' Hw']|?];
             [|by right].
           destruct (decide (w = w')) as [<-|Hne].
           ++ right. exists value. rewrite Hw in Hw'. injection Hw' as <-.
              rewrite Hitem in Hitem'. by injection Hitem' as <-.
           ++ left. exists w'. apply list_lookup_insert_Some. by right.
    + destruct (workerSignalAborted st) eqn:Hab.
      * unfold claim. rewrite Hab. split; [done|].
        unfold workerSignalAborted, setWorker in *. simpl. congruence.
      * split; simpl.
        -- split; [by destruct (firstError st)|done].
        -- unfold workerSignalAborted. simpl. rewrite orb_true_r. done.
  - intros st b [Hb Hq] Hext. split; [done|].
    unfold workerSignalAborted. simpl. done.
Qed.

Lemma errorInv_poolRun (concurrency : JsNumber) (signal : option bool)
    (schedule : list PoolEvent) :
  errorInv items fn (poolRun items fn concurrency signal schedule).
Proof.
  apply poolRun_invariant.
  - by intros error.
  - intros st Hinv Herr error. unfold claim.
    destruct (workerSignalAborted st); simpl; [by apply Herr|].
    destruct (length items <=? nextIndex st)%nat; simpl; [by apply Herr|].
    intros He. destruct (Herr error He) as (i & item & ? & ? & ?).
    exists i, item. split; [done|]. split; [|done].
    apply elem_of_app. by left.
  - intros st w Hinv Herr. unfold settle.
    destruct (workers st !! w) as [[idx| |]|] eqn:Hw; try done.
    destruct (items !! idx) as [item|] eqn:Hitem; [|done].
    assert (Hgrow : forall st' : Pool R E,
              firstError st' = firstError st ->
              (forall i, i ∈ calls st -> i ∈ calls (claim items st').2) ->
              errorInv items fn (setWorker w (claim items st').1
                                   (claim items st').2) ->
              errorInv items fn
                (let '(state, st2) := claim items st' in
                 setWorker w state st2)).
    { intros st' _ _ H. by destruct (claim items st'). }
    assert (Hclaim : forall st' : Pool R E,
              firstError st' = firstError st -> calls st' = calls st ->
              errorInv items fn
                (let '(state, st2) := claim items st' in
                 setWorker w state st2)).
    { intros st' Hfe Hcalls. unfold claim.
      destruct (workerSignalAborted st'); simpl.
      - intros error. simpl. rewrite Hfe, Hcalls. by apply Herr.
      - destruct (length items <=? nextIndex st')%nat; simpl.
        + intros error. simpl. rewrite Hfe, Hcalls. by apply Herr.
        + intros error. simpl. rewrite Hfe, Hcalls. intros He.
          destruct (Herr error He) as (i & item' & ? & ? & ?).
          exists i, item'. split; [done|]. split; [|done].
          apply elem_of_app. by left. }
    destruct (fn item idx) as [value|error] eqn:Hfn.
    + by apply Hclaim.
    + destruct (workerSignalAborted st) eqn:Hab; [by apply Hclaim|].
      intros error'. simpl.
      destruct (firstError st) as [e|] eqn:Hfe.
      * intros [= <-]. by apply Herr.
      * intros [= <-]. exists idx, item. split; [done|]. split; [|done].
        destruct Hinv as (_ & Hcalls & _ & Hawait & _).
        destruct (Hawait w idx Hw) as (Hlt & Hlen & _).
        rewrite Hcalls. apply elem_of_seq. lia.
  - intros st b Herr _. done.
Qed.

(** A result that is not flagged as aborted is complete: [fn] was called
    on every item, every call was fulfilled, and the results are the
    values in the order of the items. *)
Theorem mapWithConcurrencyLimit_complete
    (concurrency : JsNumber) (signal : option bool)
    (schedule : list PoolEvent) (res : list (option R)) :
  mapWithConcurrencyLimit items fn concurrency signal schedule
  = MapReturned res false ->
  length res = length items /\
  forall i item, items !! i = Some item ->
    exists value, fn item i = Fulfilled value /\ res !! i = Some (Some value).
Proof.
  unfold mapWithConcurrencyLimit.
  destruct items as [|item0 items'] eqn:Hitems.
  { intros [= <-]. split; [done|]. intros i item Hi.
    by rewrite lookup_nil in Hi. }
  rewrite <- Hitems. clear item0 items' Hitems.
  pose proof (poolInv_poolRun items fn concurrency signal schedule) as Hinv.
  pose proof (quietInv_poolRun concurrency signal schedule) as [Hb Hq].
  pose proof (poolRun_workers items fn concurrency signal schedule) as Hlen.
  set (st := poolRun items fn concurrency signal schedule) in *.
  unfold poolOutcome.
  destruct (firstError st) as [e|] eqn:Hfe.
  { destruct (default false (external st)); [|done]. by intros [=]. }
  destruct (forallb isFinished (workers st)) eqn:Hall; [|done].
  intros [= <- Hext].
  assert (Hint : internal st = false).
  { destruct (internal st); [|done]. by destruct (proj1 Hb eq_refl). }
  assert (Hab : workerSignalAborted st = false).
  { unfold workerSignalAborted. by rewrite Hext, Hint. }
  destruct (Hq Hab) as (_ & Hfin & Hcalled).
  destruct Hinv as (Hres & _ & _ & _ & _ & Hslot).
  split; [done|].
  assert (Hfinished : forall w worker, workers st !! w = Some worker ->
                        worker = Finished).
  { intros w worker Hw. rewrite forallb_forall in Hall.
    specialize (Hall worker).
    destruct worker; try done;
      by (apply list_elem_of_lookup_2, list_elem_of_In, Hall in Hw). }
  assert (Hnext : (length items <= nextIndex st)%nat).
  { destruct (workers st) as [|worker ws] eqn:Hws.
    - pose proof (limit_bounds (length items) concurrency) as Hlim.
      simpl in Hlen. destruct (length items); lia.
    - apply (Hfin 0%nat). simpl. f_equal. by apply (Hfinished 0%nat). }
  intros i item Hitem.
  assert (Hi : (i < nextIndex st)%nat)
    by (apply lookup_lt_Some in Hitem; lia).
  destruct (Hcalled i item Hitem Hi) as [[w Hw]|[value Hv]].
  - by apply Hfinished in Hw.
  - exists value. split; [done|].
    destruct (Hslot i item Hitem Hi) as [[w Hw]|Hr].
    + by apply Hfinished in Hw.
    + by rewrite Hr, Hv.
Qed.

(** The error [mapWithConcurrencyLimit] throws is the reason one of the
    calls it made was rejected with, and it is thrown only while the
    caller's signal is not aborted. *)
Theorem mapWithConcurrencyLimit_thrown
    (concurrency : JsNumber) (signal : option bool)
    (schedule : list PoolEvent) (error : E) :
  mapWithConcurrencyLimit items fn concurrency signal schedule
  = MapThrown error ->
  let st := poolRun items fn concurrency signal schedule in
  default false (external st) = false /\
  exists i item,
    items !! i = Some item /\ i ∈ calls st /\ fn item i = Rejected error.
Proof.
  unfold mapWithConcurrencyLimit. destruct items eqn:Hitems; [done|].
  rewrite <- Hitems.
  pose proof (errorInv_poolRun concurrency signal schedule) as Herr.
  set (st := poolRun items fn concurrency signal schedule) in *.
  unfold poolOutcome.
  destruct (firstError st) as [e|] eqn:Hfe.
  - destruct (default false (external st)); [done|].
    intros [= <-]. split; [done|]. by apply Herr.
  - by destruct (forallb isFinished (workers st)).
Qed.

End PoolFacts.

Section PoolWitnesses.

Import Parallel.

Lemma mapWithConcurrencyLimit_in_flight_witness :
  let st :=
    poolRun [10; 5; 8] (fun x _ => Fulfilled (E:=unit) (2 * x))
            (Finite (Qmake 2 1)) None [Settle 0] in
  Z.of_nat (awaitingCount (workers st)) <= limit 3 (Finite (Qmake 2 1)) /\
  1 <= limit 3 (Finite (Qmake 2 1)) <= 3.
Proof.
  apply (mapWithConcurrencyLimit_in_flight [10; 5; 8]
           (fun x _ => Fulfilled (E:=unit) (2 * x))
           (Finite (Qmake 2 1)) None [Settle 0]).
  discriminate.
Defined.

Lemma mapWithConcurrencyLimit_stops_on_abort_witness :
  calls
    (poolRun [10; 5; 8]
       (fun x _ => if x =? 10 then Rejected (js "boom") else Fulfilled (2 * x))
       (Finite (Qmake 2 1)) (Some false)
       ([Settle 0] ++ [Settle 1; ExternalAbort]))
  = calls
      (poolRun [10; 5; 8]
         (fun x _ => if x =? 10 then Rejected (js "boom")
                     else Fulfilled (2 * x))
         (Finite (Qmake 2 1)) (Some false) [Settle 0]).
Proof.
  apply (mapWithConcurrencyLimit_stops_on_abort [10; 5; 8]
           (fun x _ => if x =? 10 then Rejected (js "boom")
                       else Fulfilled (2 * x))
           (Finite (Qmake 2 1)) (Some false) [Settle 0]
           [Settle 1; ExternalAbort]).
  reflexivity.
Defined.

Lemma mapWithConcurrencyLimit_complete_witness :
  length [Some 20; Some 10] = length [10; 5] /\
  forall i item, [10; 5] !! i = Some item ->
    exists value,
      (fun x (_ : nat) => Fulfilled (E:=unit) (2 * x)) item i
      = Fulfilled value /\
      [Some 20; Some 10] !! i = Some (Some value).
Proof.
  apply (mapWithConcurrencyLimit_complete [10; 5]
           (fun x _ => Fulfilled (E:=unit) (2 * x))
           (Finite (Qmake 1 1)) None [Settle 0; Settle 0]
           [Some 20; Some 10]).
  vm_compute. reflexivity.
Defined.

Lemma mapWithConcurrencyLimit_thrown_witness :
  let fn := fun x (_ : nat) =>
    if x =? 5 then Rejected (js "boom") else Fulfilled (2 * x) in
  let st := poolRun [10; 5; 8] fn (Finite (Qmake 1 1)) None
                    [Settle 0; Settle 0] in
  default false (external st) = false /\
  exists i item,
    [10; 5; 8] !! i = Some item /\ i ∈ calls st /\
    fn item i = Rejected (js "boom").
Proof.
  apply (mapWithConcurrencyLimit_thrown [10; 5; 8]
           (fun x (_ : nat) =>
              if x =? 5 then Rejected (js "boom") else Fulfilled (2 * x))
           (Finite (Qmake 1 1)) None [Settle 0; Settle 0] (js "boom")).
  vm_compute. reflexivity.
Defined.

End PoolWitnesses.
(** ** The race: winner, cancellation and waiting *)

Section RaceMoreFacts.

Import Parallel.

Context {T E : Type}.
Variable tasks : list (RaceTask T E).

Lemma raceStep_winner (st : Race T) (ev : RaceEvent) :
  winnerFound st = raceInternal st /\
  (winnerFound st = false <-> winnerResult st = None) ->
  (winnerFound (raceStep tasks st ev) = raceInternal (raceStep tasks st ev) /\
   (winnerFound (raceStep tasks st ev) = false <->
    winnerResult (raceStep tasks st ev) = None)) /\
  (forall x, winnerResult st = Some x ->
     winnerResult (raceStep tasks st ev) = Some x) /\
  (winnerResult st = None ->
   forall winner result,
     winnerResult (raceStep tasks st ev) = Some (winner, result) ->
     exists i task,
       ev = TaskSettles i /\ tasks !! i = Some task /\ id task = winner /\
       run task (combinedAborted st) = Fulfilled result).
Proof.
  intros [Hint Hres].
  assert (Hsame : forall st' : Race T,
    winnerFound st' = winnerFound st -> raceInternal st' = raceInternal st ->
    winnerResult st' = winnerResult st ->
    (winnerFound st' = raceInternal st' /\
     (winnerFound st' = false <-> winnerResult st' = None)) /\
    (forall x, winnerResult st = Some x -> winnerResult st' = Some x) /\
    (winnerResult st = None ->
     forall winner result,
       winnerResult st' = Some (winner, result) ->
       exists i task,
         ev = TaskSettles i /\ tasks !! i = Some task /\ id task = winner /\
         run task (combinedAborted st) = Fulfilled result)).
  { intros st' -> -> ->. repeat split; try tauto.
    intros Hn w r Hw. congruence. }
  destruct ev as [i|]; simpl.
  - unfold taskSettles.
    destruct (settled st !! i) as [[|]|] eqn:Hi; try by apply Hsame.
    destruct (tasks !! i) as [task|] eqn:Htask; [|by apply Hsame].
    destruct (run task (combinedAborted st)) as [result|reason] eqn:Hrun;
      [|by apply Hsame].
    destruct (winnerFound st) eqn:Hfound; [by apply Hsame|]. simpl.
    repeat split; try done.
    + intros x Hx. destruct Hres as [Hres _]. by rewrite Hres in Hx.
    + intros _ winner result' [= <- <-]. by exists i, task.
  - destruct (parent st); by apply Hsame.
Qed.

Lemma race_winner_inv (parentSignal : option bool) (schedule : list RaceEvent) :
  let st := foldl (raceStep tasks) (raceStart tasks parentSignal) schedule in
  winnerFound st = raceInternal st /\
  (winnerFound st = false <-> winnerResult st = None).
Proof.
  induction schedule as [|ev schedule IH] using rev_ind; [done|].
  rewrite foldl_app. simpl. by apply raceStep_winner.
Qed.

(** The winner [raceWithAbort] returns is the first task whose promise
    was fulfilled: it is a task of the array, the value is the one its
    run was fulfilled with, no task had won before it, and the race had
    not aborted its own signal. *)
Theorem raceWithAbort_winner (parentSignal : option bool)
    (schedule : list RaceEvent) (winner : jsstring) (result : T) :
  raceWithAbort tasks parentSignal schedule = RaceWinner winner result ->
  exists before i later task,
    schedule = before ++ TaskSettles i :: later /\
    tasks !! i = Some task /\ id task = winner /\
    let st := foldl (raceStep tasks) (raceStart tasks parentSignal) before in
    winnerResult st = None /\ raceInternal st = false /\
    run task (combinedAborted st) = Fulfilled result.
Proof.
  unfold raceWithAbort. destruct tasks as [|t0 ts] eqn:Htasks; [done|].
  rewrite <- Htasks. clear t0 ts Htasks.
  destruct (default false parentSignal); [done|].
  unfold raceOutcome. destruct (forallb _ _); [|done].
  destruct (winnerResult _) as [[w r]|] eqn:Hw; [|done].
  intros [= -> ->]. clear -Hw.
  induction schedule as [|ev schedule IH] using rev_ind; [done|].
  rewrite foldl_app in Hw. simpl in Hw.
  pose proof (race_winner_inv parentSignal schedule) as Hinv.
  destruct (raceStep_winner _ ev Hinv) as (_ & Hkeep & Hnew).
  destruct (winnerResult (foldl (raceStep tasks)
                                (raceStart tasks parentSignal) schedule))
    as [x|] eqn:Hold.
  - rewrite (Hkeep x eq_refl) in Hw. injection Hw as ->.
    destruct (IH eq_refl) as (before & i & later & task & -> & Htask & Hid
                              & Hst).
    exists before, i, (later ++ [ev]), task.
    by rewrite <- app_assoc.
  - destruct (Hnew eq_refl winner result Hw) as (i & task & -> & Htask & Hid
                                                 & Hrun).
    exists schedule, i, [], task. repeat split; try done.
    destruct Hinv as [Hint Hnone]. rewrite <- Hint. by apply Hnone.
Qed.

(** Once a task has won, no later task replaces it, and the signal given
    to the tasks stays aborted: the tasks that settle later run cancelled. *)
Theorem raceWithAbort_winner_final (parentSignal : option bool)
    (schedule later : list RaceEvent) (x : jsstring * T) :
  winnerResult (foldl (raceStep tasks) (raceStart tasks parentSignal) schedule)
  = Some x ->
  let st := foldl (raceStep tasks) (raceStart tasks parentSignal)
                  (schedule ++ later) in
  winnerResult st = Some x /\ combinedAborted st = true.
Proof.
  intros Hx st.
  assert (Hwin : winnerResult st = Some x).
  { subst st. induction later as [|ev later IH] using rev_ind.
    - by rewrite app_nil_r.
    - rewrite app_assoc, foldl_app. simpl.
      by apply (raceStep_winner _ ev (race_winner_inv _ _)). }
  split; [done|].
  destruct (race_winner_inv parentSignal (schedule ++ later)) as [Hint Hnone].
  fold st in Hint, Hnone. unfold combinedAborted.
  destruct (winnerFound st) eqn:Hfound.
  - rewrite <- Hint. apply orb_true_r.
  - destruct Hnone as [Hnone _]. rewrite Hnone in Hwin; done.
Qed.

Lemma race_settled_inv (parentSignal : option bool)
    (schedule : list RaceEvent) :
  let st := foldl (raceStep tasks) (raceStart tasks parentSignal) schedule in
  length (settled st) = length tasks /\
  forall i, (i < length tasks)%nat ->
    settled st !! i = Some (bool_decide (TaskSettles i ∈ schedule)).
Proof.
  induction schedule as [|ev schedule [IHlen IH]] using rev_ind.
  - simpl. split; [by rewrite length_replicate|].
    intros i Hi. by rewrite lookup_replicate_2.
  - rewrite foldl_app. simpl.
    set (st := foldl (raceStep tasks) (raceStart tasks parentSignal) schedule)
      in *.
    assert (Hother : forall i,
              (i < length tasks)%nat -> ev <> TaskSettles i ->
              bool_decide (TaskSettles i ∈ schedule ++ [ev])
              = bool_decide (TaskSettles i ∈ schedule)).
    { intros i Hi Hev. apply bool_decide_ext. rewrite elem_of_app.
      rewrite list_elem_of_singleton. split; [|by left].
      intros [?|?]; [done|congruence]. }
    destruct ev as [k|]; simpl.
    + unfold taskSettles.
      destruct (settled st !! k) as [[|]|] eqn:Hk.
      * split; [done|]. intros i Hi. rewrite (IH i Hi). f_equal.
        destruct (decide (i = k)) as [->|Hne];
          [|symmetry; apply Hother; congruence].
        rewrite (IH k Hi) in Hk. injection Hk as Hk.
        rewrite Hk. symmetry. apply bool_decide_eq_true.
        apply elem_of_app. left. by apply bool_decide_eq_true in Hk.
      * assert (Hlt : (k < length tasks)%nat)
          by (rewrite <- IHlen; by eapply lookup_lt_Some).
        destruct (tasks !! k) as [task|] eqn:Htask;
          [|by apply lookup_ge_None in Htask; lia].
        assert (Hset : forall st' : Race T,
                  settled st' = <[k := true]> (settled st) ->
                  length (settled st') = length tasks /\
                  forall i, (i < length tasks)%nat ->
                    settled st' !! i
                    = Some (bool_decide (TaskSettles i ∈
                                           schedule ++ [TaskSettles k]))).
        { intros st' ->. split; [by rewrite length_insert|].
          intros i Hi. destruct (decide (i = k)) as [->|Hne].
          - rewrite list_lookup_insert_eq; [|lia]. f_equal. symmetry.
            apply bool_decide_eq_true, elem_of_app. right. by left.
          - rewrite list_lookup_insert_ne; [|done].
            rewrite Hother; [by apply IH|done|congruence]. }
        destruct (run task (combinedAborted st)); [destruct (winnerFound st)|];
          by apply Hset.
      * split; [done|]. intros i Hi. rewrite (IH i Hi).
        rewrite Hother; [done|done|].
        intros [= ->]. apply lookup_ge_None in Hk. lia.
    + assert (Hsame : settled (match parent st with
                               | Some _ =>
                                 {| settled := settled st;
                                    winnerFound := winnerFound st;
                                    winnerResult := winnerResult st;
                                    raceInternal := raceInternal st;
                                    parent := Some true |}
                               | None => st
                               end) = settled st)
        by by destruct (parent st).
      rewrite Hsame. split; [done|]. intros i Hi.
      rewrite Hother; [by apply IH|done|done].
Qed.

(** [raceWithAbort] waits for every task: it returns or throws exactly
    when the promise of each task has settled, also after a task has won. *)
Theorem raceWithAbort_waits_for_all (parentSignal : option bool)
    (schedule : list RaceEvent) :
  tasks <> [] -> default false parentSignal = false ->
  (raceWithAbort tasks parentSignal schedule <> RacePending <->
   forall i, (i < length tasks)%nat -> TaskSettles i ∈ schedule).
Proof.
  intros Hne Hparent. unfold raceWithAbort.
  destruct tasks as [|t0 ts] eqn:Htasks; [done|].
  rewrite <- Htasks in *. clear t0 ts Htasks Hne. rewrite Hparent.
  destruct (race_settled_inv parentSignal schedule) as [Hlen Hsettled].
  unfold raceOutcome.
  set (st := foldl (raceStep tasks) (raceStart tasks parentSignal) schedule)
    in *.
  destruct (forallb (fun done => done) (settled st)) eqn:Hall.
  - split.
    + intros _ i Hi. rewrite forallb_forall in Hall.
      specialize (Hsettled i Hi).
      apply list_elem_of_lookup_2, list_elem_of_In, Hall in Hsettled.
      by apply bool_decide_eq_true in Hsettled.
    + intros _. by destruct (winnerResult st) as [[? ?]|].
  - split; [done|]. intros Hsched. exfalso.
    apply Bool.not_true_iff_false in Hall. apply Hall.
    apply forallb_forall. intros done [i Hi]%list_elem_of_In%list_elem_of_lookup_1.
    assert (Hlt : (i < length tasks)%nat)
      by (rewrite <- Hlen; by eapply lookup_lt_Some).
    rewrite (Hsettled i Hlt) in Hi. injection Hi as <-.
    apply bool_decide_eq_true. by apply Hsched.
Qed.

End RaceMoreFacts.

Section RaceWitnesses.

Import Parallel.

Lemma raceWithAbort_winner_witness :
  let tasks :=
    [{| id := js "slow"; run := fun _ => Rejected (js "timeout") |};
     {| id := js "fast"; run := fun _ => Fulfilled (R:=Z) (E:=jsstring) 42 |}]
  in
  let schedule := [TaskSettles 0; TaskSettles 1] in
  exists before i later task,
    schedule = before ++ TaskSettles i :: later /\
    tasks !! i = Some task /\ id task = js "fast" /\
    let st := foldl (raceStep tasks) (raceStart tasks None) before in
    winnerResult st = None /\ raceInternal st = false /\
    run task (combinedAborted st) = Fulfilled 42.
Proof.
  intros tasks schedule.
  apply (raceWithAbort_winner tasks None schedule (js "fast") 42).
  vm_compute. reflexivity.
Defined.

Lemma raceWithAbort_winner_final_witness :
  let tasks :=
    [{| id := js "a"; run := fun _ => Fulfilled (R:=Z) (E:=jsstring) 1 |};
     {| id := js "b"; run := fun _ => Fulfilled (R:=Z) (E:=jsstring) 2 |}]
  in
  let st := foldl (raceStep tasks) (raceStart tasks None)
                  ([TaskSettles 1] ++ [TaskSettles 0]) in
  winnerResult st = Some (js "b", 2) /\ combinedAborted st = true.
Proof.
  intros tasks.
  apply (raceWithAbort_winner_final tasks None [TaskSettles 1] [TaskSettles 0]
           (js "b", 2)).
  reflexivity.
Defined.

Lemma raceWithAbort_waits_for_all_witness :
  let tasks :=
    [{| id := js "a"; run := fun _ => Fulfilled (R:=Z) (E:=jsstring) 1 |};
     {| id := js "b"; run := fun _ => Fulfilled (R:=Z) (E:=jsstring) 2 |}]
  in
  raceWithAbort tasks None [TaskSettles 0] <> RacePending <->
  forall i, (i < length tasks)%nat -> TaskSettles i ∈ [TaskSettles 0].
Proof.
  intros tasks.
  apply (raceWithAbort_waits_for_all tasks None [TaskSettles 0]).
  - discriminate.
  - reflexivity.
Defined.

End RaceWitnesses.
(** ** Agents: lookup after resolution, inherited tools, errors *)

Section AgentLookupFacts.

Import Agents.

Lemma findAgent_Some (l : list AgentConfig) (n : string) (a : AgentConfig) :
  findAgent l n = Some a ->
  exists i, l !! i = Some a /\ name a = n /\
    forall j b, l !! j = Some b -> (j < i)%nat -> name b <> n.
Proof.
  unfold findAgent.
  destruct (list_find _ l) as [[i a']|] eqn:Hfind; [|done].
  simpl. intros [= ->]. apply list_find_Some in Hfind as (? & ? & ?).
  by exists i.
Qed.

Lemma findAgent_None (l : list AgentConfig) (n : string) :
  findAgent l n = None -> forall a, a ∈ l -> name a <> n.
Proof.
  unfold findAgent.
  destruct (list_find _ l) as [[i a']|] eqn:Hfind; [done|].
  intros _ a Ha. apply list_find_None in Hfind.
  rewrite Forall_forall in Hfind. by apply Hfind.
Qed.

Lemma findAgent_lookup (l : list AgentConfig) (i : nat) (a : AgentConfig) :
  NoDup (name <$> l) -> l !! i = Some a -> findAgent l (name a) = Some a.
Proof.
  intros Hnd Hi. unfold findAgent.
  assert (Hfind : list_find (fun b => name b = name a) l = Some (i, a)).
  { apply list_find_Some. split; [done|]. split; [done|].
    intros j b Hj Hlt Hname.
    pose proof (name_inj l Hnd j i b a Hj Hi Hname). lia. }
  by rewrite Hfind.
Qed.

Variable l : list AgentConfig.
Hypothesis Hnd : NoDup (name <$> l).

(** Resolution leaves what the agent files say as it is: the list keeps
    its length and order, and every agent keeps its name, description,
    tools, model, system prompt, thinking, source, file path and base;
    only the resolved fields are written. *)
Theorem resolveAgentInheritance_keeps_own_fields (l' : list AgentConfig) :
  resolveAgentInheritance l = Ok l' ->
  length l' = length l /\
  forall i a, l !! i = Some a ->
    exists a',
      l' !! i = Some a' /\
      name a' = name a /\ description a' = description a /\
      tools a' = tools a /\ model a' = model a /\
      systemPrompt a' = systemPrompt a /\ thinking a' = thinking a /\
      source a' = source a /\ filePath a' = filePath a /\
      extends a' = extends a.
Proof.
  intros Hok.
  destruct (resolveAgentInheritance_resolved l Hnd l' Hok) as [Hlen Hall].
  split; [done|]. intros i a Hi. specialize (Hall i a Hi).
  destruct (truthyString (extends a)).
  - destruct Hall as (j & baseAgent & _ & _ & Ha').
    by exists (inherit baseAgent a).
  - by exists (copyOwn a).
Qed.

Lemma resolved_names (l' : list AgentConfig) :
  resolveAgentInheritance l = Ok l' -> name <$> l' = name <$> l.
Proof.
  intros Hok.
  destruct (resolveAgentInheritance_resolved l Hnd l' Hok) as [Hlen Hall].
  apply list_eq. intros i. rewrite !list_lookup_fmap.
  destruct (l !! i) as [a|] eqn:Hi.
  - specialize (Hall i a Hi). destruct (truthyString (extends a)).
    + destruct Hall as (j & baseAgent & _ & _ & ->). done.
    + by rewrite Hall.
  - apply lookup_ge_None in Hi. rewrite <- Hlen in Hi.
    apply lookup_ge_None in Hi. by rewrite Hi.
Qed.

(** Looking an agent up after resolution finds the resolved form of the
    agent found before it: an agent without base has copied its own
    fields, and an agent with a base has inherited from the agent that a
    lookup of the base's name finds.  A name that is not found before is
    not found after. *)
Theorem findAgent_resolved (l' : list AgentConfig) (n : string) :
  resolveAgentInheritance l = Ok l' ->
  match findAgent l n with
  | None => findAgent l' n = None
  | Some a =>
    if truthyString (extends a) then
      exists baseAgent,
        findAgent l' (default "" (extends a)) = Some baseAgent /\
        findAgent l' n = Some (inherit baseAgent a)
    else findAgent l' n = Some (copyOwn a)
  end.
Proof.
  intros Hok.
  pose proof (resolved_names l' Hok) as Hnames.
  assert (Hnd' : NoDup (name <$> l')) by by rewrite Hnames.
  destruct (resolveAgentInheritance_resolved l Hnd l' Hok) as [Hlen Hall].
  destruct (findAgent l n) as [a|] eqn:Hfind.
  - apply findAgent_Some in Hfind as (i & Hi & <- & _).
    specialize (Hall i a Hi). destruct (truthyString (extends a)).
    + destruct Hall as (j & baseAgent & Hj & Hbase & Ha').
      exists baseAgent. split.
      * rewrite <- Hbase. by eapply findAgent_lookup.
      * change (name a) with (name (inherit baseAgent a)).
        by eapply findAgent_lookup.
    + change (name a) with (name (copyOwn a)). by eapply findAgent_lookup.
  - destruct (findAgent l' n) as [a'|] eqn:Hfind'; [|done].
    apply findAgent_Some in Hfind' as (i & Hi & Hn & _).
    assert (Hin : n ∈ name <$> l).
    { rewrite <- Hnames, <- Hn. apply list_elem_of_fmap. exists a'.
      split; [done|]. by eapply list_elem_of_lookup_2. }
    apply list_elem_of_fmap in Hin as (a & -> & Ha).
    by apply (findAgent_None l (name a) Hfind a) in Ha.
Qed.

End AgentLookupFacts.

Section AgentChainFacts.

Import Agents.

Lemma inherit_effectiveTools (baseAgent agent : AgentConfig) (t : string) :
  t ∈ effectiveTools baseAgent \/ t ∈ default [] (tools agent) ->
  t ∈ effectiveTools (inherit baseAgent agent).
Proof.
  intros Ht. unfold effectiveTools at 1. unfold inherit. simpl.
  fold (effectiveTools baseAgent).
  assert (Hin : t ∈ newSet (effectiveTools baseAgent
                            ++ default [] (tools agent)))
    by (apply newSet_elem_of, elem_of_app; tauto).
  destruct (newSet _) as [|x union]; [|done].
  by apply elem_of_nil in Hin.
Qed.

Lemma copyOwn_effectiveTools (agent : AgentConfig) (t : string) :
  t ∈ default [] (tools agent) -> t ∈ effectiveTools (copyOwn agent).
Proof.
  unfold effectiveTools, copyOwn. simpl.
  destruct (tools agent) as [[|x ts]|]; simpl; try done.
  all: intros Ht; by apply elem_of_nil in Ht.
Qed.

Variable l : list AgentConfig.
Hypothesis Hnd : NoDup (name <$> l).

(** The tools an agent ends up with include its own tools and the tools
    of every agent up its chain of bases. *)
Theorem resolveAgentInheritance_inherits_tools (l' : list AgentConfig)
    (a' b' : AgentConfig) (t : string) :
  resolveAgentInheritance l = Ok l' ->
  a' ∈ l' -> rtc (extendsIn l') a' b' ->
  t ∈ default [] (tools b') -> t ∈ effectiveTools a'.
Proof.
  intros Hok Ha' Hchain Ht.
  pose proof (resolved_names l Hnd l' Hok) as Hnames.
  assert (Hnd' : NoDup (name <$> l')) by by rewrite Hnames.
  destruct (resolveAgentInheritance_resolved l Hnd l' Hok) as [Hlen Hall].
  assert (Horigin : forall x', x' ∈ l' ->
            exists i x, l !! i = Some x /\ l' !! i = Some x' /\
              extends x' = extends x /\ tools x' = tools x /\
              if truthyString (extends x) then
                exists baseAgent,
                  baseAgent ∈ l' /\
                  name baseAgent = default "" (extends x) /\
                  x' = inherit baseAgent x
              else x' = copyOwn x).
  { intros x' [i Hi]%list_elem_of_lookup_1.
    assert (Hlt : (i < length l)%nat)
      by (rewrite <- Hlen; by eapply lookup_lt_Some).
    apply lookup_lt_is_Some in Hlt as [x Hx].
    exists i, x. split; [done|]. split; [done|].
    specialize (Hall i x Hx). destruct (truthyString (extends x)).
    - destruct Hall as (j & baseAgent & Hj & Hbase & Hx').
      rewrite Hi in Hx'. injection Hx' as ->. repeat split.
      exists baseAgent. split; [by eapply list_elem_of_lookup_2|done].
    - rewrite Hi in Hall. by injection Hall as ->. }
  induction Hchain as [x'|x' m' y' Hstep Hchain IH].
  - destruct (Horigin x' Ha') as (i & x & _ & _ & _ & Htools & Hform).
    rewrite Htools in Ht. destruct (truthyString (extends x)).
    + destruct Hform as (baseAgent & _ & _ & ->).
      apply inherit_effectiveTools. by right.
    + rewrite Hform. by apply copyOwn_effectiveTools.
  - destruct Hstep as (_ & Hm' & Htruthy & Hbase).
    specialize (IH Hm' Ht).
    destruct (Horigin x' Ha') as (i & x & _ & _ & Hext & _ & Hform).
    rewrite Hext in Htruthy, Hbase. rewrite Htruthy in Hform.
    destruct Hform as (baseAgent & Hin & Hname & ->).
    assert (baseAgent = m') as ->.
    { apply list_elem_of_lookup_1 in Hin as [j Hj].
      apply list_elem_of_lookup_1 in Hm' as [k Hk].
      assert (j = k)
        by (apply (name_inj l' Hnd' j k baseAgent m' Hj Hk); congruence).
      subst k. congruence. }
    apply inherit_effectiveTools. by left.
Qed.

Lemma ranked_add (st st' : Resolver) (i : nat) (a0 : AgentConfig) :
  rankedInv l st -> l !! i = Some a0 -> name a0 ∉ resolved st ->
  (truthyString (extends a0) = true ->
   default "" (extends a0) ∈ resolved st) ->
  resolved st' = {[name a0]} ∪ resolved st ->
  rankedInv l st'.
Proof.
  intros [rank Hrank] Hi Hfresh Hbase Hres.
  exists (fun m => if decide (m = name a0)
                   then S (rank (default "" (extends a0))) else rank m).
  intros a Ha Hin Htruthy. rewrite Hres in *.
  assert (Hother : forall m, m ∈ resolved st ->
            (if decide (m = name a0)
             then S (rank (default "" (extends a0))) else rank m) = rank m).
  { intros m Hm. destruct (decide (m = name a0)) as [->|]; done. }
  destruct (decide (name a = name a0)) as [Hsame|Hdiff].
  - assert (a = a0) as ->.
    { apply list_elem_of_lookup_1 in Ha as [k Hk].
      assert (k = i) by by apply (name_inj l Hnd k i a a0).
      subst k. congruence. }
    specialize (Hbase Htruthy). split.
    + apply elem_of_union. by right.
    + rewrite (Hother _ Hbase). lia.
  - assert (Hold : name a ∈ resolved st).
    { apply elem_of_union in Hin as [Hin|Hin]; [|done].
      by apply elem_of_singleton in Hin. }
    destruct (Hrank a Ha Hold Htruthy) as [Hb Hlt]. split.
    + apply elem_of_union. by right.
    + by rewrite (Hother _ Hb).
Qed.

Lemma resolve_ranked (fuel : nat) :
  forall (n : string) (path : list string) (st st' : Resolver),
    resolverInv l st -> rankedInv l st -> resolve fuel n path st = Ok st' ->
    rankedInv l st'.
Proof.
  induction fuel as [|fuel IH]; intros n path st st' Hinv Hrank Hres; [done|].
  cbn [resolve] in Hres.
  destruct (decide (n ∈ path)) as [|Hpath]; [done|].
  destruct (agentMapGet n st) as [[i agent]|] eqn:Hget; [|done].
  destruct (decide (n ∈ resolved st)) as [Hin|Hfresh].
  { by injection Hres as <-. }
  destruct (decide (n ∈ visited st)); [done|].
  pose proof Hinv as (R1 & R2 & R3 & R4).
  unfold agentMapGet in Hget.
  destruct (agentMap st !! n) as [i'|] eqn:Hmap; [|done]. simpl in Hget.
  destruct (agents st !! i') as [agent'|] eqn:Hag; [|done].
  injection Hget as -> ->.
  rewrite R1 in Hmap. pose proof Hmap as Hmap'.
  apply buildAgentMap_Some in Hmap' as (a0 & Hi & Hname).
  destruct (R4 i a0 Hi) as (a' & Ha' & Hun & _).
  rewrite Hag in Ha'. injection Ha' as <-.
  rewrite Hun in * by (by rewrite Hname). clear Hun. subst n.
  destruct (truthyString (extends a0)) eqn:Hext.
  - destruct (resolve fuel (default "" (extends a0)) (path ++ [name a0]) _)
      as [st2| |] eqn:Hrec; try done.
    assert (Hinv1 : resolverInv l
              {| agents := agents st; agentMap := agentMap st;
                 visited := {[name a0]} ∪ visited st;
                 resolved := resolved st |}) by exact Hinv.
    assert (Hrank1 : rankedInv l
              {| agents := agents st; agentMap := agentMap st;
                 visited := {[name a0]} ∪ visited st;
                 resolved := resolved st |}) by exact Hrank.
    pose proof (resolve_spec l Hnd fuel _ _ _ st2 Hinv1 Hrec)
      as (Hinv2 & Hbase & Hmono & Hnew).
    apply IH in Hrec as Hrank2; [|done|done].
    assert (Hfresh2 : name a0 ∉ resolved st2).
    { intros Hin. destruct (Hnew _ Hin) as [Hold|Hnot]; [done|].
      apply Hnot, elem_of_app. right. by apply list_elem_of_singleton. }
    destruct (agentMapGet _ st2) as [[jb baseAgent]|];
      destruct (agents st2 !! i) as [agentNow|]; injection Hres as <-;
      try done.
    all: by apply (ranked_add st2 _ i a0).
  - injection Hres as <-.
    apply (ranked_add st _ i a0); try done. congruence.
Qed.

Lemma resolveAll_ranked (fuel : nat) (names : list string) :
  forall st st' : Resolver,
    resolverInv l st -> rankedInv l st -> resolveAll fuel names st = Ok st' ->
    rankedInv l st'.
Proof.
  induction names as [|n names IH]; intros st st' Hinv Hrank Hres.
  - by injection Hres as <-.
  - cbn [resolveAll] in Hres.
    destruct (decide (n ∈ resolved st)); [by eapply IH|].
    destruct (resolve fuel n [] st) as [st1| |] eqn:Hr; try done.
    pose proof (resolve_spec l Hnd fuel _ _ _ _ Hinv Hr) as (Hinv1 & _).
    apply resolve_ranked in Hr; [|done|done].
    by eapply IH.
Qed.

(** Resolution succeeds only on a well-founded inheritance: every base
    is an agent of the list, and the agents can be ranked so that a base
    ranks below the agents that extend it. *)
Lemma resolveAgentInheritance_ranked (l' : list AgentConfig) :
  resolveAgentInheritance l = Ok l' ->
  exists rank : string -> nat,
    forall a, a ∈ l -> truthyString (extends a) = true ->
      (exists b, b ∈ l /\ name b = default "" (extends a)) /\
      (rank (default "" (extends a)) < rank (name a))%nat.
Proof.
  unfold resolveAgentInheritance, resolveAgentInheritanceFuel.
  destruct (resolveAll _ _ _) as [st| |] eqn:Hall; try done. intros _.
  pose proof (resolverInv_start l) as Hstart.
  assert (Hrank0 : rankedInv l {| agents := l; agentMap := buildAgentMap l;
                                  visited := ∅; resolved := ∅ |}).
  { exists (fun _ => 0%nat). intros a _ Hin. simpl in Hin.
    by apply not_elem_of_empty in Hin. }
  pose proof (resolveAll_spec l Hnd _ _ _ _ Hstart Hall) as (Hinv & _ & Hres).
  pose proof (resolveAll_ranked _ _ _ _ Hstart Hrank0 Hall) as [rank Hrank].
  exists rank. intros a Ha Htruthy.
  assert (Hin : name a ∈ resolved st).
  { apply Hres, list_elem_of_fmap. by exists a. }
  destruct (Hrank a Ha Hin Htruthy) as [Hbase Hlt]. split; [|done].
  destruct Hinv as (_ & _ & R3 & _).
  destruct (R3 _ Hbase) as (j & b & Hj & Hb).
  exists b. split; [by eapply list_elem_of_lookup_2|done].
Qed.

(** [resolveAgentInheritance] throws when an agent extends a name that
    no agent of the list has, and when the inheritance has a cycle, an
    agent that extends itself included. *)
Theorem resolveAgentInheritance_throws :
  (exists a, a ∈ l /\ truthyString (extends a) = true /\
     forall b, b ∈ l -> name b <> default "" (extends a)) \/
  (exists a, tc (extendsIn l) a a) ->
  exists e, resolveAgentInheritance l = Throw e.
Proof.
  intros Hbad.
  destruct (resolveAgentInheritance l) as [l'|e|] eqn:Hres.
  - exfalso.
    destruct (resolveAgentInheritance_ranked l' Hres) as [rank Hrank].
    destruct Hbad as [(a & Ha & Htruthy & Hmissing)|[a Hcycle]].
    + destruct (Hrank a Ha Htruthy) as [(b & Hb & Hname) _].
      by apply (Hmissing b).
    + assert (Hdown : forall x y, tc (extendsIn l) x y ->
                        (rank (name y) < rank (name x))%nat).
      { intros x y Hxy. induction Hxy as [x y Hstep|x y z Hstep _ IH].
        - destruct Hstep as (Hx & _ & Htruthy & Hbase).
          destruct (Hrank x Hx Htruthy) as [_ Hlt]. by rewrite Hbase in Hlt.
        - destruct Hstep as (Hx & _ & Htruthy & Hbase).
          destruct (Hrank x Hx Htruthy) as [_ Hlt]. rewrite Hbase in Hlt.
          lia. }
      specialize (Hdown a a Hcycle). lia.
  - by exists e.
  - by apply resolveAgentInheritance_total in Hres.
Qed.

End AgentChainFacts.

Section AgentListFacts.

Import Agents.

Lemma formatAgentList_nonempty (agents : list AgentConfig) (maxItems : Z) :
  agents <> [] ->
  formatAgentList agents maxItems
  = (join "; " (formatAgent <$> sliceFromStart agents maxItems),
     Z.of_nat (length agents)
     - Z.of_nat (length (sliceFromStart agents maxItems))).
Proof. by destruct agents. Qed.

(** [formatAgentList] answers "none" for an empty list; otherwise the
    text lists the agents at the head of the list and [remaining] counts
    the others: it lies between zero and the number of agents, it is the
    excess over [maxItems] when [maxItems] is not negative, and for a
    negative [maxItems] that many agents at the end are left out. *)
Theorem formatAgentList_spec (agents : list AgentConfig) (maxItems : Z) :
  let text := (formatAgentList agents maxItems).1 in
  let remaining := (formatAgentList agents maxItems).2 in
  0 <= remaining <= Z.of_nat (length agents) /\
  (agents = [] -> text = "none") /\
  (agents <> [] ->
   text = join "; "
            (formatAgent <$>
             take (Z.to_nat (Z.of_nat (length agents) - remaining)) agents)) /\
  (0 <= maxItems ->
   remaining = Z.max 0 (Z.of_nat (length agents) - maxItems)) /\
  (maxItems < 0 ->
   remaining = Z.min (Z.of_nat (length agents)) (- maxItems)).
Proof.
  destruct (decide (agents = [])) as [->|Hne];
    [simpl; repeat split; try done; lia|].
  rewrite formatAgentList_nonempty by done. cbv zeta. cbn [fst snd].
  unfold sliceFromStart.
  destruct (Z.ltb_spec maxItems 0) as [Hneg|Hpos].
  - rewrite length_take. repeat split; try lia; try done.
    intros _. do 3 f_equal. lia.
  - rewrite length_take. repeat split; try lia; try done.
    intros _. do 2 f_equal.
    destruct (Z.le_gt_cases (Z.of_nat (length agents)) maxItems).
    + rewrite !take_ge; [done|lia|lia].
    + f_equal. lia.
Qed.

End AgentListFacts.

Section AgentWitnesses.

Import Agents.

Lemma resolveAgentInheritance_keeps_own_fields_witness :
  let base :=
    {| name := "base"; description := "Base agent";
       tools := Some ["read"]; model := Some "haiku";
       systemPrompt := "You are the base."; thinking := None;
       source := User; filePath := "/agents/base.md"; extends := None;
       resolvedTools := None; resolvedModel := None;
       resolvedThinking := None |} in
  let child :=
    {| name := "child"; description := "Child agent";
       tools := Some ["bash"]; model := None;
       systemPrompt := "You are the child."; thinking := None;
       source := Project; filePath := "/agents/child.md";
       extends := Some "base";
       resolvedTools := None; resolvedModel := None;
       resolvedThinking := None |} in
  length [inherit (copyOwn base) child; copyOwn base] = length [child; base] /\
  forall i a, [child; base] !! i = Some a ->
    exists a',
      [inherit (copyOwn base) child; copyOwn base] !! i = Some a' /\
      name a' = name a /\ description a' = description a /\
      tools a' = tools a /\ model a' = model a /\
      systemPrompt a' = systemPrompt a /\ thinking a' = thinking a /\
      source a' = source a /\ filePath a' = filePath a /\
      extends a' = extends a.
Proof.
  intros base child.
  apply (resolveAgentInheritance_keeps_own_fields [child; base]).
  - apply (bool_decide_unpack _). vm_compute. exact I.
  - vm_compute. reflexivity.
Defined.

Lemma findAgent_resolved_witness :
  let base :=
    {| name := "base"; description := "Base agent";
       tools := Some ["read"]; model := Some "haiku";
       systemPrompt := "You are the base."; thinking := None;
       source := User; filePath := "/agents/base.md"; extends := None;
       resolvedTools := None; resolvedModel := None;
       resolvedThinking := None |} in
  let child :=
    {| name := "child"; description := "Child agent";
       tools := Some ["bash"]; model := None;
       systemPrompt := "You are the child."; thinking := None;
       source := Project; filePath := "/agents/child.md";
       extends := Some "base";
       resolvedTools := None; resolvedModel := None;
       resolvedThinking := None |} in
  exists baseAgent,
    findAgent [inherit (copyOwn base) child; copyOwn base] "base"
    = Some baseAgent /\
    findAgent [inherit (copyOwn base) child; copyOwn base] "child"
    = Some (inherit baseAgent child).
Proof.
  intros base child.
  apply (findAgent_resolved [child; base]
           ltac:(apply (bool_decide_unpack _); vm_compute; exact I)
           [inherit (copyOwn base) child; copyOwn base] "child").
  vm_compute. reflexivity.
Defined.

Lemma resolveAgentInheritance_inherits_tools_witness :
  let base :=
    {| name := "base"; description := "Base agent";
       tools := Some ["read"]; model := Some "haiku";
       systemPrompt := "You are the base."; thinking := None;
       source := User; filePath := "/agents/base.md"; extends := None;
       resolvedTools := None; resolvedModel := None;
       resolvedThinking := None |} in
  let child :=
    {| name := "child"; description := "Child agent";
       tools := Some ["bash"]; model := None;
       systemPrompt := "You are the child."; thinking := None;
       source := Project; filePath := "/agents/child.md";
       extends := Some "base";
       resolvedTools := None; resolvedModel := None;
       resolvedThinking := None |} in
  "read" ∈ effectiveTools (inherit (copyOwn base) child).
Proof.
  intros base child.
  apply (resolveAgentInheritance_inherits_tools [child; base]
           ltac:(apply (bool_decide_unpack _); vm_compute; exact I)
           [inherit (copyOwn base) child; copyOwn base]
           (inherit (copyOwn base) child) (copyOwn base) "read").
  - vm_compute. reflexivity.
  - left.
  - eapply rtc_l; [|apply rtc_refl].
    split; [left|]. split; [right; left|]. split; reflexivity.
  - left.
Defined.

Lemma resolveAgentInheritance_throws_witness :
  exists e,
    resolveAgentInheritance
      [{| name := "loop"; description := "Extends itself";
          tools := None; model := None; systemPrompt := "";
          thinking := None; source := User; filePath := "/agents/loop.md";
          extends := Some "loop";
          resolvedTools := None; resolvedModel := None;
          resolvedThinking := None |}] = Throw e.
Proof.
  apply resolveAgentInheritance_throws.
  - apply (bool_decide_unpack _). vm_compute. exact I.
  - right. eexists. apply tc_once.
    split; [left|]. split; [left|]. split; reflexivity.
Defined.

End AgentWitnesses.
(** ** The aborted mark comes from the caller only *)

Section AbortSoundness.

Import Limits Executor.

Variable o : ExecutorOptions.

Lemma open_aborted_sound (pre : list EnvEvent) :
  Forall (fun e => isClose e = false) pre ->
  status (progress (runAgentOnce o pre)) = StatusAborted ->
  (exists reason, signal o = Some (Some reason)) \/
  (signal o = Some None /\ SignalAbort ∈ pre).
Proof.
  induction pre as [|ev pre IH] using rev_ind; intros Hpre.
  - unfold runAgentOnce. simpl.
    destruct (start_fields o) as (_ & _ & _ & _ & _ & _ & _ & _ & ->).
    destruct (signal o) as [[reason|]|]; try done. intros _. left. by eexists.
  - rewrite Forall_app, Forall_singleton in Hpre. destruct Hpre as [Hpre Hev].
    specialize (IH Hpre). rewrite runAgentOnce_snoc.
    assert (Hold : status (progress (runAgentOnce o pre)) = StatusAborted ->
              (exists reason, signal o = Some (Some reason)) \/
              (signal o = Some None /\ SignalAbort ∈ pre ++ [ev])).
    { intros Hst. destruct (IH Hst) as [?|[? ?]]; [by left|right].
      split; [done|]. apply elem_of_app. by left. }
    destruct ev as [line|data| | |heap| |code rest]; try done; simpl.
    + by destruct (processLine_status o line (runAgentOnce o pre)) as (-> & _).
    + destruct (callerSignal (runAgentOnce o pre)) as [[?|]|] eqn:Hsig;
        try done.
      intros _. destruct (signal o) as [[reason|]|] eqn:Ho.
      * left. by eexists.
      * right. split; [done|]. apply elem_of_app. right. by left.
      * by rewrite (callerSignal_absent o pre Ho) in Hsig.
Qed.

(** A result is marked aborted only because of the caller: its signal
    was aborted at the call, or it aborted before the child ended.  No
    resource guard marks a result aborted. *)
Theorem runAgentOnce_aborted_only_by_caller (trace : list EnvEvent)
    (r : TaskResult) :
  result (runAgentOnce o trace) = Some r -> r_aborted r = true ->
  (exists reason, signal o = Some (Some reason)) \/
  (signal o = Some None /\
   exists pre ev post,
     trace = pre ++ ev :: post /\
     Forall (fun e => isClose e = false) pre /\ isClose ev = true /\
     SignalAbort ∈ pre).
Proof.
  intros Hr Hab.
  destruct (result_origin o trace r Hr) as (pre & ev & post & -> & Hpre & Hev).
  destruct (first_close o pre post ev Hpre Hev)
    as (code & line & _ & Hfin & _ & Hres).
  rewrite Hres, Hfin in Hr.
  destruct (finish_result o code (runAgentOnce o (pre ++ [Stdout line])))
    as (out & flag & r' & _ & Hr' & _ & _ & _ & _ & _ & Hab' & _).
  rewrite Hr' in Hr. injection Hr as ->. rewrite Hab' in Hab.
  assert (Hst : status (progress (runAgentOnce o (pre ++ [Stdout line])))
                = StatusAborted) by by destruct (status _).
  apply open_aborted_sound in Hst as [?|[Hsig Hin]]; [by left| |].
  - right. split; [done|]. exists pre, ev, post. repeat split; try done.
    apply elem_of_app in Hin as [?|Hin]; [done|].
    by apply list_elem_of_singleton in Hin.
  - apply Forall_app. split; [done|]. by constructor.
Qed.

End AbortSoundness.

Lemma runAgentOnce_aborted_only_by_caller_witness :
  let o :=
    {| Executor.o_task := js "task"; Executor.o_id := js "1";
       Executor.o_name := None; Executor.o_model := None;
       Executor.o_step := None; Executor.signal := Some None;
       Executor.onProgress := false; Executor.retry := None;
       Executor.resourceLimits := None |} in
  let trace := [Executor.SignalAbort; Executor.ProcClose (Some 143) None] in
  exists r,
    Executor.result (Executor.runAgentOnce o trace) = Some r /\
    Executor.r_aborted r = true /\
    ((exists reason, Executor.signal o = Some (Some reason)) \/
     (Executor.signal o = Some None /\
      exists pre ev post,
        trace = pre ++ ev :: post /\
        Forall (fun e => Executor.isClose e = false) pre /\
        Executor.isClose ev = true /\
        Executor.SignalAbort ∈ pre)).
Proof.
  intros o trace. eexists. split; [vm_compute; reflexivity|].
  split; [reflexivity|].
  eapply (runAgentOnce_aborted_only_by_caller o trace);
    [vm_compute; reflexivity|reflexivity].
Defined.

(** ** Resolution succeeds on a well-founded inheritance *)

Section AgentSuccessFacts.

Import Agents.

Variable l : list AgentConfig.
Hypothesis Hnd : NoDup (name <$> l).
Hypothesis Hbases :
  forall a, a ∈ l -> truthyString (extends a) = true ->
    exists b, b ∈ l /\ name b = default "" (extends a).
Hypothesis Hacyclic : forall a, ~ tc (extendsIn l) a a.

Lemma agent_unique (a b : AgentConfig) :
  a ∈ l -> b ∈ l -> name a = name b -> a = b.
Proof.
  intros [i Hi]%list_elem_of_lookup_1 [j Hj]%list_elem_of_lookup_1 Hname.
  assert (i = j) by by apply (name_inj l Hnd i j a b).
  subst j. congruence.
Qed.

Lemma resolve_succeeds (fuel : nat) :
  forall (n : string) (path : list string) (st : Resolver),
    resolverInv l st ->
    (exists a, a ∈ l /\ name a = n) ->
    (forall a b, a ∈ l -> name a ∈ path -> b ∈ l -> name b = n ->
       tc (extendsIn l) a b) ->
    (forall m, m ∈ visited st -> m ∈ resolved st \/ m ∈ path) ->
    (forall e, resolve fuel n path st <> Throw e) /\
    (forall st', resolve fuel n path st = Ok st' ->
       forall m, m ∈ visited st' -> m ∈ resolved st' \/ m ∈ path).
Proof.
  induction fuel as [|fuel IH]; intros n path st Hinv (a0 & Ha0 & Hn) Hchain
    Hvis; [done|].
  cbn [resolve].
  destruct (decide (n ∈ path)) as [Hin|Hpath].
  { exfalso. apply (Hacyclic a0). apply Hchain; try done. by rewrite Hn. }
  pose proof Hinv as (R1 & R2 & R3 & R4).
  pose proof Ha0 as [i Hi]%list_elem_of_lookup_1.
  destruct (R4 i a0 Hi) as (a' & Ha' & Hun & _).
  assert (Hget : agentMapGet n st = Some (i, a')).
  { unfold agentMapGet. rewrite R1, <- Hn.
    rewrite (buildAgentMap_lookup l i a0 Hnd Hi). simpl. by rewrite Ha'. }
  rewrite Hget.
  destruct (decide (n ∈ resolved st)) as [Hres|Hfresh].
  { split; [done|]. by intros st' [= <-]. }
  destruct (decide (n ∈ visited st)) as [Hv|Hnv].
  { exfalso. destruct (Hvis n Hv); done. }
  rewrite Hun in * by (by rewrite Hn). subst n.
  destruct (truthyString (extends a0)) eqn:Hext.
  - destruct (Hbases a0 Ha0 Hext) as (b & Hb & Hbname).
    assert (Hinv1 : resolverInv l
              {| agents := agents st; agentMap := agentMap st;
                 visited := {[name a0]} ∪ visited st;
                 resolved := resolved st |}) by exact Hinv.
    destruct (IH (default "" (extends a0)) (path ++ [name a0])
                {| agents := agents st; agentMap := agentMap st;
                   visited := {[name a0]} ∪ visited st;
                   resolved := resolved st |} Hinv1) as [Hnothrow Hpost].
    + by exists b.
    + intros x y Hx Hxpath Hy Hyname.
      assert (Hstep : extendsIn l a0 y).
      { repeat split; try done; congruence. }
      apply elem_of_app in Hxpath as [Hxpath|Hxlast].
      * eapply tc_r; [|exact Hstep]. by apply Hchain.
      * apply list_elem_of_singleton in Hxlast.
        rewrite (agent_unique x a0 Hx Ha0 Hxlast). by apply tc_once.
    + simpl. intros m [Hm|Hm]%elem_of_union.
      * apply elem_of_singleton in Hm as ->. right.
        apply elem_of_app. right. by left.
      * destruct (Hvis m Hm); [by left|right]. apply elem_of_app. by left.
    + destruct (resolve fuel (default "" (extends a0)) (path ++ [name a0]) _)
        as [st2|e|] eqn:Hrec; [|by destruct (Hnothrow e)|done].
      specialize (Hpost st2 eq_refl).
      destruct (resolve_spec l Hnd fuel _ _ _ st2 Hinv1 Hrec)
        as (Hinv2 & _ & _ & _).
      destruct Hinv2 as (_ & _ & _ & S4).
      destruct (S4 i a0 Hi) as (aNow & HaNow & _). rewrite HaNow.
      assert (Hfinish : forall m,
                m ∈ visited st2 ∖ {[name a0]} ->
                m ∈ {[name a0]} ∪ resolved st2 \/ m ∈ path).
      { intros m [Hm Hne]%elem_of_difference.
        destruct (Hpost m Hm) as [?|[?|Hlast]%elem_of_app].
        - left. apply elem_of_union. by right.
        - by right.
        - apply list_elem_of_singleton in Hlast. exfalso. apply Hne.
          by apply elem_of_singleton. }
      destruct (agentMapGet _ st2) as [[jb baseAgent]|];
        (split; [done|]); intros st' [= <-]; simpl;
        by apply Hfinish.
  - split; [done|]. intros st' [= <-]. simpl.
    intros m [Hm Hne]%elem_of_difference.
    apply elem_of_union in Hm as [Hm|Hm]; [done|].
    destruct (Hvis m Hm); [left|by right]. apply elem_of_union. by right.
Qed.

Lemma resolveAll_succeeds (fuel : nat) (names : list string) :
  forall st : Resolver,
    resolverInv l st ->
    (forall n, n ∈ names -> exists a, a ∈ l /\ name a = n) ->
    (forall m, m ∈ visited st -> m ∈ resolved st) ->
    forall e, resolveAll fuel names st <> Throw e.
Proof.
  induction names as [|n names IH]; intros st Hinv Hnames Hvis e; [done|].
  cbn [resolveAll].
  assert (Hrest : forall n', n' ∈ names -> exists a, a ∈ l /\ name a = n').
  { intros n' Hn'. apply Hnames. by right. }
  destruct (decide (n ∈ resolved st)); [by apply IH|].
  destruct (resolve_succeeds fuel n [] st Hinv) as [Hnothrow Hpost].
  - apply Hnames. by left.
  - intros a b _ Hin. by apply elem_of_nil in Hin.
  - intros m Hm. left. by apply Hvis.
  - destruct (resolve fuel n [] st) as [st1|e1|] eqn:Hr;
      [|by destruct (Hnothrow e1)|done].
    destruct (resolve_spec l Hnd fuel _ _ _ st1 Hinv Hr) as (Hinv1 & _).
    apply IH; [done|done|].
    intros m Hm. destruct (Hpost st1 eq_refl m Hm) as [?|Hnil]; [done|].
    by apply elem_of_nil in Hnil.
Qed.

(** When the names are distinct, every base is the name of an agent of
    the list and no agent is, through its chain of bases, its own base,
    [resolveAgentInheritance] does not throw: it returns the list. *)
Theorem resolveAgentInheritance_succeeds :
  exists l', resolveAgentInheritance l = Ok l'.
Proof.
  destruct (resolveAgentInheritance l) as [l'|e|] eqn:Hres.
  - by exists l'.
  - exfalso. unfold resolveAgentInheritance, resolveAgentInheritanceFuel in Hres.
    destruct (resolveAll _ _ _) as [st|e'|] eqn:Hall; try done.
    revert Hall. apply resolveAll_succeeds.
    + apply resolverInv_start.
    + intros n (a & -> & Ha)%list_elem_of_fmap. by exists a.
    + intros m Hm. simpl in Hm. by apply not_elem_of_empty in Hm.
  - by apply resolveAgentInheritance_total in Hres.
Qed.

End AgentSuccessFacts.

Section AgentSuccessWitness.

Import Agents.

Lemma resolveAgentInheritance_succeeds_witness :
  let base :=
    {| name := "base"; description := "Base agent";
       tools := Some ["read"]; model := Some "haiku";
       systemPrompt := "You are the base."; thinking := None;
       source := User; filePath := "/agents/base.md"; extends := None;
       resolvedTools := None; resolvedModel := None;
       resolvedThinking := None |} in
  let child :=
    {| name := "child"; description := "Child agent";
       tools := Some ["bash"]; model := None;
       systemPrompt := "You are the child."; thinking := None;
       source := Project; filePath := "/agents/child.md";
       extends := Some "base";
       resolvedTools := None; resolvedModel := None;
       resolvedThinking := None |} in
  exists l', resolveAgentInheritance [child; base] = Ok l'.
Proof.
  intros base child.
  apply (resolveAgentInheritance_succeeds [child; base]).
  - apply (bool_decide_unpack _). vm_compute. exact I.
  - intros a Ha Htruthy. exists base. split; [right; left|].
    apply elem_of_cons in Ha as [->|Ha]; [reflexivity|].
    apply list_elem_of_singleton in Ha as ->. discriminate.
  - intros a Hcycle.
    assert (Hdown : forall x y, tc (extendsIn [child; base]) x y ->
              (String.length (name y) < String.length (name x))%nat).
    { intros x y Hxy. induction Hxy as [x y Hstep|x y z Hstep _ IH].
      - destruct Hstep as (Hx & _ & Htruthy & Hbase).
        apply elem_of_cons in Hx as [->|Hx].
        + rewrite <- Hbase. simpl. lia.
        + apply list_elem_of_singleton in Hx as ->. discriminate.
      - destruct Hstep as (Hx & _ & Htruthy & Hbase).
        apply elem_of_cons in Hx as [->|Hx].
        + rewrite <- Hbase in IH. simpl in *. lia.
        + apply list_elem_of_singleton in Hx as ->. discriminate. }
    specialize (Hdown a a Hcycle). lia.
Defined.

End AgentSuccessWitness.
(** ** Discovery: merging the user's and the project's agents *)

Section DiscoveryFacts.

Import Agents.

Lemma mapSet_keys (m : list (string * AgentConfig)) (key : string)
    (value : AgentConfig) (k : string) :
  k ∈ (mapSet m key value).*1 <-> k = key \/ k ∈ m.*1.
Proof.
  induction m as [|[k' v'] m IH]; simpl.
  - rewrite list_elem_of_singleton. split; [by left|].
    intros [?|Hk]; [done|]. by apply elem_of_nil in Hk.
  - destruct (decide (k' = key)) as [->|Hne]; simpl.
    + rewrite !elem_of_cons. tauto.
    + rewrite !elem_of_cons, IH. tauto.
Qed.

Lemma mapSet_NoDup (m : list (string * AgentConfig)) (key : string)
    (value : AgentConfig) :
  NoDup m.*1 -> NoDup (mapSet m key value).*1.
Proof.
  induction m as [|[k' v'] m IH]; simpl; intros Hnd.
  - apply NoDup_singleton.
  - apply NoDup_cons in Hnd as [Hk' Hnd].
    destruct (decide (k' = key)) as [->|Hne]; simpl.
    + by apply NoDup_cons.
    + apply NoDup_cons. split; [|by apply IH].
      rewrite mapSet_keys. intros [?|?]; done.
Qed.

Lemma mapSet_named (m : list (string * AgentConfig)) (key : string)
    (value : AgentConfig) :
  Forall (fun p => name p.2 = p.1) m -> name value = key ->
  Forall (fun p => name p.2 = p.1) (mapSet m key value).
Proof.
  intros Hm Hv. induction m as [|[k' v'] m IH]; simpl.
  - by constructor.
  - apply Forall_cons_1 in Hm as [Hk' Hm].
    destruct (decide (k' = key)); constructor; try done. by apply IH.
Qed.

Lemma findAgent_cons (a : AgentConfig) (l : list AgentConfig) (n : string) :
  findAgent (a :: l) n = if decide (name a = n) then Some a else findAgent l n.
Proof.
  unfold findAgent. simpl. destruct (decide (name a = n)); [done|].
  by destruct (list_find _ l) as [[i b]|].
Qed.

Lemma mapSet_find (m : list (string * AgentConfig)) (key : string)
    (value : AgentConfig) (n : string) :
  Forall (fun p => name p.2 = p.1) m -> name value = key ->
  findAgent (mapSet m key value).*2 n
  = if decide (n = key) then Some value else findAgent m.*2 n.
Proof.
  intros Hm Hv. induction m as [|[k' v'] m IH]; cbn [mapSet].
  - rewrite fmap_cons, findAgent_cons. cbn [snd]. rewrite Hv.
    destruct (decide (key = n)), (decide (n = key)); try done; congruence.
  - apply Forall_cons_1 in Hm as [Hk' Hm]. simpl in Hk'.
    destruct (decide (k' = key)) as [->|Hne];
      rewrite !fmap_cons, !findAgent_cons; cbn [snd]; rewrite ?Hv, ?Hk'.
    + destruct (decide (key = n)), (decide (n = key)); try done; congruence.
    + rewrite (IH Hm).
      destruct (decide (k' = n)), (decide (n = key)); try done; congruence.
Qed.

Lemma setAll_spec (l : list AgentConfig) :
  forall m : list (string * AgentConfig),
    NoDup m.*1 -> Forall (fun p => name p.2 = p.1) m ->
    NoDup (setAll m l).*1 /\
    Forall (fun p => name p.2 = p.1) (setAll m l) /\
    forall n, findAgent (setAll m l).*2 n
              = match last (filter (fun a => name a = n) l) with
                | Some a => Some a
                | None => findAgent m.*2 n
                end.
Proof.
  induction l as [|a l IH] using rev_ind; intros m Hnd Hnamed; [done|].
  unfold setAll. rewrite foldl_app. simpl. fold (setAll m l).
  destruct (IH m Hnd Hnamed) as (Hnd' & Hnamed' & Hfind).
  split; [by apply mapSet_NoDup|]. split; [by apply mapSet_named|].
  intros n. rewrite mapSet_find by done. rewrite filter_app.
  destruct (decide (n = name a)) as [->|Hne].
  - rewrite filter_cons_True by done. by rewrite filter_nil, last_snoc.
  - rewrite filter_cons_False by done. rewrite filter_nil, app_nil_r.
    apply Hfind.
Qed.

(** The agents [discoverAgents] hands to [resolveAgentInheritance] have
    distinct names, and under every name stands the agent loaded last
    under it, the user's directory first and the project's after it: a
    project agent overrides the user's agent of the same name.  So the
    call ends: it returns the resolved agents or throws. *)
Theorem discoverAgents_merges (userLoaded projectLoaded : list AgentConfig)
    (projectAgentsDir : option string) (scope : AgentScope) :
  let all := allAgents userLoaded projectLoaded projectAgentsDir scope in
  NoDup (name <$> all) /\
  (forall n,
     findAgent all n
     = last (filter (fun a => name a = n)
               (userAgents userLoaded scope
                ++ projectAgents projectLoaded projectAgentsDir scope))) /\
  discoverAgents userLoaded projectLoaded projectAgentsDir scope
  <> OutOfFuel.
Proof.
  intros all.
  assert (Hall :
            all = (setAll [] (userAgents userLoaded scope
                      ++ projectAgents projectLoaded projectAgentsDir scope)).*2).
  { subst all. unfold allAgents. destruct scope; simpl.
    - by rewrite app_nil_r.
    - done.
    - unfold setAll. by rewrite foldl_app. }
  destruct (setAll_spec
              (userAgents userLoaded scope
               ++ projectAgents projectLoaded projectAgentsDir scope) [])
    as (Hnd & Hnamed & Hfind); [apply NoDup_nil_2|done|].
  assert (Hnames : name <$> all
                   = (setAll [] (userAgents userLoaded scope
                        ++ projectAgents projectLoaded projectAgentsDir
                             scope)).*1).
  { rewrite Hall. rewrite <- list_fmap_compose.
    apply Forall_fmap_ext_1. eapply Forall_impl; [exact Hnamed|].
    by intros [k v]. }
  assert (Hdistinct : NoDup (name <$> all)) by by rewrite Hnames.
  split; [done|]. split.
  - intros n. rewrite Hall, Hfind.
    by destruct (last _).
  - unfold discoverAgents. fold all.
    pose proof (resolveAgentInheritance_total all Hdistinct) as Htotal.
    by destruct (resolveAgentInheritance all).
Qed.

End DiscoveryFacts.
